(** * Estudio do Escritor: the project aggregate of [App.tsx] and the image
    store of [utils/db.ts], embedded and verified.

    The embedding follows the sources function by function:
    - [types.ts]: the records [Folder], [Article], [Section], [ProjectState];
    - [utils/db.ts]: the IndexedDB object store of images, a finite map keyed
      by image id, and the operations issued against it;
    - [App.tsx]: the updater passed to [setProjectState] by each handler, as a
      function of the previous [ProjectState], together with the side effects
      the handler performs (image store operations, selection changes,
      alerts), the effects that load, repair and save the project, and the
      backup handlers;
    - [components/ArticleEditorModal.tsx]: the handlers that edit the draft
      of an article and the image store operations they issue, and the
      articles offered as related ones;
    - [components/Sidebar.tsx], [components/ArticleListPanel.tsx]: the tree
      built from the flat lists and the rows it is rendered to;
    - [components/PdfExportModal.tsx], [utils/pdf-generator.ts]: the
      selection of folders to export and the outline of the document written
      for it.

    Conventions.  A [number] holding a [sortOrder] is an integer ([Z]), and
    a sum on it is rounded as a binary64 sum is ([JS.add]); a
    [string | null] is an [option string]; a JS [Set<string>] is the list of
    its elements in insertion order; [crypto.randomUUID()] is an argument of
    the handler that calls it.  Every updater starts with
    [if (!prev) return null]; the embedding is the updater on a project that
    is loaded.  A [while] loop that need not end takes a bound [fuel] on its
    iterations and answers [None] when the bound is reached. *)

From Stdlib Require Import SpecFloat.
From stdpp Require Import base numbers strings list gmap sorting.

Local Open Scope Z_scope.

(** ** JavaScript values *)

Module JS.

(** Truthiness of a string: only the empty string is falsy. *)
Definition truthy (s : string) : bool := bool_decide (s ≠ "").

(** Truthiness of a [string | null] (or of a possibly missing string key). *)
Definition truthy_opt (o : option string) : bool :=
  match o with
  | Some s => truthy s
  | None => false
  end.

(** [n || 0] on a number: [0] is the only falsy integer. *)
Definition or_zero (n : Z) : Z := if bool_decide (n = 0) then 0 else n.

(** [n ?? 0] on a number that is present. *)
Definition nullish_zero (n : Z) : Z := n.

(** [Number.MAX_SAFE_INTEGER], [2^53 - 1]. *)
Definition MAX_SAFE_INTEGER : Z := 9007199254740991.

(** A [number] is an IEEE 754 binary64 value.  One that holds an integer is
    kept as that integer, and an operation on it gives the exact result
    rounded to the nearest value with 53 significant bits, ties to the even
    significand.  [round53] is that rounding: of [z] with more than 53 bits
    the low [e] bits are dropped, and the significand [q] kept is moved one
    up when the bits dropped are above the half, or at the half with [q]
    odd.  The finite numbers end below [2^1024]; the sum of a number and
    [1] rounds to a finite number. *)
Definition round53 (z : Z) : Z :=
  let a := Z.abs z in
  let e := Z.log2 a - 52 in
  if bool_decide (e ≤ 0) then z
  else
    let q := a `div` 2 ^ e in
    let r := a `mod` 2 ^ e in
    let half := 2 ^ (e - 1) in
    let up := bool_decide (half < r) || (bool_decide (r = half) && Z.odd q) in
    Z.sgn z * ((if up then q + 1 else q) * 2 ^ e).

(** [a + b] on numbers that hold integers. *)
Definition add (a b : Z) : Z := round53 (a + b).

(** The same sum through the binary64 addition of the standard library
    ([SFadd] at precision 53, [None] when the result is no integer). *)
Definition binary64_of_Z (z : Z) : spec_float := binary_normalize 53 1024 z 0 false.

Definition binary64_to_Z (x : spec_float) : option Z :=
  match x with
  | S754_zero _ => Some 0
  | S754_finite s m e =>
      if bool_decide (0 ≤ e) then Some (cond_Zopp s (Z.pos m * 2 ^ e))
      else if bool_decide (Z.pos m `mod` 2 ^ (- e) = 0)
           then Some (cond_Zopp s (Z.pos m `div` 2 ^ (- e)))
           else None
  | _ => None
  end.

Definition binary64_add (a b : Z) : option Z :=
  binary64_to_Z (SFadd 53 1024 (binary64_of_Z a) (binary64_of_Z b)).

End JS.

(** A [Set<string>], kept as the list of its elements in insertion order,
    which is the order [Array.from] and iteration observe. *)
Module JSSet.

Definition has (x : string) (s : list string) : bool := bool_decide (x ∈ s).

Definition add (x : string) (s : list string) : list string :=
  if has x s then s else s ++ [x].

Definition delete (x : string) (s : list string) : list string :=
  filter (λ y, y ≠ x) s.

(** [new Set(array)]: the elements are added one by one. *)
Definition of_array (l : list string) : list string :=
  foldl (λ s x, add x s) [] l.

(** [Array.from(set)]. *)
Definition to_array (s : list string) : list string := s.

End JSSet.

(** ** types.ts *)

Record Folder := mkFolder {
  folder_id : string;
  folder_name : string;
  folder_color : string;
  folder_parentId : option string;
  folder_sortOrder : Z;
}.

Record Field := mkField {
  field_id : string;
  field_title : string;
  field_content : string;
}.

(** [ImageField] is [{id, caption}].  Documents written by older versions
    carry the picture inline under a [dataUrl] key, which [App.tsx] reads
    through [any]; [image_dataUrl] is that key: [None] when the key is
    absent, [Some d] when it is present with value [d]. *)
Record ImageField := mkImageField {
  image_id : string;
  image_caption : string;
  image_dataUrl : option string;
}.

(** A row of the image object store. *)
Record ImageData := mkImageData {
  data_id : string;
  data_dataUrl : string;
}.

Inductive Section :=
| FieldsSection (id title : string) (fields : list Field)
| ImagesSection (id title : string) (images : list ImageField).

Record Article := mkArticle {
  article_id : string;
  article_title : string;
  article_folderId : string;
  article_sortOrder : Z;
  article_sections : list Section;
  article_relatedArticleIds : list string;
  article_parentId : option string;
}.

Record ProjectState := mkProjectState {
  folders : list Folder;
  articles : list Article;
  expandedFolderIds : list string;
  expandedArticleIds : list string;
}.

Global Instance Folder_eq_dec : EqDecision Folder.
Proof. solve_decision. Defined.
Global Instance Field_eq_dec : EqDecision Field.
Proof. solve_decision. Defined.
Global Instance ImageField_eq_dec : EqDecision ImageField.
Proof. solve_decision. Defined.
Global Instance ImageData_eq_dec : EqDecision ImageData.
Proof. solve_decision. Defined.
Global Instance Section_eq_dec : EqDecision Section.
Proof. solve_decision. Defined.
Global Instance Article_eq_dec : EqDecision Article.
Proof. solve_decision. Defined.
Global Instance ProjectState_eq_dec : EqDecision ProjectState.
Proof. solve_decision. Defined.

(** Object spread with one key replaced: [{...f, sortOrder: v}] and the like. *)
Definition folder_with_sortOrder (f : Folder) (v : Z) : Folder :=
  mkFolder (folder_id f) (folder_name f) (folder_color f) (folder_parentId f) v.

Definition folder_with_name_color (f : Folder) (newName newColor : string) : Folder :=
  mkFolder (folder_id f) newName newColor (folder_parentId f) (folder_sortOrder f).

Definition article_with_sortOrder (a : Article) (v : Z) : Article :=
  mkArticle (article_id a) (article_title a) (article_folderId a) v
            (article_sections a) (article_relatedArticleIds a) (article_parentId a).

Definition article_with_title (a : Article) (newTitle : string) : Article :=
  mkArticle (article_id a) newTitle (article_folderId a) (article_sortOrder a)
            (article_sections a) (article_relatedArticleIds a) (article_parentId a).

Definition article_with_sections (a : Article) (ss : list Section) : Article :=
  mkArticle (article_id a) (article_title a) (article_folderId a) (article_sortOrder a)
            ss (article_relatedArticleIds a) (article_parentId a).

Definition with_folders (p : ProjectState) (fs : list Folder) : ProjectState :=
  mkProjectState fs (articles p) (expandedFolderIds p) (expandedArticleIds p).

Definition with_articles (p : ProjectState) (arts : list Article) : ProjectState :=
  mkProjectState (folders p) arts (expandedFolderIds p) (expandedArticleIds p).

Definition with_expandedFolderIds (p : ProjectState) (ids : list string) : ProjectState :=
  mkProjectState (folders p) (articles p) ids (expandedArticleIds p).

Definition with_expandedArticleIds (p : ProjectState) (ids : list string) : ProjectState :=
  mkProjectState (folders p) (articles p) (expandedFolderIds p) ids.

(** ** utils/db.ts: the image object store *)

Module Db.

(** The operations [App.tsx] issues against the store, in issuing order. *)
Inductive Op :=
| PutImage (id dataUrl : string)
| DeleteImage (id : string)
| ClearImages
| PutAllImages (images : list ImageData).

(** [store.put] keyed by [id], [store.delete], [store.clear]; [putAllImages]
    returns at once on an empty array and otherwise puts every row. *)
Definition run_op (store : gmap string string) (op : Op) : gmap string string :=
  match op with
  | PutImage id dataUrl => <[id := dataUrl]> store
  | DeleteImage id => delete id store
  | ClearImages => ∅
  | PutAllImages images =>
      match images with
      | [] => store
      | _ => foldl (λ st image, <[data_id image := data_dataUrl image]> st) store images
      end
  end.

Definition run (ops : list Op) (store : gmap string string) : gmap string string :=
  foldl run_op store ops.

Definition getImage (id : string) (store : gmap string string) : option string :=
  store !! id.

End Db.

Global Instance Db_Op_eq_dec : EqDecision Db.Op.
Proof. solve_decision. Defined.

(** ** Array helpers *)

(** [array.find(p)] and [array.findIndex(p)]; [findIndex] answers [-1] when
    no element satisfies [p]. *)
Definition find {A} (P : A → Prop) `{∀ x, Decision (P x)} (l : list A) : option A :=
  snd <$> list_find P l.

Definition findIndex {A} (P : A → Prop) `{∀ x, Decision (P x)} (l : list A) : Z :=
  match list_find P l with
  | Some (i, _) => Z.of_nat i
  | None => -1
  end.

(** [array[i]] for a number [i]: [undefined] out of range. *)
Definition at_index {A} (l : list A) (i : Z) : option A :=
  if bool_decide (0 ≤ i) then l !! Z.to_nat i else None.

(** [array.sort((a, b) => key(a) - key(b))]: the order Array.prototype.sort
    yields for this comparator, that is ascending by key with equal keys
    kept in their original order (the sort is stable). *)
Section SortBy.
Context {A : Type} (key : A → Z).

Fixpoint insert_by (x : A) (l : list A) : list A :=
  match l with
  | [] => [x]
  | y :: l' => if bool_decide (key x ≤ key y) then x :: l else y :: insert_by x l'
  end.

Definition sort_by (l : list A) : list A := foldr insert_by [] l.
End SortBy.

Inductive Direction := Up | Down.

Global Instance Direction_eq_dec : EqDecision Direction.
Proof. solve_decision. Defined.

(** ** App.tsx *)

Section App.

(** [DEFAULT_FOLDER_COLOR] of [constants.ts]. *)
Context (DEFAULT_FOLDER_COLOR : string).

(** *** Data migration for image storage *)

(** The inner loop of [migrateProjectState] over the images of one legacy
    section: [newImages] and the [putImage] calls awaited on the way. *)
Definition migrateImages (images : list ImageField) : list ImageField * list Db.Op :=
  foldl (λ '(newImages, ops) image,
           if JS.truthy_opt (image_dataUrl image) then
             (newImages ++ [mkImageField (image_id image) (image_caption image) None],
              ops ++ [Db.PutImage (image_id image) (default "" (image_dataUrl image))])
           else (newImages ++ [image], ops))
        ([], []) images.

(** [section.type === 'images' && section.images.length > 0 &&
    'dataUrl' in section.images[0]]. *)
Definition isLegacyImagesSection (section : Section) : bool :=
  match section with
  | ImagesSection _ _ (first :: _) => bool_decide (is_Some (image_dataUrl first))
  | _ => false
  end.

(** The loop over the sections of one article; the boolean is what the
    loop contributes to [migrationNeeded]. *)
Definition migrateSections (sections : list Section)
  : list Section * bool * list Db.Op :=
  foldl (λ '(migratedSections, needed, ops) section,
           if isLegacyImagesSection section then
             match section with
             | ImagesSection id title images =>
                 let '(newImages, puts) := migrateImages images in
                 (migratedSections ++ [ImagesSection id title newImages], true, ops ++ puts)
             | FieldsSection _ _ _ => (migratedSections ++ [section], needed, ops)
             end
           else (migratedSections ++ [section], needed, ops))
        ([], false, []) sections.

Definition migrateProjectState (project : ProjectState) : ProjectState * list Db.Op :=
  let '(migratedArticles, migrationNeeded, ops) :=
    foldl (λ '(migratedArticles, migrationNeeded, ops) article,
             let '(migratedSections, needed, puts) := migrateSections (article_sections article) in
             (migratedArticles ++ [article_with_sections article migratedSections],
              migrationNeeded || needed, ops ++ puts))
          ([], false, []) (articles project) in
  if migrationNeeded then (with_articles project migratedArticles, ops)
  else (project, ops).

(** *** Folder handlers *)

(** The updater of [createFolder]; [newId] is [crypto.randomUUID()]. *)
Definition createFolder (newId : string) (parentId : option string)
    (prev : ProjectState) : ProjectState :=
  let siblings := filter (λ f, folder_parentId f = parentId) (folders prev) in
  let maxSortOrder := foldl (λ max f, Z.max max (folder_sortOrder f)) (-1) siblings in
  let newFolder :=
    mkFolder newId
             (if JS.truthy_opt parentId then "Nova Subpasta" else "Nova Pasta")
             DEFAULT_FOLDER_COLOR parentId (JS.add maxSortOrder 1) in
  with_folders prev (folders prev ++ [newFolder]).

(** The update [createFolder] schedules with [setTimeout] when the parent is
    not yet expanded. *)
Definition createFolder_expandParent (parentId : option string)
    (prev p : ProjectState) : ProjectState :=
  match parentId with
  | Some pid =>
      if JS.truthy pid && negb (bool_decide (pid ∈ expandedFolderIds prev))
      then with_expandedFolderIds p (expandedFolderIds p ++ [pid])
      else p
  | None => p
  end.

Definition handleUpdateFolder (id newName newColor : string)
    (prev : ProjectState) : ProjectState :=
  with_folders prev
    ((λ folder, if bool_decide (folder_id folder = id)
                then folder_with_name_color folder newName newColor
                else folder) <$> folders prev).

(** The [while (queue.length > 0)] loop of [handleDeleteFolder].  The loop
    has no visited check, so it need not end; [fuel] bounds the number of
    iterations and [None] means the bound was reached. *)
Fixpoint deleteFolder_loop (fuel : nat) (allFolders : list Folder)
    (queue idsToDelete : list string) : option (list string) :=
  match queue with
  | [] => Some idsToDelete
  | currentId :: queue =>
      match fuel with
      | O => None
      | S fuel =>
          let children := filter (λ f, folder_parentId f = Some currentId) allFolders in
          let '(idsToDelete, queue) :=
            foldl (λ '(ids, q) child,
                     (JSSet.add (folder_id child) ids, q ++ [folder_id child]))
                  (idsToDelete, queue) children in
          deleteFolder_loop fuel allFolders queue idsToDelete
      end
  end.

(** The [db.deleteImage] calls issued for a list of articles. *)
Definition deleteImagesOf (articlesToDelete : list Article) : list Db.Op :=
  article ← articlesToDelete;
  section ← article_sections article;
  match section with
  | ImagesSection _ _ images => (λ image, Db.DeleteImage (image_id image)) <$> images
  | FieldsSection _ _ _ => []
  end.

(** What [handleDeleteFolder] does: the next state, the image store
    operations it issues and the folder selection it leaves. *)
Record DeleteFolderResult := mkDeleteFolderResult {
  df_state : ProjectState;
  df_ops : list Db.Op;
  df_selectedFolderId : option string;
}.

Definition handleDeleteFolder (fuel : nat) (selectedFolderId : option string)
    (id : string) (prev : ProjectState) : option DeleteFolderResult :=
  match find (λ f, folder_id f = id) (folders prev) with
  | None => Some (mkDeleteFolderResult prev [] selectedFolderId)
  | Some folderToDelete =>
      idsToDelete ← deleteFolder_loop fuel (folders prev) [id] (JSSet.of_array [id]);
      let newFolders :=
        filter (λ f, ¬ JSSet.has (folder_id f) idsToDelete) (folders prev) in
      let articlesToDelete :=
        filter (λ a, JSSet.has (article_folderId a) idsToDelete) (articles prev) in
      let ops := deleteImagesOf articlesToDelete in
      let newArticles :=
        filter (λ a, ¬ JSSet.has (article_folderId a) idsToDelete) (articles prev) in
      let selection :=
        match selectedFolderId with
        | Some sel =>
            if JS.truthy sel && JSSet.has sel idsToDelete then
              match folder_parentId folderToDelete with
              | Some parent =>
                  if JS.truthy parent && negb (JSSet.has parent idsToDelete)
                  then Some parent
                  else match newFolders with
                       | first :: _ => Some (folder_id first)
                       | [] => None
                       end
              | None =>
                  match newFolders with
                  | first :: _ => Some (folder_id first)
                  | [] => None
                  end
              end
            else selectedFolderId
        | None => selectedFolderId
        end in
      Some (mkDeleteFolderResult
              (mkProjectState newFolders newArticles
                              (expandedFolderIds prev) (expandedArticleIds prev))
              ops selection)
  end.

(** [handleReorderFolder].  [None] is the TypeError that reading
    [targetSibling.sortOrder] raises when [targetSibling] is [undefined]. *)
Definition handleReorderFolder (folderId : string) (direction : Direction)
    (prev : ProjectState) : option ProjectState :=
  let currentFolders := folders prev in
  match find (λ f, folder_id f = folderId) currentFolders with
  | None => Some prev
  | Some folderToMove =>
      let siblings :=
        sort_by folder_sortOrder
          (filter (λ f, folder_parentId f = folder_parentId folderToMove) currentFolders) in
      let currentIndex := findIndex (λ f, folder_id f = folderId) siblings in
      let swap_with (targetSibling : option Folder) : option ProjectState :=
        targetSibling ← targetSibling;
        Some (with_folders prev
                ((λ f, if bool_decide (folder_id f = folder_id folderToMove)
                       then folder_with_sortOrder f (folder_sortOrder targetSibling)
                       else if bool_decide (folder_id f = folder_id targetSibling)
                       then folder_with_sortOrder f (folder_sortOrder folderToMove)
                       else f) <$> currentFolders)) in
      if bool_decide (direction = Up) && bool_decide (0 < currentIndex)
      then swap_with (at_index siblings (currentIndex - 1))
      else if bool_decide (direction = Down)
              && bool_decide (currentIndex < Z.of_nat (length siblings) - 1)
      then swap_with (at_index siblings (currentIndex + 1))
      else Some prev
  end.

(** The body the two expansion toggles share: the list goes through a
    [Set], loses or gains [id], and comes back with [Array.from]. *)
Definition toggle (id : string) (ids : list string) : list string :=
  let newExpanded := JSSet.of_array ids in
  JSSet.to_array
    (if JSSet.has id newExpanded then JSSet.delete id newExpanded
     else JSSet.add id newExpanded).

Definition handleToggleFolderExpansion (folderId : string)
    (prev : ProjectState) : ProjectState :=
  with_expandedFolderIds prev (toggle folderId (expandedFolderIds prev)).

(** *** Article handlers *)

(** [handleCreateArticle] returns at once when no folder is selected. *)
Definition handleCreateArticle (newId : string) (selectedFolderId : option string)
    (prev : ProjectState) : ProjectState :=
  match selectedFolderId with
  | Some sel =>
      if JS.truthy sel then
        let siblings :=
          filter (λ a, article_folderId a = sel ∧ article_parentId a = None)
                 (articles prev) in
        let maxSortOrder :=
          foldl (λ max a, Z.max max (JS.or_zero (article_sortOrder a))) (-1) siblings in
        let newArticle :=
          mkArticle newId "Novo Artigo" sel (JS.add maxSortOrder 1) [] [] None in
        with_articles prev (articles prev ++ [newArticle])
      else prev
  | None => prev
  end.

Definition handleCreateSubArticle (newId : string) (parentId : string)
    (prev : ProjectState) : ProjectState :=
  match find (λ a, article_id a = parentId) (articles prev) with
  | None => prev
  | Some parentArticle =>
      let siblings :=
        filter (λ a, article_parentId a = Some parentId) (articles prev) in
      let maxSortOrder :=
        foldl (λ max a, Z.max max (article_sortOrder a)) (-1) siblings in
      let newArticle :=
        mkArticle newId "Novo Subartigo" (article_folderId parentArticle)
                  (JS.add maxSortOrder 1) [] [] (Some parentId) in
      let newExpandedArticleIds :=
        if bool_decide (parentId ∈ expandedArticleIds prev)
        then expandedArticleIds prev
        else expandedArticleIds prev ++ [parentId] in
      mkProjectState (folders prev) (articles prev ++ [newArticle])
                     (expandedFolderIds prev) newExpandedArticleIds
  end.

Definition handleUpdateArticleTitle (articleId newTitle : string)
    (prev : ProjectState) : ProjectState :=
  with_articles prev
    ((λ a, if bool_decide (article_id a = articleId)
           then article_with_title a newTitle else a) <$> articles prev).

Definition handleReorderArticle (articleId : string) (direction : Direction)
    (prev : ProjectState) : ProjectState :=
  let currentArticles := articles prev in
  match find (λ a, article_id a = articleId) currentArticles with
  | None => prev
  | Some articleToMove =>
      let siblings :=
        sort_by (λ a, JS.nullish_zero (article_sortOrder a))
          (filter (λ a, article_parentId a = article_parentId articleToMove
                        ∧ article_folderId a = article_folderId articleToMove)
                  currentArticles) in
      let currentIndex := findIndex (λ a, article_id a = articleId) siblings in
      if bool_decide (currentIndex = -1) then prev
      else
        let targetSibling :=
          if bool_decide (direction = Up) && bool_decide (0 < currentIndex)
          then at_index siblings (currentIndex - 1)
          else if bool_decide (direction = Down)
                  && bool_decide (currentIndex < Z.of_nat (length siblings) - 1)
          then at_index siblings (currentIndex + 1)
          else None in
        match targetSibling with
        | None => prev
        | Some targetSibling =>
            with_articles prev
              ((λ a, if bool_decide (article_id a = article_id articleToMove)
                     then article_with_sortOrder a (article_sortOrder targetSibling)
                     else if bool_decide (article_id a = article_id targetSibling)
                     then article_with_sortOrder a (article_sortOrder articleToMove)
                     else a) <$> currentArticles)
        end
  end.

Definition handleToggleArticleExpansion (articleId : string)
    (prev : ProjectState) : ProjectState :=
  with_expandedArticleIds prev (toggle articleId (expandedArticleIds prev)).

Definition handleSaveArticle (updatedArticle : Article)
    (prev : ProjectState) : ProjectState :=
  with_articles prev
    ((λ a, if bool_decide (article_id a = article_id updatedArticle)
           then updatedArticle else a) <$> articles prev).

(** The [while] loop of [handleDeleteArticle]; [fuel] as in
    [deleteFolder_loop]. *)
Fixpoint deleteArticle_loop (fuel : nat) (allArticles : list Article)
    (queue idsToDelete : list string) (articlesToDelete : list Article)
  : option (list string * list Article) :=
  match queue with
  | [] => Some (idsToDelete, articlesToDelete)
  | currentId :: queue =>
      match fuel with
      | O => None
      | S fuel =>
          let children := filter (λ a, article_parentId a = Some currentId) allArticles in
          let '(idsToDelete, articlesToDelete, queue) :=
            foldl (λ '(ids, dels, q) child,
                     (JSSet.add (article_id child) ids, dels ++ [child],
                      q ++ [article_id child]))
                  (idsToDelete, articlesToDelete, queue) children in
          deleteArticle_loop fuel allArticles queue idsToDelete articlesToDelete
      end
  end.

Record DeleteArticleResult := mkDeleteArticleResult {
  da_state : ProjectState;
  da_ops : list Db.Op;
  da_selectedArticleId : option string;
}.

Definition handleDeleteArticle (fuel : nat) (selectedArticleId : option string)
    (articleId : string) (prev : ProjectState) : option DeleteArticleResult :=
  let initialArticle := find (λ a, article_id a = articleId) (articles prev) in
  let articlesToDelete :=
    match initialArticle with
    | Some a => [a]
    | None => []
    end in
  '(idsToDelete, articlesToDelete) ←
    deleteArticle_loop fuel (articles prev) [articleId] (JSSet.of_array [articleId])
                       articlesToDelete;
  let ops := deleteImagesOf articlesToDelete in
  let newArticles :=
    filter (λ a, ¬ JSSet.has (article_id a) idsToDelete) (articles prev) in
  let selection :=
    match selectedArticleId with
    | Some sel => if JS.truthy sel && JSSet.has sel idsToDelete then None
                  else selectedArticleId
    | None => selectedArticleId
    end in
  Some (mkDeleteArticleResult (with_articles prev newArticles) ops selection).

End App.

(** *** Loading a backup *)

(** A section as parsed from a document: older documents have sections
    without a [type] key. *)
Inductive LoadedSection :=
| Typed (section : Section)
| Untyped (id title : string) (fields : list Field).

(** An article as parsed: [sections] may be missing, and [parentId] may be
    missing ([None]), [null] ([Some None]) or an id. *)
Record LoadedArticle := mkLoadedArticle {
  loaded_id : string;
  loaded_title : string;
  loaded_folderId : string;
  loaded_sortOrder : Z;
  loaded_sections : option (list LoadedSection);
  loaded_relatedArticleIds : list string;
  loaded_parentId : option (option string);
}.

(** The project keys of a parsed document; [None] is a key that is missing
    (or holds a falsy value). *)
Record LoadedProject := mkLoadedProject {
  loaded_folders : option (list Folder);
  loaded_articles : option (list LoadedArticle);
  loaded_expandedFolderIds : option (list string);
  loaded_expandedArticleIds : option (list string);
}.

(** A parsed backup file: the keys [projectState] and [images] of the
    current format, and the project keys the document has itself (the old
    format). *)
Record LoadedData := mkLoadedData {
  loaded_projectState : option LoadedProject;
  loaded_images : option (list ImageData);
  loaded_bare : LoadedProject;
}.

(** What [handleLoadBackup] reads and writes besides the image store. *)
Record AppState := mkAppState {
  projectState : option ProjectState;
  selectedFolderId : option string;
  selectedArticleId : option string;
  imageStore : gmap string string;
  alerts : list string;
}.

(** [section.type ? section : { ...section, type: 'fields' }]. *)
Definition repairSection (section : LoadedSection) : Section :=
  match section with
  | Typed s => s
  | Untyped id title fields => FieldsSection id title fields
  end.

Definition repairArticle (a : LoadedArticle) : Article :=
  mkArticle (loaded_id a) (loaded_title a) (loaded_folderId a) (loaded_sortOrder a)
            (repairSection <$> default [] (loaded_sections a))
            (loaded_relatedArticleIds a)
            (match loaded_parentId a with
             | None => None
             | Some parentId => parentId
             end).

(** The [onload] callback of [handleLoadBackup].  [file] is [None] when
    [JSON.parse] throws.  Requests to the image store are taken to succeed. *)
Definition handleLoadBackup (file : option LoadedData) (app : AppState) : AppState :=
  match file with
  | None =>
      mkAppState (projectState app) (selectedFolderId app) (selectedArticleId app)
                 (imageStore app)
                 (alerts app ++ ["Falha ao carregar o backup. O arquivo pode estar corrompido."])
  | Some loadedData =>
      let '(loadedProject, store) :=
        match loaded_projectState loadedData, loaded_images loadedData with
        | Some project, Some images =>
            (project, Db.run [Db.ClearImages; Db.PutAllImages images] (imageStore app))
        | _, _ => (loaded_bare loadedData, imageStore app)
        end in
      match loaded_folders loadedProject, loaded_articles loadedProject with
      | Some loadedFolders, Some loadedArticles =>
          let project :=
            mkProjectState loadedFolders (repairArticle <$> loadedArticles)
                           (default [] (loaded_expandedFolderIds loadedProject))
                           (default [] (loaded_expandedArticleIds loadedProject)) in
          let '(projectAfterMigration, puts) := migrateProjectState project in
          mkAppState (Some projectAfterMigration) None None (Db.run puts store) (alerts app)
      | _, _ =>
          mkAppState (projectState app) (selectedFolderId app) (selectedArticleId app)
                     store (alerts app ++ ["Arquivo de backup inválido."])
      end
  end.

(** * Specification vocabulary *)

(** ** Expansion toggles *)

(** What a toggle of [id] makes of the list [old] of expanded ids. *)
Definition toggled (id : string) (old new : list string) : Prop :=
  NoDup new
  ∧ (id ∈ new ↔ id ∉ old)
  ∧ (∀ x, x ≠ id → x ∈ new ↔ x ∈ old)
  ∧ (id ∉ old → ∃ l, new = l ++ [id] ∧ id ∉ l)
  ∧ (id ∈ old → id ∉ new).

(** ** Sort order of a new sibling *)

(** [m] is the greatest of [keys]. *)
Definition is_max (keys : list Z) (m : Z) : Prop :=
  m ∈ keys ∧ ∀ k, k ∈ keys → k ≤ m.

(** The rule "max over the existing siblings plus one, or zero if there is
    no sibling", read literally. *)
Definition max_plus_one_or_zero (keys : list Z) (n : Z) : Prop :=
  (keys = [] ∧ n = 0) ∨ (∃ m, is_max keys m ∧ n = m + 1).

(** The rule the handlers implement on safe integers: the fold over the
    siblings starts from [-1], so sort orders below [-1] do not count. *)
Definition new_sortOrder_ok (keys : list Z) (n : Z) : Prop :=
  (∀ k, k ∈ keys → k < n)
  ∧ (keys = [] → n = 0)
  ∧ (∀ m, is_max keys m → -1 ≤ m → n = m + 1)
  ∧ (∀ m, is_max keys m → m < -1 → n = 0).

(** Sort orders that are safe integers: adding one to them is exact. *)
Definition safe_sortOrders (keys : list Z) : Prop :=
  ∀ k, k ∈ keys → k ≤ JS.MAX_SAFE_INTEGER.

(** The rule with the sum as the code computes it, on numbers: the new sort
    order is the sum of one and the maximum the fold from [-1] finds; with
    safe siblings that is the rule above; with the greatest sibling at
    [2^53] the sum is [2^53] again. *)
Definition new_sortOrder_rule (keys : list Z) (n : Z) : Prop :=
  n = JS.add (foldl Z.max (-1) keys) 1
  ∧ (safe_sortOrders keys → new_sortOrder_ok keys n)
  ∧ (is_max keys (JS.MAX_SAFE_INTEGER + 1) → n = JS.MAX_SAFE_INTEGER + 1).

(** ** Inline-image migration *)

(** The loops of [migrateProjectState] as maps: what each image, section and
    article becomes, and the writes each section causes. *)
Definition migratedImage (image : ImageField) : ImageField :=
  if JS.truthy_opt (image_dataUrl image)
  then mkImageField (image_id image) (image_caption image) None
  else image.

Definition payloadWrites (images : list ImageField) : list Db.Op :=
  omap (λ image, match image_dataUrl image with
                 | Some d => if JS.truthy d then Some (Db.PutImage (image_id image) d) else None
                 | None => None
                 end) images.

Definition migratedSection (section : Section) : Section :=
  match section with
  | ImagesSection id title images =>
      if isLegacyImagesSection section
      then ImagesSection id title (migratedImage <$> images)
      else section
  | FieldsSection _ _ _ => section
  end.

Definition sectionWrites (section : Section) : list Db.Op :=
  match section with
  | ImagesSection _ _ images =>
      if isLegacyImagesSection section then payloadWrites images else []
  | FieldsSection _ _ _ => []
  end.

Definition migratedArticle (article : Article) : Article :=
  article_with_sections article (migratedSection <$> article_sections article).

Definition articleWrites (article : Article) : list Db.Op :=
  article_sections article ≫= sectionWrites.

(** The legacy marker: the first image of an images section has the
    [dataUrl] key. *)
Definition first_image_has_payload_key (section : Section) : Prop :=
  ∃ id title first rest,
    section = ImagesSection id title (first :: rest) ∧ is_Some (image_dataUrl first).

(** The project with section [j] of article [i] left out. *)
Definition without_section (i j : nat) (project : ProjectState) : ProjectState :=
  with_articles project
    (alter (λ a, article_with_sections a (delete j (article_sections a))) i
           (articles project)).

(** ** Operations on an id that is not in the collection *)

(** No folder of [p] has the id [id]. *)
Definition folder_absent (id : string) (p : ProjectState) : Prop :=
  ∀ f, f ∈ folders p → folder_id f ≠ id.

(** No article of [p] has the id [id]. *)
Definition article_absent (id : string) (p : ProjectState) : Prop :=
  ∀ a, a ∈ articles p → article_id a ≠ id.

(** ** Loading a backup that fails validation *)

(** The project document [handleLoadBackup] reads from a parsed file. *)
Definition loadedProject_of (loadedData : LoadedData) : LoadedProject :=
  match loaded_projectState loadedData, loaded_images loadedData with
  | Some project, Some _ => project
  | _, _ => loaded_bare loadedData
  end.

(** The validation gate rejects the document: [folders] or [articles] is
    missing. *)
Definition fails_validation (loadedData : LoadedData) : Prop :=
  loaded_folders (loadedProject_of loadedData) = None
  ∨ loaded_articles (loadedProject_of loadedData) = None.

(** ** Deleting a folder *)

(** [x] is [root] or one of its descendants along [parentId]. *)
Inductive in_subtree (fs : list Folder) (root : string) : string → Prop :=
| in_subtree_root : in_subtree fs root root
| in_subtree_child f p :
    f ∈ fs → folder_parentId f = Some p → in_subtree fs root p →
    in_subtree fs root (folder_id f).

(** The parent graph has no cycle: [height] strictly decreases from a
    parent id to the id of each of its children. *)
Definition parents_above (height : string → nat) (fs : list Folder) : Prop :=
  ∀ f p, f ∈ fs → folder_parentId f = Some p → (height (folder_id f) < height p)%nat.

(** The ids the loop enqueues when it takes [x] from the queue. *)
Definition child_ids (fs : list Folder) (x : string) : list string :=
  folder_id <$> filter (λ f, folder_parentId f = Some x) fs.

(** The number of iterations the loop of [handleDeleteFolder] spends on [x]
    and its descendants, computed down to depth [n]. *)
Fixpoint iterations (fs : list Folder) (n : nat) (x : string) : nat :=
  match n with
  | O => 1
  | S n => S (sum_list_with (iterations fs n) (child_ids fs x))
  end.

Definition iterations_of (fs : list Folder) (height : string → nat)
    (q : list string) : nat :=
  sum_list_with (λ x, iterations fs (height x) x) q.

(** What holds of the queue and of [idsToDelete] at each iteration of the
    loop started on [root]. *)
Definition loop_invariant (fs : list Folder) (root : string)
    (q ids : list string) : Prop :=
  (∀ x, x ∈ q → x ∈ ids)
  ∧ (∀ x, x ∈ ids → in_subtree fs root x)
  ∧ (∀ x, x ∈ ids → x ∈ q ∨ ∀ c, c ∈ child_ids fs x → c ∈ ids).

(** What a cascading delete of folder [id] leaves of [prev]: [removed] holds
    the ids of the subtree of [id]; the folders with such an id and the
    articles filed under one are gone and the others stay, in order; a delete
    is issued for every image of every removed article (and for nothing
    else); no remaining article is filed under a removed folder. *)
Definition cascade_of (prev : ProjectState) (id : string)
    (removed : list string) (result : DeleteFolderResult) : Prop :=
  (∀ x, x ∈ removed ↔ in_subtree (folders prev) id x)
  ∧ folders (df_state result) = filter (λ f, folder_id f ∉ removed) (folders prev)
  ∧ articles (df_state result)
    = filter (λ a, article_folderId a ∉ removed) (articles prev)
  ∧ expandedFolderIds (df_state result) = expandedFolderIds prev
  ∧ expandedArticleIds (df_state result) = expandedArticleIds prev
  ∧ (∀ op, op ∈ df_ops result ↔
       ∃ a sid title images image,
         a ∈ articles prev ∧ article_folderId a ∈ removed
         ∧ ImagesSection sid title images ∈ article_sections a
         ∧ image ∈ images ∧ op = Db.DeleteImage (image_id image))
  ∧ (∀ a, a ∈ articles (df_state result) →
       ¬ in_subtree (folders prev) id (article_folderId a)).

(** ** Reordering among siblings *)

(** Ascending by key. *)
Definition key_le {A} (key : A → Z) (a b : A) : Prop := key a ≤ key b.

(** What [handleReorderFolder] and [handleReorderArticle] use of a node: its
    id, its [sortOrder], the group its siblings share ([parentId] for a
    folder, [parentId] and [folderId] for an article) and the spread
    [{...n, sortOrder: v}]. *)
Class TreeNode (N G : Type) `{EqDecision G} := {
  node_id : N → string;
  node_sortOrder : N → Z;
  node_group : N → G;
  node_with_sortOrder : N → Z → N;
  node_id_with n v : node_id (node_with_sortOrder n v) = node_id n;
  node_group_with n v : node_group (node_with_sortOrder n v) = node_group n;
  node_sortOrder_with n v : node_sortOrder (node_with_sortOrder n v) = v;
  node_with_same n : node_with_sortOrder n (node_sortOrder n) = n;
  node_with_with n v w :
    node_with_sortOrder (node_with_sortOrder n v) w = node_with_sortOrder n w;
}.

Global Instance Folder_TreeNode : TreeNode Folder (option string) := {|
  node_id := folder_id;
  node_sortOrder := folder_sortOrder;
  node_group := folder_parentId;
  node_with_sortOrder := folder_with_sortOrder;
  node_id_with := λ _ _, eq_refl;
  node_group_with := λ _ _, eq_refl;
  node_sortOrder_with := λ _ _, eq_refl;
  node_with_same := λ f, match f with mkFolder _ _ _ _ _ => eq_refl end;
  node_with_with := λ _ _ _, eq_refl;
|}.

Global Instance Article_TreeNode : TreeNode Article (option string * string) := {|
  node_id := article_id;
  node_sortOrder := article_sortOrder;
  node_group := λ a, (article_parentId a, article_folderId a);
  node_with_sortOrder := article_with_sortOrder;
  node_id_with := λ _ _, eq_refl;
  node_group_with := λ _ _, eq_refl;
  node_sortOrder_with := λ _ _, eq_refl;
  node_with_same := λ a, match a with mkArticle _ _ _ _ _ _ _ => eq_refl end;
  node_with_with := λ _ _ _, eq_refl;
|}.

Section Reorder.
Context {N G : Type} `{TreeNode N G}.

Definition swap_sortOrder (x t : N) (nodes : list N) : list N :=
  (λ n, if bool_decide (node_id n = node_id x)
        then node_with_sortOrder n (node_sortOrder t)
        else if bool_decide (node_id n = node_id t)
        then node_with_sortOrder n (node_sortOrder x)
        else n) <$> nodes.

Definition sorted_siblings (x : N) (nodes : list N) : list N :=
  sort_by node_sortOrder (filter (λ n, node_group n = node_group x) nodes).

Definition adjacent_sibling (direction : Direction) (i : nat) (siblings : list N)
  : option N :=
  match direction with
  | Up => match i with O => None | S j => siblings !! j end
  | Down => siblings !! S i
  end.

(** The node to move and the sibling it trades places with, if any. *)
Definition reorder_target (id : string) (direction : Direction) (nodes : list N)
  : option (N * N) :=
  x ← find (λ n, node_id n = id) nodes;
  '(i, _) ← list_find (λ n, node_id n = id) (sorted_siblings x nodes);
  t ← adjacent_sibling direction i (sorted_siblings x nodes);
  Some (x, t).

Definition reorder (id : string) (direction : Direction) (nodes : list N) : list N :=
  match reorder_target id direction nodes with
  | Some (x, t) => swap_sortOrder x t nodes
  | None => nodes
  end.
End Reorder.

(** The target sibling as the handlers compute it, from the index
    [findIndex] returns. *)
Definition targetSibling_at {N} (direction : Direction) (siblings : list N)
    (currentIndex : Z) : option N :=
  if bool_decide (direction = Up) && bool_decide (0 < currentIndex)
  then at_index siblings (currentIndex - 1)
  else if bool_decide (direction = Down)
          && bool_decide (currentIndex < Z.of_nat (length siblings) - 1)
  then at_index siblings (currentIndex + 1)
  else None.

Section Siblings.
Context {N G : Type} `{TreeNode N G} (nodes : list N).

(** [x] comes first (last) among its siblings. *)
Definition first_sibling (x : N) : Prop :=
∀ s, s ∈ nodes → node_group s = node_group x → node_sortOrder x ≤ node_sortOrder s.

Definition last_sibling (x : N) : Prop :=
∀ s, s ∈ nodes → node_group s = node_group x → node_sortOrder s ≤ node_sortOrder x.

(** No two siblings share a [sortOrder]. *)
Definition sibling_sortOrders_unique : Prop :=
∀ a b, a ∈ nodes → b ∈ nodes → node_group a = node_group b →
       node_sortOrder a = node_sortOrder b → a = b.
End Siblings.

(** The data model's invariants the reorder properties rest on. *)
Definition folder_sortOrders_unique (fs : list Folder) : Prop :=
  ∀ a b, a ∈ fs → b ∈ fs → folder_parentId a = folder_parentId b →
         folder_sortOrder a = folder_sortOrder b → a = b.

Definition article_sortOrders_unique (arts : list Article) : Prop :=
  ∀ a b, a ∈ arts → b ∈ arts →
         article_parentId a = article_parentId b →
         article_folderId a = article_folderId b →
         article_sortOrder a = article_sortOrder b → a = b.

(** [x] is the first (last) of its siblings: no sibling has a smaller
    (greater) [sortOrder]. *)
Definition first_folder (x : Folder) (fs : list Folder) : Prop :=
  ∀ s, s ∈ fs → folder_parentId s = folder_parentId x →
       folder_sortOrder x ≤ folder_sortOrder s.

Definition last_folder (x : Folder) (fs : list Folder) : Prop :=
  ∀ s, s ∈ fs → folder_parentId s = folder_parentId x →
       folder_sortOrder s ≤ folder_sortOrder x.

Definition first_article (x : Article) (arts : list Article) : Prop :=
  ∀ s, s ∈ arts → article_parentId s = article_parentId x →
       article_folderId s = article_folderId x →
       article_sortOrder x ≤ article_sortOrder s.

Definition last_article (x : Article) (arts : list Article) : Prop :=
  ∀ s, s ∈ arts → article_parentId s = article_parentId x →
       article_folderId s = article_folderId x →
       article_sortOrder s ≤ article_sortOrder x.

(** ** Example states *)

(** A project saved by an older version: the first gallery is in the legacy
    format (its third image has an empty payload), the second has a payload
    on its second image only. *)
Definition legacy_gallery : list ImageField :=
  [mkImageField "i1" "um" (Some "data:1");
   mkImageField "i2" "dois" None;
   mkImageField "i3" "tres" (Some "")].

Definition mixed_gallery : list ImageField :=
  [mkImageField "i4" "quatro" None;
   mkImageField "i5" "cinco" (Some "data:5")].

Definition legacy_article : Article :=
  mkArticle "a1" "Artigo" "f1" 0
    [ImagesSection "s1" "Galeria" legacy_gallery;
     ImagesSection "s2" "Mista" mixed_gallery]
    [] None.

Definition legacy_project : ProjectState :=
  mkProjectState [mkFolder "f1" "Notas" "#aaaaaa" None 0] [legacy_article] [] [].

(** A project with an article whose [parentId] is the id of no article. *)
Definition orphan_project : ProjectState :=
  mkProjectState
    [mkFolder "f1" "Notas" "#aaaaaa" None 0]
    [mkArticle "b" "Filho" "f1" 0
       [ImagesSection "s" "Galeria" [mkImageField "img" "capa" None]]
       [] (Some "ghost")]
    [] [].

(** An application holding a project and one stored image, and a backup file
    in the current format whose project document has no [articles]. *)
Definition app_with_image : AppState :=
  mkAppState (Some (mkProjectState [mkFolder "f1" "Notas" "#aaaaaa" None 0] [] [] []))
             (Some "f1") None {["i9" := "data:9"]} [].

Definition archive_without_articles : LoadedData :=
  mkLoadedData
    (Some (mkLoadedProject (Some []) None None None))
    (Some [])
    (mkLoadedProject None None None None).

Definition project_below_minus_one : ProjectState :=
  mkProjectState [mkFolder "a" "Antiga" "#aaaaaa" None (-5)] [] [] [].

(** A project with the folder tree r > c > g beside the root folder o, and
    articles (with pictures) filed under c, o and g. *)
Definition tree_project : ProjectState :=
  mkProjectState
    [mkFolder "r" "Raiz" "#aaaaaa" None 0;
     mkFolder "c" "Capitulos" "#aaaaaa" (Some "r") 0;
     mkFolder "g" "Rascunhos" "#aaaaaa" (Some "c") 0;
     mkFolder "o" "Outros" "#aaaaaa" None 1]
    [mkArticle "a1" "Um" "c" 0
       [ImagesSection "s1" "Galeria" [mkImageField "p1" "capa" None]] [] None;
     mkArticle "a2" "Dois" "o" 0
       [ImagesSection "s2" "Galeria" [mkImageField "p2" "mapa" None]] [] None;
     mkArticle "a3" "Tres" "g" 0
       [FieldsSection "s3" "Notas" [mkField "n1" "Nota" "texto"];
        ImagesSection "s4" "Galeria" [mkImageField "p3" "retrato" None]] [] None]
    ["r"; "c"] [].

Definition tree_height (x : string) : nat :=
  if bool_decide (x = "r") then 2%nat
  else if bool_decide (x = "c") then 1%nat
  else 0%nat.


(** Two folders that are each other's parent. *)
Definition cyclic_project : ProjectState :=
  mkProjectState
    [mkFolder "a" "Primeira" "#aaaaaa" (Some "b") 0;
     mkFolder "b" "Segunda" "#aaaaaa" (Some "a") 0]
    [] [] [].

(** Three root folders x, y, z in this order, a subfolder of x, two articles
    of folder x and a sub-article. *)
Definition folder_x : Folder := mkFolder "x" "Personagens" "#aaaaaa" None 0.
Definition folder_y : Folder := mkFolder "y" "Lugares" "#aaaaaa" None 1.
Definition folder_z : Folder := mkFolder "z" "Enredo" "#aaaaaa" None 2.
Definition folder_w : Folder := mkFolder "w" "Herois" "#aaaaaa" (Some "x") 0.
Definition article_a : Article := mkArticle "a" "Ana" "x" 0 [] [] None.
Definition article_b : Article := mkArticle "b" "Bento" "x" 1 [] [] None.
Definition article_c : Article := mkArticle "c" "Infancia" "x" 0 [] [] (Some "a").

Definition reorder_project : ProjectState :=
  mkProjectState [folder_x; folder_y; folder_z; folder_w]
                 [article_a; article_b; article_c] [] [].

(** ** Deleting an article *)

(** [x] is [root] or one of its descendants along the [parentId] of the
    articles. *)
Inductive article_in_subtree (arts : list Article) (root : string) : string → Prop :=
| article_in_subtree_root : article_in_subtree arts root root
| article_in_subtree_child a p :
    a ∈ arts → article_parentId a = Some p → article_in_subtree arts root p →
    article_in_subtree arts root (article_id a).

(** The parent graph of the articles has no cycle. *)
Definition article_parents_above (height : string → nat) (arts : list Article) : Prop :=
  ∀ a p, a ∈ arts → article_parentId a = Some p → (height (article_id a) < height p)%nat.

(** The parent link of an article, as a folder record: what the loop of
    [handleDeleteArticle] reads of an article is what the loop of
    [handleDeleteFolder] reads of a folder. *)
Definition parent_link (a : Article) : Folder :=
  mkFolder (article_id a) "" "" (article_parentId a) 0.

(** What a cascading delete of article [id] leaves of [prev]: [removed] holds
    the ids of the subtree of [id]; the articles with such an id are gone and
    the others stay, in order; folders and expansion lists are kept; a delete
    is issued for every image of the article found under [id] and of every
    article whose parent is removed (and for nothing else); the selected
    article is cleared exactly when it was removed. *)
Definition article_cascade_of (prev : ProjectState) (selected : option string)
    (id : string) (removed : list string) (result : DeleteArticleResult) : Prop :=
  (∀ x, x ∈ removed ↔ article_in_subtree (articles prev) id x)
  ∧ da_state result
    = with_articles prev (filter (λ a, article_id a ∉ removed) (articles prev))
  ∧ (∀ op, op ∈ da_ops result ↔
       ∃ a sid title images image,
         (find (λ a, article_id a = id) (articles prev) = Some a
          ∨ (a ∈ articles prev ∧ ∃ p, article_parentId a = Some p ∧ p ∈ removed))
         ∧ ImagesSection sid title images ∈ article_sections a
         ∧ image ∈ images ∧ op = Db.DeleteImage (image_id image))
  ∧ da_selectedArticleId result
    = match selected with
      | Some sel => if bool_decide (sel ≠ "" ∧ sel ∈ removed) then None else selected
      | None => None
      end.

(** Articles a > b > c in folder x, each with a picture, beside article d. *)
Definition article_tree_project : ProjectState :=
  mkProjectState
    [mkFolder "x" "Personagens" "#aaaaaa" None 0]
    [mkArticle "a" "Ana" "x" 0
       [ImagesSection "s1" "Galeria" [mkImageField "p1" "capa" None]] [] None;
     mkArticle "b" "Infancia" "x" 0
       [ImagesSection "s2" "Galeria" [mkImageField "p2" "casa" None]] ["d"] (Some "a");
     mkArticle "c" "Escola" "x" 0
       [ImagesSection "s3" "Galeria" [mkImageField "p3" "sala" None]] [] (Some "b");
     mkArticle "d" "Bento" "x" 1
       [ImagesSection "s4" "Galeria" [mkImageField "p4" "mapa" None]] ["b"; "zz"] None]
    [] ["a"].

Definition article_tree_height (x : string) : nat :=
  if bool_decide (x = "a") then 2%nat
  else if bool_decide (x = "b") then 1%nat
  else 0%nat.

(** ** Saving a backup and reading it back *)

(** [db.getAllImages()]: every row of the store.  IndexedDB answers the rows
    by ascending key; the model lists them in the order of the map, which
    only the order of the [images] array in the file depends on. *)
Definition getAllImages (store : gmap string string) : list ImageData :=
  (λ row, mkImageData row.1 row.2) <$> map_to_list store.

(** [backupData] of [handleSaveBackup]. *)
Record BackupData := mkBackupData {
  backup_projectState : ProjectState;
  backup_images : list ImageData;
}.

(** [handleSaveBackup] up to the download of the document: nothing is
    written when no project is open. *)
Definition handleSaveBackup (app : AppState) : option BackupData :=
  match projectState app with
  | None => None
  | Some project => Some (mkBackupData project (getAllImages (imageStore app)))
  end.

(** What [JSON.parse] reads back from [JSON.stringify(backupData)]: every key
    is present, [null] stays [null], and every section carries its [type]. *)
Definition stored_article (a : Article) : LoadedArticle :=
  mkLoadedArticle (article_id a) (article_title a) (article_folderId a)
                  (article_sortOrder a) (Some (Typed <$> article_sections a))
                  (article_relatedArticleIds a) (Some (article_parentId a)).

Definition stored_project (p : ProjectState) : LoadedProject :=
  mkLoadedProject (Some (folders p)) (Some (stored_article <$> articles p))
                  (Some (expandedFolderIds p)) (Some (expandedArticleIds p)).

Definition stored_backup (backup : BackupData) : LoadedData :=
  mkLoadedData (Some (stored_project (backup_projectState backup)))
               (Some (backup_images backup))
               (mkLoadedProject None None None None).

(** No image of the project carries an inline payload. *)
Definition no_inline_payload (project : ProjectState) : Prop :=
  ∀ a id title images image,
    a ∈ articles project → ImagesSection id title images ∈ article_sections a →
    image ∈ images → JS.truthy_opt (image_dataUrl image) = false.

(** The project [handleLoadBackup] hands to [migrateProjectState] when the
    document [loadedProject] passes the validation gate. *)
Definition repairedProject (loadedProject : LoadedProject) : option ProjectState :=
  match loaded_folders loadedProject, loaded_articles loadedProject with
  | Some loadedFolders, Some loadedArticles =>
      Some (mkProjectState loadedFolders (repairArticle <$> loadedArticles)
                           (default [] (loaded_expandedFolderIds loadedProject))
                           (default [] (loaded_expandedArticleIds loadedProject)))
  | _, _ => None
  end.

(** ** Selecting a folder when none is selected *)

(** The effect of [App.tsx] on [projectState?.folders] and
    [selectedFolderId].  [Array.prototype.sort] sorts the [folders] array of
    the state in place; [folders[0]] is read after the sort, and is defined
    since the array is not empty.  With no project open both tests are
    false. *)
Definition autoSelectFolder (app : AppState) : AppState :=
  match projectState app with
  | None => app
  | Some project =>
      let '(project, selected) :=
        if bool_decide (0 < length (folders project))%nat
           && negb (JS.truthy_opt (selectedFolderId app))
        then
          let sorted := sort_by folder_sortOrder (folders project) in
          let firstFolder := find (λ f, ¬ JS.truthy_opt (folder_parentId f)) sorted in
          (with_folders project sorted,
           match firstFolder with
           | Some f => Some (folder_id f)
           | None => folder_id <$> sorted !! 0%nat
           end)
        else (project, selectedFolderId app) in
      let selected :=
        if bool_decide (length (folders project) = 0%nat) then None else selected in
      mkAppState (Some project) selected (selectedArticleId app) (imageStore app)
                 (alerts app)
  end.

(** A folder at the root of the tree, as the effect tests it
    ([!f.parentId]). *)
Definition is_root (f : Folder) : Prop := ¬ JS.truthy_opt (folder_parentId f).

(** A project open beside two stored images, with no folder selected. *)
Definition app_with_gallery : AppState :=
  mkAppState
    (Some (mkProjectState
             [mkFolder "f2" "Lugares" "#aaaaaa" None 1;
              mkFolder "f1" "Notas" "#aaaaaa" None 0;
              mkFolder "f0" "Rascunhos" "#aaaaaa" (Some "f1") (-1)]
             [mkArticle "a" "Ana" "f1" 0
                [ImagesSection "s1" "Galeria"
                   [mkImageField "i1" "capa" None; mkImageField "i2" "mapa" None];
                 FieldsSection "s2" "Notas" [mkField "k" "Idade" "12"]]
                [] None]
             ["f1"] []))
    None (Some "a") {["i1" := "data:1"; "i2" := "data:2"]} [].

Definition app_elsewhere : AppState :=
  mkAppState (Some (mkProjectState [] [] [] [])) (Some "zz") (Some "yy")
             {["i9" := "data:9"]} ["aviso"].

(** A file in the current format that still holds an inline payload, in a
    section written without its [type]. *)
Definition legacy_archive : LoadedData :=
  mkLoadedData
    (Some (mkLoadedProject
             (Some [mkFolder "f1" "Notas" "#aaaaaa" None 0])
             (Some [mkLoadedArticle "a" "Ana" "f1" 0
                      (Some [Untyped "s0" "Notas" [mkField "k" "Idade" "12"];
                             Typed (ImagesSection "s1" "Galeria"
                                      [mkImageField "i1" "capa" (Some "data:1")])])
                      [] None])
             None None))
    (Some [mkImageData "i7" "data:7"])
    (mkLoadedProject None None None None).

Definition legacy_archive_project : ProjectState :=
  mkProjectState
    [mkFolder "f1" "Notas" "#aaaaaa" None 0]
    [mkArticle "a" "Ana" "f1" 0
       [FieldsSection "s0" "Notas" [mkField "k" "Idade" "12"];
        ImagesSection "s1" "Galeria" [mkImageField "i1" "capa" (Some "data:1")]]
       [] None]
    [] [].

(** ** Invariants of the data model *)

(** What the data model asks of the folders (of the articles): ids are
    unique, no two siblings share a [sortOrder], and the parent graph has no
    cycle. *)
Definition folder_tree_ok (fs : list Folder) : Prop :=
  NoDup (folder_id <$> fs)
  ∧ folder_sortOrders_unique fs
  ∧ ∃ height, parents_above height fs.

Definition article_tree_ok (arts : list Article) : Prop :=
  NoDup (article_id <$> arts)
  ∧ article_sortOrders_unique arts
  ∧ ∃ height, article_parents_above height arts.

(** [newId] is new to the folders (to the articles): no node has it as its
    id or names it as its parent. *)
Definition fresh_folder_id (newId : string) (fs : list Folder) : Prop :=
  ∀ f, f ∈ fs → folder_id f ≠ newId ∧ folder_parentId f ≠ Some newId.

Definition fresh_article_id (newId : string) (arts : list Article) : Prop :=
  ∀ a, a ∈ arts → article_id a ≠ newId ∧ article_parentId a ≠ Some newId.

(** [updated] keeps the place in the tree of the article it replaces. *)
Definition keeps_place (updated : Article) (arts : list Article) : Prop :=
  ∀ a, a ∈ arts → article_id a = article_id updated →
       article_parentId updated = article_parentId a
       ∧ article_folderId updated = article_folderId a
       ∧ article_sortOrder updated = article_sortOrder a.

(** ** ArticleEditorModal.tsx *)

(** The editor holds a draft of the article it edits.  Each handler computes
    the next draft from the draft of the current render and hands it to
    [setArticle] through [handleUpdate]; the embedding is that function of
    the draft, paired with the image store operations the handler issues.
    An id drawn with [crypto.randomUUID()] is an argument. *)

Definition section_id (s : Section) : string :=
  match s with
  | FieldsSection id _ _ => id
  | ImagesSection id _ _ => id
  end.

Definition article_with_relatedArticleIds (a : Article) (ids : list string) : Article :=
  mkArticle (article_id a) (article_title a) (article_folderId a) (article_sortOrder a)
            (article_sections a) ids (article_parentId a).

Definition handleAddSection (newId : string) (article : Article) : Article :=
  article_with_sections article
    (article_sections article ++ [FieldsSection newId "Nova Seção" []]).

Definition handleAddImageSection (newId : string) (article : Article) : Article :=
  article_with_sections article
    (article_sections article ++ [ImagesSection newId "Nova Galeria" []]).

(** [handleDeleteSection] deletes the pictures of the first section it finds
    with the id, and drops every section with the id. *)
Definition handleDeleteSection (sectionId : string) (article : Article)
  : Article * list Db.Op :=
  let sectionToDelete :=
    find (λ s, section_id s = sectionId) (article_sections article) in
  let ops :=
    match sectionToDelete with
    | Some (ImagesSection _ _ images) =>
        (λ image, Db.DeleteImage (image_id image)) <$> images
    | _ => []
    end in
  (article_with_sections article
     (filter (λ s, section_id s ≠ sectionId) (article_sections article)),
   ops).

(** [const [moved] = copy.splice(index, 1); copy.splice(newIndex, 0, moved)]
    on a copy of [l].  The handlers reach it with [index] and [newIndex]
    within the array. *)
Definition splice_move {A} (index newIndex : nat) (l : list A) : list A :=
  match l !! index with
  | Some moved =>
      let rest := delete index l in
      take newIndex rest ++ moved :: drop newIndex rest
  | None => l
  end.

Definition handleReorderSection (sectionId : string) (direction : Direction)
    (article : Article) : Article :=
  let sectionIndex :=
    findIndex (λ s, section_id s = sectionId) (article_sections article) in
  if bool_decide (sectionIndex = -1) then article
  else
    let newIndex :=
      if bool_decide (direction = Up) then sectionIndex - 1 else sectionIndex + 1 in
    if bool_decide (newIndex < 0)
       || bool_decide (Z.of_nat (length (article_sections article)) ≤ newIndex)
    then article
    else
      article_with_sections article
        (splice_move (Z.to_nat sectionIndex) (Z.to_nat newIndex)
                     (article_sections article)).

(** [handleSectionUpdate(sectionId, 'title', value)], the call the editor
    makes of [handleSectionUpdate]. *)
Definition handleSectionUpdate_title (sectionId value : string) (article : Article)
  : Article :=
  article_with_sections article
    ((λ s, if bool_decide (section_id s = sectionId)
           then match s with
                | FieldsSection id _ fields => FieldsSection id value fields
                | ImagesSection id _ images => ImagesSection id value images
                end
           else s) <$> article_sections article).

(** [keyof Field]. *)
Inductive FieldKey := IdKey | TitleKey | ContentKey.

Definition field_with (f : Field) (key : FieldKey) (value : string) : Field :=
  match key with
  | IdKey => mkField value (field_title f) (field_content f)
  | TitleKey => mkField (field_id f) value (field_content f)
  | ContentKey => mkField (field_id f) (field_title f) value
  end.

Definition handleFieldUpdate (sectionId fieldId : string) (field : FieldKey)
    (value : string) (article : Article) : Article :=
  article_with_sections article
    ((λ s, match s with
           | FieldsSection id title fields =>
               if bool_decide (id = sectionId)
               then FieldsSection id title
                      ((λ f, if bool_decide (field_id f = fieldId)
                             then field_with f field value else f) <$> fields)
               else s
           | ImagesSection _ _ _ => s
           end) <$> article_sections article).

Definition handleAddField (newId sectionId : string) (article : Article) : Article :=
  article_with_sections article
    ((λ s, match s with
           | FieldsSection id title fields =>
               if bool_decide (id = sectionId)
               then FieldsSection id title (fields ++ [mkField newId "Novo Campo" ""])
               else s
           | ImagesSection _ _ _ => s
           end) <$> article_sections article).

Definition handleDeleteField (sectionId fieldId : string) (article : Article) : Article :=
  article_with_sections article
    ((λ s, match s with
           | FieldsSection id title fields =>
               if bool_decide (id = sectionId)
               then FieldsSection id title (filter (λ f, field_id f ≠ fieldId) fields)
               else s
           | ImagesSection _ _ _ => s
           end) <$> article_sections article).

Definition handleReorderField (sectionId fieldId : string) (direction : Direction)
    (article : Article) : Article :=
  article_with_sections article
    ((λ s, match s with
           | FieldsSection id title fields =>
               if bool_decide (id = sectionId) then
                 let fieldIndex := findIndex (λ f, field_id f = fieldId) fields in
                 if bool_decide (fieldIndex = -1) then s
                 else
                   let newIndex :=
                     if bool_decide (direction = Up)
                     then fieldIndex - 1 else fieldIndex + 1 in
                   if bool_decide (newIndex < 0)
                      || bool_decide (Z.of_nat (length fields) ≤ newIndex)
                   then s
                   else FieldsSection id title
                          (splice_move (Z.to_nat fieldIndex) (Z.to_nat newIndex) fields)
               else s
           | ImagesSection _ _ _ => s
           end) <$> article_sections article).

(** [handleCropSave] puts the picture in the store under a new id before it
    looks for the section. *)
Definition handleCropSave (newId croppedDataUrl sectionId : string) (article : Article)
  : Article * list Db.Op :=
  (article_with_sections article
     ((λ s, match s with
            | ImagesSection id title images =>
                if bool_decide (id = sectionId)
                then ImagesSection id title (images ++ [mkImageField newId "" None])
                else s
            | FieldsSection _ _ _ => s
            end) <$> article_sections article),
   [Db.PutImage newId croppedDataUrl]).

Definition handleDeleteImage (sectionId imageId : string) (article : Article)
  : Article * list Db.Op :=
  (article_with_sections article
     ((λ s, match s with
            | ImagesSection id title images =>
                if bool_decide (id = sectionId)
                then ImagesSection id title
                       (filter (λ img, image_id img ≠ imageId) images)
                else s
            | FieldsSection _ _ _ => s
            end) <$> article_sections article),
   [Db.DeleteImage imageId]).

Definition handleUpdateImageCaption (sectionId imageId newCaption : string)
    (article : Article) : Article :=
  article_with_sections article
    ((λ s, match s with
           | ImagesSection id title images =>
               if bool_decide (id = sectionId)
               then ImagesSection id title
                      ((λ img, if bool_decide (image_id img = imageId)
                               then mkImageField (image_id img) newCaption
                                                 (image_dataUrl img)
                               else img) <$> images)
               else s
           | FieldsSection _ _ _ => s
           end) <$> article_sections article).

Definition handleToggleRelatedArticle (relatedArticleId : string) (article : Article)
  : Article :=
  let currentRelatedIds := article_relatedArticleIds article in
  article_with_relatedArticleIds article
    (if bool_decide (relatedArticleId ∈ currentRelatedIds)
     then filter (λ id, id ≠ relatedArticleId) currentRelatedIds
     else currentRelatedIds ++ [relatedArticleId]).

(** *** Vocabulary for the editor *)

(** The body [handleReorderSection] and [handleReorderField] share: the
    array after the first element that satisfies [P] moved one place. *)
Definition moved {A} (P : A → Prop) `{∀ x, Decision (P x)} (direction : Direction)
    (l : list A) : list A :=
  let index := findIndex P l in
  if bool_decide (index = -1) then l
  else
    let newIndex := if bool_decide (direction = Up) then index - 1 else index + 1 in
    if bool_decide (newIndex < 0) || bool_decide (Z.of_nat (length l) ≤ newIndex)
    then l
    else splice_move (Z.to_nat index) (Z.to_nat newIndex) l.

(** The ids of the pictures of a section, and of the draft, section after
    section. *)
Definition section_image_ids (s : Section) : list string :=
  match s with
  | ImagesSection _ _ images => image_id <$> images
  | FieldsSection _ _ _ => []
  end.

Definition image_ids (article : Article) : list string :=
  article_sections article ≫= section_image_ids.

(** Every picture the draft shows has its payload in the store. *)
Definition images_backed (store : gmap string string) (article : Article) : Prop :=
  ∀ id title images image,
    ImagesSection id title images ∈ article_sections article → image ∈ images →
    is_Some (store !! image_id image).

(** What an editing session keeps true of the draft and the store: section
    ids are unique, picture ids are unique, and every picture is backed. *)
Definition draft_ok (store : gmap string string) (article : Article) : Prop :=
  NoDup (section_id <$> article_sections article)
  ∧ NoDup (image_ids article)
  ∧ images_backed store article.

(** The draft stands for the same node of the article tree. *)
Definition same_place (a b : Article) : Prop :=
  article_id b = article_id a
  ∧ article_parentId b = article_parentId a
  ∧ article_folderId b = article_folderId a
  ∧ article_sortOrder b = article_sortOrder a.

(** One step of editing as the editor's controls trigger it, with the image
    store operations it issues.  An id drawn with [crypto.randomUUID()] is
    new; the control that removes a picture names the section that shows
    it. *)
Inductive edit_step : Article → list Db.Op → Article → Prop :=
| step_title newTitle a : edit_step a [] (article_with_title a newTitle)
| step_sectionTitle sectionId value a :
    edit_step a [] (handleSectionUpdate_title sectionId value a)
| step_fieldUpdate sectionId fieldId key value a :
    edit_step a [] (handleFieldUpdate sectionId fieldId key value a)
| step_addSection newId a :
    newId ∉ section_id <$> article_sections a →
    edit_step a [] (handleAddSection newId a)
| step_addImageSection newId a :
    newId ∉ section_id <$> article_sections a →
    edit_step a [] (handleAddImageSection newId a)
| step_deleteSection sectionId a :
    edit_step a (handleDeleteSection sectionId a).2 (handleDeleteSection sectionId a).1
| step_reorderSection sectionId direction a :
    edit_step a [] (handleReorderSection sectionId direction a)
| step_addField newId sectionId a : edit_step a [] (handleAddField newId sectionId a)
| step_deleteField sectionId fieldId a :
    edit_step a [] (handleDeleteField sectionId fieldId a)
| step_reorderField sectionId fieldId direction a :
    edit_step a [] (handleReorderField sectionId fieldId direction a)
| step_cropSave newId dataUrl sectionId a :
    newId ∉ image_ids a →
    edit_step a (handleCropSave newId dataUrl sectionId a).2
                (handleCropSave newId dataUrl sectionId a).1
| step_deleteImage sectionId title images image a :
    ImagesSection sectionId title images ∈ article_sections a → image ∈ images →
    edit_step a (handleDeleteImage sectionId (image_id image) a).2
                (handleDeleteImage sectionId (image_id image) a).1
| step_updateImageCaption sectionId imageId newCaption a :
    edit_step a [] (handleUpdateImageCaption sectionId imageId newCaption a)
| step_toggleRelatedArticle relatedId a :
    edit_step a [] (handleToggleRelatedArticle relatedId a).

(** An editing session: steps one after the other, and the operations they
    issue in order. *)
Inductive edits : Article → list Db.Op → Article → Prop :=
| edits_done a : edits a [] a
| edits_step a ops a' ops' a'' :
    edit_step a ops a' → edits a' ops' a'' → edits a (ops ++ ops') a''.

(** A draft with two galleries and a fields section. *)
Definition draft_article : Article :=
  mkArticle "a" "Ana" "f1" 0
    [FieldsSection "s1" "Notas"
       [mkField "k1" "Idade" "12"; mkField "k2" "Cidade" "Lisboa";
        mkField "k3" "Medo" "escuro"];
     ImagesSection "s2" "Galeria" [mkImageField "i1" "capa" None;
                                   mkImageField "i2" "mapa" None];
     ImagesSection "s3" "Esbocos" [mkImageField "i3" "rosto" None]]
    ["b"] None.

Definition draft_store : gmap string string :=
  {["i1" := "data:1"; "i2" := "data:2"; "i3" := "data:3"]}.

(** *** Articles offered as related *)

(** The [while (rootFolder.parentId)] loop of [potentialRelatedArticles]: it
    climbs from a folder to the top of its tree and stops at a folder with
    no parent, or whose parent is not among the folders.  [fuel] bounds the
    iterations, as in [deleteFolder_loop]. *)
Fixpoint rootFolder_loop (fuel : nat) (allFolders : list Folder) (rootFolder : Folder)
  : option Folder :=
  match folder_parentId rootFolder with
  | Some parentId =>
      if JS.truthy parentId then
        match find (λ f, folder_id f = parentId) allFolders with
        | Some parent =>
            match fuel with
            | O => None
            | S fuel => rootFolder_loop fuel allFolders parent
            end
        | None => Some rootFolder
        end
      else Some rootFolder
  | None => Some rootFolder
  end.

(** [potentialRelatedArticles].  Its second loop is the loop of
    [handleDeleteFolder], statement for statement, started on the id of the
    root. *)
Definition potentialRelatedArticles (fuel : nat) (initialArticle : Article)
    (allFolders : list Folder) (allArticles : list Article) : option (list Article) :=
  if JS.truthy (article_folderId initialArticle) then
    match find (λ f, folder_id f = article_folderId initialArticle) allFolders with
    | None => Some []
    | Some currentFolder =>
        rootFolder ← rootFolder_loop fuel allFolders currentFolder;
        folderIdsInTree ←
          deleteFolder_loop fuel allFolders [folder_id rootFolder]
                            (JSSet.add (folder_id rootFolder) (JSSet.of_array []));
        Some (filter (λ a, JSSet.has (article_folderId a) folderIdsInTree
                           ∧ article_id a ≠ article_id initialArticle)
                     allArticles)
    end
  else Some [].

(** A folder at the top of its tree: it names no parent, or a parent that
    is not among the folders. *)
Definition top_folder (fs : list Folder) (root : Folder) : Prop :=
  match folder_parentId root with
  | Some parentId => parentId = "" ∨ ∀ f, f ∈ fs → folder_id f ≠ parentId
  | None => True
  end.

(** ** Continuing the saved project *)

(** What [handleContinueProject] finds under the storage key: nothing (the
    item is missing or empty), text that [JSON.parse] rejects or that holds
    no object, or a document. *)
Inductive SavedProject :=
| NoSavedProject
| Unparsable
| Parsed (doc : LoadedProject).

(** The automatic saving effect: [localStorage.setItem(key,
    JSON.stringify(projectState))] whenever a project is open.  The write is
    taken to succeed. *)
Definition autoSave (app : AppState) (saved : SavedProject) : SavedProject :=
  match projectState app with
  | Some project => Parsed (stored_project project)
  | None => saved
  end.

Definition handleNewProject (app : AppState) : AppState :=
  mkAppState (Some (mkProjectState [] [] [] [])) None None (imageStore app) (alerts app).

(** [handleContinueProject].  The [folders] key is read as it is: when it is
    missing the state that is set has no [folders] array and is no
    [ProjectState] ([None]).  Whatever is thrown on the way leads to
    [handleNewProject]. *)
Definition handleContinueProject (saved : SavedProject) (app : AppState)
  : option AppState :=
  match saved with
  | NoSavedProject => Some app
  | Unparsable => Some (handleNewProject app)
  | Parsed parsedProject =>
      match loaded_folders parsedProject with
      | None => None
      | Some parsedFolders =>
          let project :=
            mkProjectState parsedFolders
              (repairArticle <$> default [] (loaded_articles parsedProject))
              (default [] (loaded_expandedFolderIds parsedProject))
              (default [] (loaded_expandedArticleIds parsedProject)) in
          let '(projectAfterMigration, puts) := migrateProjectState project in
          Some (mkAppState (Some projectAfterMigration) (selectedFolderId app)
                           (selectedArticleId app) (Db.run puts (imageStore app))
                           (alerts app))
      end
  end.

(** ** Sidebar.tsx, ArticleListPanel.tsx: the tree of a panel *)

(** A row of a panel: the props the panel hands to [FolderItem] or
    [ArticleItem], and the indentation. *)
Record Row (N : Type) := mkRow {
  row_node : N;
  row_level : nat;
  row_isExpanded : bool;
  row_hasChildren : bool;
  row_isFirst : bool;
  row_isLast : bool;
}.
Arguments mkRow {N}.
Arguments row_node {N}.
Arguments row_level {N}.
Arguments row_isExpanded {N}.
Arguments row_hasChildren {N}.
Arguments row_isFirst {N}.
Arguments row_isLast {N}.

(** [folderTree] and [articleTree] are built the same way, and rendered the
    same way; the embedding is shared, over what the code reads of a node:
    its id and [sortOrder] and its [parentId]. *)
Section TreeView.
Context {N G : Type} `{TreeNode N G} (parentId : N → option string).

(** [map.set(node.id, {...node, children: []})]: the values of the [Map] in
    iteration order.  A key that is set again keeps its place and takes the
    new value. *)
Definition map_set (m : list N) (node : N) : list N :=
  if bool_decide (node_id node ∈ node_id <$> m)
  then (λ x, if bool_decide (node_id x = node_id node) then node else x) <$> m
  else m ++ [node].

Definition map_values (nodes : list N) : list N := foldl map_set [] nodes.

(** [node.parentId && map.has(node.parentId)]. *)
Definition has_parent_in (values : list N) (node : N) : bool :=
  match parentId node with
  | Some p => JS.truthy p && bool_decide (p ∈ node_id <$> values)
  | None => false
  end.

(** The [children] array of the value under the id of [x], after the
    [forEach] that fills it and the sort, and the [roots] array. *)
Definition tree_children (values : list N) (x : N) : list N :=
  sort_by node_sortOrder
    (filter (λ n, parentId n = Some (node_id x) ∧ node_id x ≠ "") values).

Definition tree_roots (values : list N) : list N :=
  sort_by node_sortOrder (filter (λ n, ¬ has_parent_in values n) values).

(** [renderFolderTree] and [renderArticleTree]: the rows from top to
    bottom.  [fuel] bounds the depth of the recursion. *)
Fixpoint renderTree (fuel : nat) (values : list N) (expanded : list string)
    (nodesToRender : list N) (level : nat) : option (list (Row N)) :=
  match fuel with
  | O => match nodesToRender with [] => Some [] | _ :: _ => None end
  | S fuel =>
      mjoin <$>
        mapM (λ entry : nat * N,
                let isExpanded := JSSet.has (node_id entry.2) expanded in
                let hasChildren :=
                  bool_decide (0 < length (tree_children values entry.2))%nat in
                let row :=
                  mkRow entry.2 level isExpanded hasChildren
                        (bool_decide (entry.1 = 0%nat))
                        (bool_decide (Z.of_nat entry.1
                                      = Z.of_nat (length nodesToRender) - 1)) in
                if isExpanded && hasChildren
                then below ← renderTree fuel values expanded
                                        (tree_children values entry.2) (S level);
                     Some (row :: below)
                else Some [row])
             (imap (λ index node, (index, node)) nodesToRender)
  end.
End TreeView.

(** The rows of the sidebar. *)
Definition sidebarRows (fuel : nat) (project : ProjectState) : option (list (Row Folder)) :=
  let values := map_values (folders project) in
  renderTree folder_parentId fuel values (JSSet.of_array (expandedFolderIds project))
             (tree_roots folder_parentId values) 0.

(** The rows of the article panel for the folder [selectedFolderId]; with
    no article in the folder the panel shows a placeholder. *)
Definition articlePanelRows (fuel : nat) (selectedFolderId : string)
    (project : ProjectState) : option (list (Row Article)) :=
  let articlesInSelectedFolder :=
    filter (λ a, article_folderId a = selectedFolderId) (articles project) in
  let values := map_values articlesInSelectedFolder in
  if bool_decide (0 < length articlesInSelectedFolder)%nat
  then renderTree article_parentId fuel values
                  (JSSet.of_array (expandedArticleIds project))
                  (tree_roots article_parentId values) 0
  else Some [].

(** Every [parentId] is [null] or the non-empty id of a folder (of an
    article filed in the same folder). *)
Definition folder_parents_exist (fs : list Folder) : Prop :=
  ∀ f p, f ∈ fs → folder_parentId f = Some p →
         p ≠ "" ∧ ∃ g, g ∈ fs ∧ folder_id g = p.

Definition article_parents_exist (arts : list Article) : Prop :=
  ∀ a p, a ∈ arts → article_parentId a = Some p →
         p ≠ "" ∧ ∃ b, b ∈ arts ∧ article_id b = p
                       ∧ article_folderId b = article_folderId a.

(** ** pdf-generator.ts: what goes into the document *)

(** [buildHtmlForPdf] writes a heading for each folder it renders and, under
    it, the articles of the folder as a tree.  The embedding keeps the
    outline of the document: which folders and articles are written, in
    which order, and the level of each article; the markup around them is
    left out. *)
Inductive PdfEntry :=
| PdfFolder (folder : Folder)
| PdfArticle (article : Article) (level : nat).

Global Instance PdfEntry_eq_dec : EqDecision PdfEntry.
Proof. solve_decision. Defined.

(** [renderFolderTree] and [renderArticleTree] walk their trees the same
    way: a node, then its children ([byParentId.get(node.id) || []], sorted
    in place) one level down.  [emit] is what is written for a node; [fuel]
    bounds the depth of the recursion. *)
Section PdfTree.
Context {N G : Type} `{TreeNode N G} (parentId : N → option string) (all : list N).

Fixpoint pdfTree (fuel : nat) (emit : N → nat → option (list PdfEntry))
    (nodes : list N) (level : nat) : option (list PdfEntry) :=
  match fuel with
  | O => match nodes with [] => Some [] | _ :: _ => None end
  | S fuel =>
      mjoin <$>
        mapM (λ node,
                own ← emit node level;
                let children := tree_children parentId all node in
                below ← (if bool_decide (0 < length children)%nat
                         then pdfTree fuel emit children (S level)
                         else Some []);
                Some (own ++ below))
             nodes
  end.

(** [x] is [r] or is reached from [r] through children. *)
Inductive below : N → N → Prop :=
| below_self x : below x x
| below_child r c x :
    c ∈ all → parentId c = Some (node_id r) → node_id r ≠ "" →
    below c x → below r x.
End PdfTree.

(** [foldersById.get(id)]: the [Map] keeps the last folder set under an
    id. *)
Definition foldersById_get (folders : list Folder) (id : string) : option Folder :=
  last (filter (λ f, folder_id f = id) folders).

(** [renderFolder]. *)
Definition renderFolder (fuel : nat) (project : ProjectState) (folderId : string)
  : option (list PdfEntry) :=
  match foldersById_get (folders project) folderId with
  | None => Some []
  | Some folder =>
      let rootArticlesInFolder :=
        sort_by article_sortOrder
          (filter (λ a, article_folderId a = folderId
                        ∧ ¬ JS.truthy_opt (article_parentId a))
                  (articles project)) in
      rows ← pdfTree article_parentId (articles project) fuel
                     (λ article level, Some [PdfArticle article level])
                     rootArticlesInFolder 0;
      Some (PdfFolder folder :: rows)
  end.

(** The outline [buildHtmlForPdf] writes for the folders selected in the
    export dialog. *)
Definition pdfOutline (fuel : nat) (project : ProjectState)
    (selectedFolderIds : list string) : option (list PdfEntry) :=
  let rootFoldersToRender :=
    sort_by folder_sortOrder
      (filter (λ f, folder_id f ∈ selectedFolderIds
                    ∧ ¬ JS.truthy_opt (folder_parentId f))
              (folders project)) in
  pdfTree folder_parentId (folders project) fuel
          (λ folder _,
             if bool_decide (folder_id folder ∈ selectedFolderIds)
             then renderFolder fuel project (folder_id folder)
             else Some [])
          rootFoldersToRender 0.

(** ** PdfExportModal.tsx: the folders selected for the export *)

(** [selectedIds] is a [Set]; [new Set(selectedIds)] copies it. *)
Definition handleToggleSelection (folderId : string) (selectedIds : list string)
  : list string :=
  let newSelectedIds := JSSet.of_array (JSSet.to_array selectedIds) in
  if JSSet.has folderId newSelectedIds
  then JSSet.delete folderId newSelectedIds
  else JSSet.add folderId newSelectedIds.

Definition handleSelectAll (folders : list Folder) : list string :=
  JSSet.of_array (folder_id <$> folders).

Definition handleClearSelection : list string := JSSet.of_array [].

(** The button that starts the export is disabled while nothing is
    selected and while a PDF is being generated; it hands
    [Array.from(selectedIds)] to [onGenerate]. *)
Definition generateDisabled (selectedIds : list string) (isGenerating : bool)
  : bool :=
  bool_decide (length selectedIds = 0%nat) || isGenerating.

(** * Properties *)

(** ** Sets of ids *)

Section JSSetFacts.
Implicit Types (x y : string) (s l : list string).

Lemma has_true x s : JSSet.has x s = true ↔ x ∈ s.
Proof. unfold JSSet.has. apply bool_decide_eq_true. Qed.

Lemma has_false x s : JSSet.has x s = false ↔ x ∉ s.
Proof. unfold JSSet.has. apply bool_decide_eq_false. Qed.

Lemma Is_true_has x s : JSSet.has x s ↔ x ∈ s.
Proof. unfold JSSet.has. apply bool_decide_spec. Qed.

Lemma elem_of_add y x s : y ∈ JSSet.add x s ↔ y = x ∨ y ∈ s.
Proof.
  unfold JSSet.add. destruct (JSSet.has x s) eqn:E.
  - apply has_true in E. split; [auto|]. intros [->|]; done.
  - rewrite elem_of_app, list_elem_of_singleton. tauto.
Qed.

Lemma NoDup_add x s : NoDup s → NoDup (JSSet.add x s).
Proof.
  intros Hs. unfold JSSet.add. destruct (JSSet.has x s) eqn:E; [done|].
  apply has_false in E. apply NoDup_app. split_and!; [done| |apply NoDup_singleton].
  intros z Hz ->%list_elem_of_singleton. done.
Qed.

Lemma elem_of_delete y x s : y ∈ JSSet.delete x s ↔ y ∈ s ∧ y ≠ x.
Proof. unfold JSSet.delete. rewrite list_elem_of_filter. tauto. Qed.

Lemma NoDup_delete x s : NoDup s → NoDup (JSSet.delete x s).
Proof. apply NoDup_filter. Qed.

Lemma elem_of_add_all y l s :
  y ∈ foldl (λ s x, JSSet.add x s) s l ↔ y ∈ s ∨ y ∈ l.
Proof.
  revert s. induction l as [|x l IH]; intros s; simpl.
  - rewrite elem_of_nil. tauto.
  - rewrite IH, elem_of_add, elem_of_cons. tauto.
Qed.

Lemma NoDup_add_all l s : NoDup s → NoDup (foldl (λ s x, JSSet.add x s) s l).
Proof.
  revert s. induction l as [|x l IH]; intros s Hs; simpl; [done|].
  by apply IH, NoDup_add.
Qed.

Lemma elem_of_of_array y l : y ∈ JSSet.of_array l ↔ y ∈ l.
Proof. unfold JSSet.of_array. rewrite elem_of_add_all, elem_of_nil. tauto. Qed.

Lemma NoDup_of_array l : NoDup (JSSet.of_array l).
Proof. apply NoDup_add_all, NoDup_nil_2. Qed.

Lemma of_array_singleton x : JSSet.of_array [x] = [x].
Proof. reflexivity. Qed.
End JSSetFacts.

(** ** Expansion toggles *)

Lemma toggle_toggled id old : toggled id old (toggle id old).
Proof.
  unfold toggle, JSSet.to_array. cbv zeta.
  destruct (JSSet.has id (JSSet.of_array old)) eqn:E; cbv iota.
  - rewrite has_true, elem_of_of_array in E.
    assert (id ∉ JSSet.delete id (JSSet.of_array old)) as Hout
      by (rewrite elem_of_delete; tauto).
    split_and!.
    + apply NoDup_delete, NoDup_of_array.
    + tauto.
    + intros x Hx. rewrite elem_of_delete, elem_of_of_array. tauto.
    + tauto.
    + tauto.
  - assert (JSSet.add id (JSSet.of_array old) = JSSet.of_array old ++ [id]) as ->
      by (unfold JSSet.add; by rewrite E).
    rewrite has_false in E. pose proof E as E'. rewrite elem_of_of_array in E'.
    split_and!.
    + apply NoDup_app. split_and!; [apply NoDup_of_array| |apply NoDup_singleton].
      intros z Hz ->%list_elem_of_singleton. done.
    + rewrite elem_of_app, list_elem_of_singleton. tauto.
    + intros x Hx. rewrite elem_of_app, list_elem_of_singleton, elem_of_of_array. tauto.
    + intros _. by exists (JSSet.of_array old).
    + tauto.
Qed.

(** C10.  After [handleToggleFolderExpansion id] the list [expandedFolderIds]
    has no duplicate, [id] is in it exactly when it was not before (appended
    once at the end when it was absent, every occurrence gone when it was
    present) and every other id is in it exactly when it was before; the rest
    of the state is untouched.  The same holds of
    [handleToggleArticleExpansion] and [expandedArticleIds]. *)
Theorem toggle_expansion_inverts_membership (id : string) (prev : ProjectState) :
  (toggled id (expandedFolderIds prev)
           (expandedFolderIds (handleToggleFolderExpansion id prev))
   ∧ handleToggleFolderExpansion id prev
     = with_expandedFolderIds prev (expandedFolderIds (handleToggleFolderExpansion id prev)))
  ∧ (toggled id (expandedArticleIds prev)
             (expandedArticleIds (handleToggleArticleExpansion id prev))
     ∧ handleToggleArticleExpansion id prev
       = with_expandedArticleIds prev (expandedArticleIds (handleToggleArticleExpansion id prev))).
Proof.
  split; (split; [apply toggle_toggled|reflexivity]).
Qed.

(** ** Sort order of a new sibling *)

Lemma foldl_max_spec {A} (key : A → Z) (l : list A) (m0 : Z) :
  let r := foldl (λ max a, Z.max max (key a)) m0 l in
  m0 ≤ r ∧ (∀ a, a ∈ l → key a ≤ r) ∧ (r = m0 ∨ ∃ a, a ∈ l ∧ r = key a).
Proof.
  revert m0. induction l as [|x l IH]; intros m0; simpl.
  - split_and!; [lia| |by left]. intros a Ha. by apply elem_of_nil in Ha.
  - destruct (IH (Z.max m0 (key x))) as (H1 & H2 & H3). split_and!.
    + lia.
    + intros a [->|Ha]%elem_of_cons; [lia|by apply H2].
    + destruct H3 as [H3|(a & Ha & H3)].
      * destruct (Z.max_spec m0 (key x)) as [[_ E]|[_ E]].
        -- right. exists x. split; [left|congruence].
        -- left. congruence.
      * right. exists a. split; [by right|done].
Qed.

Lemma round53_exact z :
  - (JS.MAX_SAFE_INTEGER + 1) ≤ z ≤ JS.MAX_SAFE_INTEGER + 1 → JS.round53 z = z.
Proof.
  unfold JS.MAX_SAFE_INTEGER. intros Hz. unfold JS.round53. cbv zeta.
  case_bool_decide as He; [done|].
  assert (Z.abs z = 2 ^ 53) as Ha.
  { destruct (decide (Z.abs z < 2 ^ 53)) as [Hlt|Hge]; [|lia].
    destruct (decide (Z.abs z = 0)) as [E0|Hpos].
    - rewrite E0 in He. simpl in He. lia.
    - apply Z.log2_lt_pow2 in Hlt; lia. }
  rewrite Ha. change (Z.log2 (2 ^ 53) - 52) with 1.
  change (2 ^ 53 `mod` 2 ^ 1) with 0. change (2 ^ (1 - 1)) with 1.
  change (2 ^ 53 `div` 2 ^ 1) with (2 ^ 52).
  rewrite bool_decide_eq_false_2 by lia. rewrite bool_decide_eq_false_2 by lia.
  cbn [orb andb]. lia.
Qed.

Lemma add_one_safe m :
  - (JS.MAX_SAFE_INTEGER + 1) ≤ m ≤ JS.MAX_SAFE_INTEGER → JS.add m 1 = m + 1.
Proof. intros Hm. unfold JS.add. apply round53_exact. lia. Qed.

Lemma add_one_at_2_53 :
  JS.add (JS.MAX_SAFE_INTEGER + 1) 1 = JS.MAX_SAFE_INTEGER + 1.
Proof. vm_compute. reflexivity. Qed.

(** [JS.add] against the binary64 addition of the standard library, around
    the places where the rounding changes. *)
Lemma add_one_agrees_with_binary64 :
  Forall (λ m, JS.binary64_add m 1 = Some (JS.add m 1))
    [0; 1; -1; -5; 2 ^ 52; 2 ^ 53 - 2; 2 ^ 53 - 1; 2 ^ 53; 2 ^ 53 + 2;
     2 ^ 53 + 4; 2 ^ 53 + 6; 2 ^ 54 - 2; 2 ^ 54; 2 ^ 54 + 4; 2 ^ 54 + 8;
     2 ^ 60; 2 ^ 100; 2 ^ 1000; - 2 ^ 53 + 1; - 2 ^ 53; - 2 ^ 53 - 2;
     - 2 ^ 53 - 4; - 2 ^ 54; - 2 ^ 54 - 4; - 2 ^ 54 - 8; - 2 ^ 100].
Proof. apply (bool_decide_unpack _). vm_compute. exact I. Qed.

Lemma foldl_max_fmap {A} (key : A → Z) (l : list A) (m0 : Z) :
  foldl (λ max a, Z.max max (key a)) m0 l = foldl Z.max m0 (key <$> l).
Proof. revert m0. induction l as [|x l IH]; intros m0; [done|apply IH]. Qed.

Lemma foldl_max_new_sortOrder {A} (key : A → Z) (l : list A) :
  new_sortOrder_rule (key <$> l)
    (JS.add (foldl (λ max a, Z.max max (key a)) (-1) l) 1).
Proof.
  destruct (foldl_max_spec key l (-1)) as (H1 & H2 & H3). cbv zeta in *.
  split_and!.
  - by rewrite foldl_max_fmap.
  - intros Hsafe. set (r := foldl _ _ _) in *.
    assert (r ≤ JS.MAX_SAFE_INTEGER) as Hr.
    { destruct H3 as [->|(a & Ha & ->)]; [done|].
      by apply Hsafe, list_elem_of_fmap_2. }
    rewrite add_one_safe by (unfold JS.MAX_SAFE_INTEGER in *; lia). split_and!.
    + intros k (a & -> & Ha)%list_elem_of_fmap. specialize (H2 a Ha). lia.
    + intros E. apply fmap_nil_inv in E. subst l. reflexivity.
    + intros m [(a & -> & Ha)%list_elem_of_fmap Hmax] Hm.
      specialize (H2 a Ha). destruct H3 as [H3|(b & Hb & H3)]; [lia|].
      specialize (Hmax (key b) (list_elem_of_fmap_2 key _ _ Hb)). lia.
    + intros m [Hin Hmax] Hm. destruct H3 as [H3|(b & Hb & H3)]; [lia|].
      specialize (Hmax (key b) (list_elem_of_fmap_2 key _ _ Hb)). lia.
  - intros [(a & E & Ha)%list_elem_of_fmap Hmax].
    assert (foldl (λ max a, Z.max max (key a)) (-1) l = JS.MAX_SAFE_INTEGER + 1)
      as ->; [|apply add_one_at_2_53].
    specialize (H2 a Ha). destruct H3 as [H3|(b & Hb & H3)].
    + unfold JS.MAX_SAFE_INTEGER in *. lia.
    + specialize (Hmax (key b) (list_elem_of_fmap_2 key _ _ Hb)). lia.
Qed.

Lemma or_zero_id n : JS.or_zero n = n.
Proof. unfold JS.or_zero. case_bool_decide; congruence. Qed.

Lemma safe_sortOrders_filter {A} (key : A → Z) (P : A → Prop)
    `{∀ x, Decision (P x)} (l : list A) :
  safe_sortOrders (key <$> l) → safe_sortOrders (key <$> filter P l).
Proof.
  intros Hsafe k (a & -> & [_ Ha]%list_elem_of_filter)%list_elem_of_fmap.
  by apply Hsafe, list_elem_of_fmap_2.
Qed.

(** The sort order of the node the creations append, against its siblings:
    above all of them when they are safe, that of one of them when the
    greatest is [2^53]. *)
Lemma created_sortOrder {A} (key : A → Z) (P : A → Prop)
    `{∀ x, Decision (P x)} (l : list A) :
  let n := JS.add (foldl (λ max a, Z.max max (key a)) (-1) (filter P l)) 1 in
  (safe_sortOrders (key <$> l) → ∀ b, b ∈ l → P b → key b < n)
  ∧ (is_max (key <$> filter P l) (JS.MAX_SAFE_INTEGER + 1) →
     ∃ b, b ∈ l ∧ P b ∧ key b = n).
Proof.
  destruct (foldl_max_new_sortOrder key (filter P l)) as (_ & Hrule & Htie).
  cbv zeta. split.
  - intros Hsafe b Hb HP.
    destruct (Hrule (safe_sortOrders_filter key P l Hsafe)) as (Hmax & _).
    apply Hmax, list_elem_of_fmap_2, list_elem_of_filter. done.
  - intros Hmax. rewrite (Htie Hmax).
    destruct Hmax as [(b & E & [HP Hb]%list_elem_of_filter)%list_elem_of_fmap _].
    by exists b.
Qed.

Lemma find_Some_elem {A} (P : A → Prop) `{∀ x, Decision (P x)} (l : list A) x :
  find P l = Some x → x ∈ l ∧ P x.
Proof.
  unfold find. destruct (list_find P l) as [[i y]|] eqn:E; [|done].
  intros [= <-]. apply list_find_Some in E as (Hl & HP & _).
  split; [by eapply list_elem_of_lookup_2|done].
Qed.

Lemma find_None_all {A} (P : A → Prop) `{∀ x, Decision (P x)} (l : list A) :
  find P l = None ↔ ∀ x, x ∈ l → ¬ P x.
Proof.
  unfold find. rewrite fmap_None, list_find_None, Forall_forall. done.
Qed.

(** C3 (as amended).  [createFolder], [handleCreateArticle] (with a folder
    selected) and [handleCreateSubArticle] (with the parent article present)
    append one node whose [sortOrder] is the sum, on numbers, of one and the
    maximum of [-1] and the sibling sort orders.  When every sibling's
    [sortOrder] is a safe integer (at most [2^53 - 1]) it is strictly greater
    than that of every existing sibling: [0] when there is no sibling, the
    greatest sibling [sortOrder] plus one when that greatest value is at
    least [-1], and [0] when every sibling's [sortOrder] is below [-1].
    When the greatest sibling [sortOrder] is [2^53] the new node gets [2^53]
    as well. *)
Theorem create_assigns_sortOrder_after_siblings
    (color newId : string) (prev : ProjectState) :
  (∀ parentId, ∃ newFolder,
      createFolder color newId parentId prev
        = with_folders prev (folders prev ++ [newFolder])
      ∧ folder_id newFolder = newId
      ∧ folder_parentId newFolder = parentId
      ∧ new_sortOrder_rule
          (folder_sortOrder <$> filter (λ f, folder_parentId f = parentId) (folders prev))
          (folder_sortOrder newFolder))
  ∧ (∀ folderId, JS.truthy folderId = true → ∃ newArticle,
        handleCreateArticle newId (Some folderId) prev
          = with_articles prev (articles prev ++ [newArticle])
        ∧ article_id newArticle = newId
        ∧ article_folderId newArticle = folderId
        ∧ article_parentId newArticle = None
        ∧ new_sortOrder_rule
            (article_sortOrder <$>
               filter (λ a, article_folderId a = folderId ∧ article_parentId a = None)
                      (articles prev))
            (article_sortOrder newArticle))
  ∧ (∀ parentId parentArticle,
        find (λ a, article_id a = parentId) (articles prev) = Some parentArticle →
        ∃ newArticle,
          articles (handleCreateSubArticle newId parentId prev)
            = articles prev ++ [newArticle]
          ∧ folders (handleCreateSubArticle newId parentId prev) = folders prev
          ∧ article_id newArticle = newId
          ∧ article_folderId newArticle = article_folderId parentArticle
          ∧ article_parentId newArticle = Some parentId
          ∧ new_sortOrder_rule
              (article_sortOrder <$>
                 filter (λ a, article_parentId a = Some parentId) (articles prev))
              (article_sortOrder newArticle)).
Proof.
  split_and!.
  - intros parentId. eexists. split; [reflexivity|]. simpl. split_and!; [done..|].
    apply foldl_max_new_sortOrder.
  - intros folderId Hsel. unfold handleCreateArticle. rewrite Hsel.
    eexists. split; [reflexivity|]. simpl. split_and!; [done..|].
    match goal with |- new_sortOrder_rule (_ <$> ?l) _ =>
      replace (article_sortOrder <$> l)
        with ((λ a, JS.or_zero (article_sortOrder a)) <$> l)
    end.
    + apply foldl_max_new_sortOrder.
    + apply list_fmap_ext. intros. apply or_zero_id.
  - intros parentId parentArticle Hfind. unfold handleCreateSubArticle. rewrite Hfind.
    eexists. simpl. split; [reflexivity|]. split_and!; [done..|].
    apply foldl_max_new_sortOrder.
Qed.

(** C3, counterexample.  The only root folder has [sortOrder] [-5]; the new
    root folder gets [0], not [-5 + 1]. *)
Lemma createFolder_below_minus_one_not_max_plus_one :
  folders (createFolder "#aaaaaa" "b" None project_below_minus_one)
  = [mkFolder "a" "Antiga" "#aaaaaa" None (-5);
     mkFolder "b" "Nova Pasta" "#aaaaaa" None 0]
  ∧ ¬ max_plus_one_or_zero
        (folder_sortOrder <$>
           filter (λ f, folder_parentId f = None) (folders project_below_minus_one))
        0.
Proof.
  split; [reflexivity|].
  intros [[E _]|(m & [Hin _] & E)]; [discriminate E|].
  change (m ∈ [-5]) in Hin. apply list_elem_of_singleton in Hin. lia.
Qed.

(** ** Inline-image migration *)

Lemma isLegacyImagesSection_spec section :
  isLegacyImagesSection section = true ↔ first_image_has_payload_key section.
Proof.
  unfold first_image_has_payload_key. split.
  - destruct section as [|id title [|first rest]]; simpl; try done.
    intros H%bool_decide_eq_true. by exists id, title, first, rest.
  - intros (id & title & first & rest & -> & H). simpl. by apply bool_decide_eq_true.
Qed.

Lemma migrateImages_eq images :
  migrateImages images = (migratedImage <$> images, payloadWrites images).
Proof.
  unfold migrateImages.
  enough (∀ acc ops,
    foldl (λ '(newImages, ops) image,
             if JS.truthy_opt (image_dataUrl image) then
               (newImages ++ [mkImageField (image_id image) (image_caption image) None],
                ops ++ [Db.PutImage (image_id image) (default "" (image_dataUrl image))])
             else (newImages ++ [image], ops)) (acc, ops) images
    = (acc ++ (migratedImage <$> images), ops ++ payloadWrites images)) as H
    by apply (H [] []).
  induction images as [|image images IH]; intros acc ops.
  - simpl. by rewrite !app_nil_r.
  - cbn [foldl]. rewrite fmap_cons.
    assert (payloadWrites (image :: images)
            = match image_dataUrl image with
              | Some d => if JS.truthy d then [Db.PutImage (image_id image) d] else []
              | None => []
              end ++ payloadWrites images) as ->.
    { unfold payloadWrites. simpl.
      destruct (image_dataUrl image) as [d|]; [destruct (JS.truthy d)|]; reflexivity. }
    unfold migratedImage at 1.
    destruct (image_dataUrl image) as [d|] eqn:E; cbn [JS.truthy_opt default].
    + destruct (JS.truthy d) eqn:T; rewrite IH, <- !app_assoc; reflexivity.
    + rewrite IH, <- !app_assoc. reflexivity.
Qed.

Lemma migrateSections_eq sections :
  migrateSections sections
  = (migratedSection <$> sections,
     existsb isLegacyImagesSection sections,
     sections ≫= sectionWrites).
Proof.
  unfold migrateSections.
  enough (∀ acc needed ops,
    foldl (λ '(migratedSections, needed, ops) section,
             if isLegacyImagesSection section then
               match section with
               | ImagesSection id title images =>
                   let '(newImages, puts) := migrateImages images in
                   (migratedSections ++ [ImagesSection id title newImages], true, ops ++ puts)
               | FieldsSection _ _ _ => (migratedSections ++ [section], needed, ops)
               end
             else (migratedSections ++ [section], needed, ops))
          (acc, needed, ops) sections
    = (acc ++ (migratedSection <$> sections),
       needed || existsb isLegacyImagesSection sections,
       ops ++ (sections ≫= sectionWrites))) as H by apply (H [] false []).
  induction sections as [|section sections IH]; intros acc needed ops.
  - simpl. by rewrite !app_nil_r, orb_false_r.
  - rewrite bind_cons, fmap_cons. cbn [foldl existsb].
    destruct section as [id title fields|id title images].
    + cbn [isLegacyImagesSection]. rewrite IH. cbn.
      by rewrite <- !app_assoc.
    + change (migratedSection (ImagesSection id title images))
        with (if isLegacyImagesSection (ImagesSection id title images)
              then ImagesSection id title (migratedImage <$> images)
              else ImagesSection id title images).
      change (sectionWrites (ImagesSection id title images))
        with (if isLegacyImagesSection (ImagesSection id title images)
              then payloadWrites images else []).
      destruct (isLegacyImagesSection (ImagesSection id title images)) eqn:E;
        cbv beta iota.
      * rewrite migrateImages_eq, IH, <- !app_assoc, orb_true_r. reflexivity.
      * rewrite IH, <- !app_assoc. reflexivity.
Qed.

Lemma migratedSection_not_legacy section :
  isLegacyImagesSection section = false → migratedSection section = section.
Proof. destruct section; simpl; [done|]. by intros ->. Qed.

Lemma sectionWrites_not_legacy section :
  isLegacyImagesSection section = false → sectionWrites section = [].
Proof. destruct section; simpl; [done|]. by intros ->. Qed.

Lemma migratedSections_none_legacy sections :
  existsb isLegacyImagesSection sections = false →
  migratedSection <$> sections = sections.
Proof.
  induction sections as [|s sections IH]; [done|]. cbn [existsb].
  intros [H1 H2]%orb_false_elim.
  by rewrite fmap_cons, migratedSection_not_legacy, IH.
Qed.

Lemma migrateProjectState_eq project :
  migrateProjectState project
  = (with_articles project (migratedArticle <$> articles project),
     articles project ≫= articleWrites).
Proof.
  unfold migrateProjectState.
  assert (∀ acc needed ops l,
    foldl (λ '(migratedArticles, migrationNeeded, ops) article,
             let '(migratedSections, needed, puts) := migrateSections (article_sections article) in
             (migratedArticles ++ [article_with_sections article migratedSections],
              migrationNeeded || needed, ops ++ puts))
          (acc, needed, ops) l
    = (acc ++ (migratedArticle <$> l),
       needed || existsb (λ a, existsb isLegacyImagesSection (article_sections a)) l,
       ops ++ (l ≫= articleWrites))) as H.
  { intros acc needed ops l. revert acc needed ops.
    induction l as [|a l IH]; intros acc needed ops.
    - simpl. by rewrite !app_nil_r, orb_false_r.
    - cbn [foldl]. rewrite migrateSections_eq, IH, bind_cons, fmap_cons.
      cbn [existsb]. by rewrite <- !app_assoc, orb_assoc. }
  rewrite (H [] false []). cbn [app orb].
  destruct (existsb _ (articles project)) eqn:E; [done|].
  f_equal. destruct project as [fs arts efs eas]. unfold with_articles. simpl in *.
  f_equal. induction arts as [|a arts IH]; [done|].
  simpl in E. apply orb_false_elim in E as [E1 E2].
  rewrite fmap_cons, <- IH by done. f_equal.
  unfold migratedArticle. rewrite migratedSections_none_legacy by done.
  by destruct a.
Qed.

Lemma bind_alter_same {A B} (g : A → list B) (f : A → A) (l : list A) i a :
  l !! i = Some a → g (f a) = g a → alter f i l ≫= g = l ≫= g.
Proof.
  revert i. induction l as [|x l IH]; intros [|i] Hi Hg; [done..| |].
  - injection Hi as ->. change (alter f 0%nat (a :: l)) with (f a :: l).
    by rewrite !bind_cons, Hg.
  - change (alter f (S i) (x :: l)) with (x :: alter f i l).
    rewrite !bind_cons. f_equal. by apply IH.
Qed.

Lemma bind_delete_nil {A B} (g : A → list B) (l : list A) j s :
  l !! j = Some s → g s = [] → delete j l ≫= g = l ≫= g.
Proof.
  revert j. induction l as [|x l IH]; intros [|j] Hj Hg; [done..| |].
  - injection Hj as ->. change (delete 0%nat (s :: l)) with l.
    by rewrite bind_cons, Hg.
  - change (delete (S j) (x :: l)) with (x :: delete j l).
    rewrite !bind_cons. f_equal. by apply IH.
Qed.

Lemma payloadWrites_elem images op :
  op ∈ payloadWrites images ↔
  ∃ image d, image ∈ images ∧ image_dataUrl image = Some d ∧ d ≠ ""
             ∧ op = Db.PutImage (image_id image) d.
Proof.
  unfold payloadWrites. rewrite list_elem_of_omap. split.
  - intros (image & Hin & H). destruct (image_dataUrl image) as [d|] eqn:E; [|done].
    destruct (JS.truthy d) eqn:T; [|done].
    apply bool_decide_eq_true in T. simplify_eq. by exists image, d.
  - intros (image & d & Hin & E & Hd & ->). exists image. split; [done|].
    rewrite E. unfold JS.truthy. by rewrite bool_decide_eq_true_2.
Qed.

Lemma migration_writes_are_puts project op :
  op ∈ (migrateProjectState project).2 → ∃ id d, op = Db.PutImage id d.
Proof.
  rewrite migrateProjectState_eq. cbn [snd].
  intros (article & Hop & _)%list_elem_of_bind.
  apply list_elem_of_bind in Hop as (section & Hop & _).
  destruct section as [|id title images]; cbn [sectionWrites] in Hop;
    [by apply elem_of_nil in Hop|].
  destruct (isLegacyImagesSection _); [|by apply elem_of_nil in Hop].
  apply payloadWrites_elem in Hop as (image & d & _ & _ & _ & ->). eauto.
Qed.

Lemma run_puts_keeps_key (ops : list Db.Op) (store : gmap string string) k :
  (∀ op, op ∈ ops → ∃ id d, op = Db.PutImage id d) →
  is_Some (store !! k) → is_Some (Db.run ops store !! k).
Proof.
  unfold Db.run. revert store. induction ops as [|op ops IH]; intros store Hops Hk; [done|].
  cbn [foldl]. apply IH.
  - intros op' Hop'. apply Hops. by right.
  - destruct (Hops op) as (id & d & ->); [by left|]. cbn.
    apply lookup_insert_is_Some'. by right.
Qed.



(** C7.  A section whose first image lacks the [dataUrl] key (a fields
    section and an empty images section included) comes out of the migration
    as the very same record, whatever its later images hold, and the
    migration issues exactly the image store operations it would issue if
    that section were not in the project. *)
Theorem section_without_marker_is_skipped
    (project : ProjectState) (i j : nat) (article : Article) (section : Section) :
  articles project !! i = Some article →
  article_sections article !! j = Some section →
  ¬ first_image_has_payload_key section →
  (∃ article', articles (migrateProjectState project).1 !! i = Some article'
               ∧ article_sections article' !! j = Some section)
  ∧ (migrateProjectState project).2
    = (migrateProjectState (without_section i j project)).2.
Proof.
  intros Hi Hj Hmarker.
  assert (isLegacyImagesSection section = false) as Hlegacy.
  { destruct (isLegacyImagesSection section) eqn:E; [|done].
    by apply isLegacyImagesSection_spec in E. }
  rewrite !migrateProjectState_eq. cbn [fst snd with_articles articles]. split.
  - exists (migratedArticle article). split.
    + by rewrite list_lookup_fmap, Hi.
    + unfold migratedArticle. cbn [article_with_sections article_sections].
      rewrite list_lookup_fmap, Hj. cbn [fmap option_fmap option_map].
      by rewrite migratedSection_not_legacy.
  - unfold without_section. cbn [with_articles articles]. symmetry.
    eapply bind_alter_same; [done|].
    unfold articleWrites. cbn [article_with_sections article_sections].
    eapply bind_delete_nil; [done|]. by apply sectionWrites_not_legacy.
Qed.


Lemma section_without_marker_is_skipped_witness :
  (∃ article', articles (migrateProjectState legacy_project).1 !! 0%nat = Some article'
               ∧ article_sections article' !! 1%nat
                 = Some (ImagesSection "s2" "Mista"
                           [mkImageField "i4" "quatro" None;
                            mkImageField "i5" "cinco" (Some "data:5")]))
  ∧ (migrateProjectState legacy_project).2
    = (migrateProjectState (without_section 0 1 legacy_project)).2.
Proof.
  apply (section_without_marker_is_skipped
           legacy_project 0 1 legacy_article (ImagesSection "s2" "Mista" mixed_gallery));
    [reflexivity|reflexivity|].
  intros (id & title & first & rest & [= <- <- <- <-] & [d Hd]). discriminate Hd.
Defined.

Example migrate_legacy_project :
  migrateProjectState legacy_project
  = (with_articles legacy_project
       [mkArticle "a1" "Artigo" "f1" 0
          [ImagesSection "s1" "Galeria"
             [mkImageField "i1" "um" None;
              mkImageField "i2" "dois" None;
              mkImageField "i3" "tres" (Some "")];
           ImagesSection "s2" "Mista"
             [mkImageField "i4" "quatro" None;
              mkImageField "i5" "cinco" (Some "data:5")]]
          [] None],
     [Db.PutImage "i1" "data:1"]).
Proof. vm_compute. reflexivity. Qed.

(** ** Operations on an id that is not in the collection *)

Lemma fmap_no_match {A} (P : A → Prop) `{∀ x, Decision (P x)} (g : A → A) (l : list A) :
  (∀ x, x ∈ l → ¬ P x) → (λ x, if bool_decide (P x) then g x else x) <$> l = l.
Proof.
  intros Hl. induction l as [|x l IH]; [done|]. rewrite fmap_cons. f_equal.
  - rewrite bool_decide_eq_false_2; [done|]. apply Hl. by left.
  - apply IH. intros y Hy. apply Hl. by right.
Qed.

Lemma filter_all_id {A} (P : A → Prop) `{∀ x, Decision (P x)} (l : list A) :
  (∀ x, x ∈ l → P x) → filter P l = l.
Proof.
  intros Hl. induction l as [|x l IH]; [done|].
  rewrite filter_cons_True by (apply Hl; by left).
  f_equal. apply IH. intros y Hy. apply Hl. by right.
Qed.

Lemma filter_none_nil {A} (P : A → Prop) `{∀ x, Decision (P x)} (l : list A) :
  (∀ x, x ∈ l → ¬ P x) → filter P l = [].
Proof.
  intros Hl. induction l as [|x l IH]; [done|].
  rewrite filter_cons_False by (apply Hl; by left).
  apply IH. intros y Hy. apply Hl. by right.
Qed.

Lemma with_folders_same p : with_folders p (folders p) = p.
Proof. by destruct p. Qed.

Lemma with_articles_same p : with_articles p (articles p) = p.
Proof. by destruct p. Qed.

(** The folder handlers leave the state as it is, and do not raise, when
    the id is that of no folder. *)
Lemma folder_handlers_ignore_absent_id (id : string) (prev : ProjectState) :
  folder_absent id prev →
  (∀ newName newColor, handleUpdateFolder id newName newColor prev = prev)
  ∧ (∀ fuel selected,
        handleDeleteFolder fuel selected id prev
        = Some (mkDeleteFolderResult prev [] selected))
  ∧ (∀ direction, handleReorderFolder id direction prev = Some prev).
Proof.
  intros Habs.
  assert (find (λ f, folder_id f = id) (folders prev) = None) as Hfind
    by (apply find_None_all; exact Habs).
  split_and!.
  - intros. unfold handleUpdateFolder. rewrite fmap_no_match by exact Habs.
    apply with_folders_same.
  - intros. unfold handleDeleteFolder. by rewrite Hfind.
  - intros. unfold handleReorderFolder. cbv zeta. by rewrite Hfind.
Qed.

(** So do the article handlers that map over the articles or look the
    article up first. *)
Lemma article_handlers_ignore_absent_id (id : string) (prev : ProjectState) :
  article_absent id prev →
  (∀ newTitle, handleUpdateArticleTitle id newTitle prev = prev)
  ∧ (∀ updatedArticle, article_id updatedArticle = id →
        handleSaveArticle updatedArticle prev = prev)
  ∧ (∀ direction, handleReorderArticle id direction prev = prev).
Proof.
  intros Habs.
  assert (find (λ a, article_id a = id) (articles prev) = None) as Hfind
    by (apply find_None_all; exact Habs).
  split_and!.
  - intros. unfold handleUpdateArticleTitle. rewrite fmap_no_match by exact Habs.
    apply with_articles_same.
  - intros updated <-. unfold handleSaveArticle.
    rewrite (fmap_no_match (λ a, article_id a = article_id updated) (λ _, updated))
      by exact Habs.
    apply with_articles_same.
  - intros. unfold handleReorderArticle. cbv zeta. by rewrite Hfind.
Qed.

(** [handleDeleteArticle] on an absent id still walks the articles whose
    [parentId] is that id; it leaves the state alone when there is none. *)
Lemma deleteArticle_absent_id_without_children
    (fuel : nat) (selected : option string) (id : string) (prev : ProjectState) :
  article_absent id prev →
  (∀ a, a ∈ articles prev → article_parentId a ≠ Some id) →
  ∃ result,
    handleDeleteArticle (S fuel) selected id prev = Some result
    ∧ da_state result = prev ∧ da_ops result = [].
Proof.
  intros Habs Hchildren. unfold handleDeleteArticle.
  rewrite (proj2 (find_None_all _ _) Habs).
  cbn [deleteArticle_loop JSSet.of_array foldl].
  rewrite (filter_none_nil (λ a, article_parentId a = Some id)) by exact Hchildren.
  cbn [foldl].
  assert (deleteArticle_loop fuel (articles prev) [] (JSSet.add id []) []
          = Some (JSSet.add id [], [])) as -> by by destruct fuel.
  cbn [mbind option_bind]. eexists. split; [reflexivity|].
  cbn [da_state da_ops]. split; [|reflexivity].
  rewrite filter_all_id; [apply with_articles_same|].
  intros a Ha. rewrite Is_true_has, elem_of_add, elem_of_nil.
  intros [E|[]]. by apply (Habs a Ha).
Qed.

(** C8 at the failing input.  No article of [orphan_project] has the id
    ["ghost"], yet [handleDeleteArticle "ghost"] removes article ["b"] and
    issues the delete of its image, whatever the bound on the loop. *)
Theorem deleteArticle_absent_id_removes_orphans (fuel : nat) :
  article_absent "ghost" orphan_project
  ∧ handleDeleteArticle (S (S fuel)) None "ghost" orphan_project
    = Some (mkDeleteArticleResult (with_articles orphan_project [])
                                  [Db.DeleteImage "img"] None).
Proof.
  split.
  - intros a Ha. unfold orphan_project in Ha. cbn in Ha.
    apply list_elem_of_singleton in Ha as ->. done.
  - destruct fuel; reflexivity.
Qed.

(** ** Loading a backup that fails validation *)

(** A rejected file raises the alert and leaves the project and the
    selection as they were.  The image store is left as it was when the file
    is in the old format; in the current format it has already been cleared
    and refilled from the file. *)
Lemma rejected_backup_keeps_project (loadedData : LoadedData) (app : AppState) :
  fails_validation loadedData →
  projectState (handleLoadBackup (Some loadedData) app) = projectState app
  ∧ selectedFolderId (handleLoadBackup (Some loadedData) app) = selectedFolderId app
  ∧ selectedArticleId (handleLoadBackup (Some loadedData) app) = selectedArticleId app
  ∧ alerts (handleLoadBackup (Some loadedData) app)
    = alerts app ++ ["Arquivo de backup inválido."]
  ∧ imageStore (handleLoadBackup (Some loadedData) app)
    = match loaded_projectState loadedData, loaded_images loadedData with
      | Some _, Some images => Db.run [Db.ClearImages; Db.PutAllImages images] (imageStore app)
      | _, _ => imageStore app
      end.
Proof.
  unfold fails_validation, loadedProject_of, handleLoadBackup.
  destruct (loaded_projectState loadedData) as [project|],
           (loaded_images loadedData) as [images|]; cbv beta iota zeta.
  all: intros [E|E]; rewrite E; try done.
  all: by destruct (loaded_folders _).
Qed.

(** C2 at the failing input.  The file is rejected with the alert and the
    project is kept, but the image the store held is gone. *)
Theorem rejected_backup_clears_image_store :
  fails_validation archive_without_articles
  ∧ projectState (handleLoadBackup (Some archive_without_articles) app_with_image)
    = projectState app_with_image
  ∧ alerts (handleLoadBackup (Some archive_without_articles) app_with_image)
    = ["Arquivo de backup inválido."]
  ∧ imageStore app_with_image !! "i9" = Some "data:9"
  ∧ imageStore (handleLoadBackup (Some archive_without_articles) app_with_image) !! "i9"
    = None.
Proof.
  split_and!; [by right|reflexivity|reflexivity|reflexivity|reflexivity].
Qed.

(** ** Deleting a folder *)

Section DeleteFolderLoop.
Context (fs : list Folder).

Lemma elem_of_child_ids c x :
  c ∈ child_ids fs x ↔ ∃ f, f ∈ fs ∧ folder_parentId f = Some x ∧ c = folder_id f.
Proof.
  unfold child_ids. rewrite list_elem_of_fmap. split.
  - intros (f & -> & [Hp Hf]%list_elem_of_filter). eauto.
  - intros (f & Hf & Hp & ->). exists f. split; [done|].
    by apply list_elem_of_filter.
Qed.

Lemma enqueue_children (children : list Folder) ids q :
  foldl (λ '(ids, q) child, (JSSet.add (folder_id child) ids, q ++ [folder_id child]))
        (ids, q) children
  = (foldl (λ s x, JSSet.add x s) ids (folder_id <$> children),
     q ++ (folder_id <$> children)).
Proof.
  revert ids q. induction children as [|c children IH]; intros ids q.
  - cbn. by rewrite app_nil_r.
  - cbn [foldl]. rewrite IH, fmap_cons, <- app_assoc. reflexivity.
Qed.

Lemma deleteFolder_loop_step fuel x q ids :
  deleteFolder_loop (S fuel) fs (x :: q) ids
  = deleteFolder_loop fuel fs (q ++ child_ids fs x)
      (foldl (λ s y, JSSet.add y s) ids (child_ids fs x)).
Proof. cbn [deleteFolder_loop]. by rewrite enqueue_children. Qed.

Lemma deleteFolder_loop_nil fuel ids : deleteFolder_loop fuel fs [] ids = Some ids.
Proof. by destruct fuel. Qed.

(** *** The loop ends when the parent graph has no cycle *)

Context (height : string → nat) (Hacyclic : parents_above height fs).

Lemma sum_list_with_ext_in {A} (f g : A → nat) (l : list A) :
  (∀ x, x ∈ l → f x = g x) → sum_list_with f l = sum_list_with g l.
Proof.
  induction l as [|x l IH]; intros Hfg; [done|]. cbn [sum_list_with].
  rewrite Hfg by left. rewrite IH; [done|]. intros y Hy. apply Hfg. by right.
Qed.

Lemma child_height c x : c ∈ child_ids fs x → (height c < height x)%nat.
Proof. intros (f & Hf & Hp & ->)%elem_of_child_ids. by apply Hacyclic. Qed.

Lemma no_child_at_height_0 x : height x = 0%nat → child_ids fs x = [].
Proof.
  intros E. destruct (child_ids fs x) as [|c cs] eqn:Ec; [done|].
  assert (c ∈ child_ids fs x) as Hc%child_height by (rewrite Ec; left). lia.
Qed.

Lemma iterations_stable n m x :
  (height x ≤ n)%nat → (height x ≤ m)%nat → iterations fs n x = iterations fs m x.
Proof.
  revert m x. induction n as [|n IH]; intros [|m] x Hn Hm; cbn [iterations].
  - done.
  - rewrite no_child_at_height_0 by lia. done.
  - rewrite no_child_at_height_0 by lia. done.
  - f_equal. apply sum_list_with_ext_in. intros c Hc%child_height.
    apply IH; lia.
Qed.

Lemma iterations_unfold x :
  iterations fs (height x) x = S (iterations_of fs height (child_ids fs x)).
Proof.
  unfold iterations_of. destruct (height x) as [|n] eqn:E; cbn [iterations].
  - rewrite no_child_at_height_0 by done. done.
  - f_equal. apply sum_list_with_ext_in. intros c Hc%child_height.
    apply iterations_stable; lia.
Qed.

Lemma iterations_of_app q1 q2 :
  iterations_of fs height (q1 ++ q2)
  = (iterations_of fs height q1 + iterations_of fs height q2)%nat.
Proof. apply sum_list_with_app. Qed.

Lemma iterations_of_cons x q :
  iterations_of fs height (x :: q)
  = S (iterations_of fs height (child_ids fs x) + iterations_of fs height q)%nat.
Proof.
  unfold iterations_of at 1. cbn [sum_list_with]. by rewrite iterations_unfold.
Qed.

Lemma deleteFolder_loop_terminates fuel q ids :
  (iterations_of fs height q ≤ fuel)%nat → is_Some (deleteFolder_loop fuel fs q ids).
Proof.
  revert q ids. induction fuel as [|fuel IH]; intros [|x q] ids Hfuel.
  - by eexists.
  - rewrite iterations_of_cons in Hfuel. lia.
  - by eexists.
  - rewrite deleteFolder_loop_step. apply IH.
    rewrite iterations_of_cons in Hfuel. rewrite iterations_of_app. lia.
Qed.
End DeleteFolderLoop.

Section DeleteFolderSubtree.
Context (fs : list Folder) (root : string).

Lemma loop_invariant_step x q ids :
  loop_invariant fs root (x :: q) ids →
  loop_invariant fs root (q ++ child_ids fs x)
                 (foldl (λ s y, JSSet.add y s) ids (child_ids fs x)).
Proof.
  intros (Hq & Hsub & Hclosed). split_and!.
  - intros y [Hy|Hy]%elem_of_app; apply elem_of_add_all; [left|by right].
    apply Hq. by right.
  - intros y [Hy|Hy]%elem_of_add_all; [by apply Hsub|].
    apply elem_of_child_ids in Hy as (f & Hf & Hp & ->).
    eapply in_subtree_child; [done..|]. apply Hsub, Hq. by left.
  - intros y [Hy|Hy]%elem_of_add_all.
    + destruct (Hclosed y Hy) as [[->|Hin]%elem_of_cons|Hc].
      * right. intros c Hc. apply elem_of_add_all. by right.
      * left. apply elem_of_app. by left.
      * right. intros c Hc'. apply elem_of_add_all. left. by apply Hc.
    + left. apply elem_of_app. by right.
Qed.

Lemma deleteFolder_loop_invariant fuel q ids removed :
  deleteFolder_loop fuel fs q ids = Some removed →
  loop_invariant fs root q ids →
  (∀ x, x ∈ ids → x ∈ removed) ∧ loop_invariant fs root [] removed.
Proof.
  revert q ids. induction fuel as [|fuel IH]; intros [|x q] ids Hloop Hinv.
  - injection Hloop as <-. done.
  - done.
  - injection Hloop as <-. done.
  - rewrite deleteFolder_loop_step in Hloop.
    destruct (IH _ _ Hloop (loop_invariant_step _ _ _ Hinv)) as [Hsub Hres].
    split; [|done]. intros y Hy. apply Hsub, elem_of_add_all. by left.
Qed.

(** The loop started as [handleDeleteFolder] starts it collects exactly
    the subtree of [root]. *)
Lemma deleteFolder_loop_collects_subtree fuel removed :
  deleteFolder_loop fuel fs [root] (JSSet.of_array [root]) = Some removed →
  ∀ x, x ∈ removed ↔ in_subtree fs root x.
Proof.
  intros Hloop. rewrite of_array_singleton in Hloop.
  apply deleteFolder_loop_invariant in Hloop as (Hroot & _ & Hsub & Hclosed).
  - intros x. split; [apply Hsub|].
    induction 1 as [|f p Hf Hp _ IH].
    + apply Hroot. by left.
    + destruct (Hclosed p IH) as [[]%elem_of_nil|Hc].
      apply Hc, elem_of_child_ids. eauto.
  - split_and!.
    + done.
    + intros x ->%list_elem_of_singleton. constructor.
    + intros x ->%list_elem_of_singleton. left. by left.
Qed.

End DeleteFolderSubtree.

Lemma elem_of_deleteImagesOf (arts : list Article) (op : Db.Op) :
  op ∈ deleteImagesOf arts ↔
  ∃ a id title images image,
    a ∈ arts ∧ ImagesSection id title images ∈ article_sections a
    ∧ image ∈ images ∧ op = Db.DeleteImage (image_id image).
Proof.
  unfold deleteImagesOf. rewrite list_elem_of_bind. split.
  - intros (a & (section & Hop & Hs)%list_elem_of_bind & Ha).
    destruct section as [|id title images]; [by apply elem_of_nil in Hop|].
    apply list_elem_of_fmap in Hop as (image & -> & Himage).
    by exists a, id, title, images, image.
  - intros (a & id & title & images & image & Ha & Hs & Himage & ->).
    exists a. split; [|done]. apply list_elem_of_bind.
    exists (ImagesSection id title images). split; [|done].
    apply list_elem_of_fmap. by exists image.
Qed.

(** [handleDeleteFolder] once the folder is found and the loop has ended. *)
Lemma handleDeleteFolder_found fuel selected id prev folderToDelete removed :
  find (λ f, folder_id f = id) (folders prev) = Some folderToDelete →
  deleteFolder_loop fuel (folders prev) [id] (JSSet.of_array [id]) = Some removed →
  ∃ result,
    handleDeleteFolder fuel selected id prev = Some result
    ∧ folders (df_state result) = filter (λ f, folder_id f ∉ removed) (folders prev)
    ∧ articles (df_state result)
      = filter (λ a, article_folderId a ∉ removed) (articles prev)
    ∧ expandedFolderIds (df_state result) = expandedFolderIds prev
    ∧ expandedArticleIds (df_state result) = expandedArticleIds prev
    ∧ df_ops result
      = deleteImagesOf (filter (λ a, article_folderId a ∈ removed) (articles prev))
    ∧ df_selectedFolderId result
      = match selected with
        | Some sel =>
            if JS.truthy sel && JSSet.has sel removed then
              match folder_parentId folderToDelete with
              | Some parent =>
                  if JS.truthy parent && negb (JSSet.has parent removed)
                  then Some parent
                  else folder_id <$> head (folders (df_state result))
              | None => folder_id <$> head (folders (df_state result))
              end
            else selected
        | None => selected
        end.
Proof.
  intros Hfind Hloop. unfold handleDeleteFolder. rewrite Hfind, Hloop.
  cbn [mbind option_bind]. eexists. split; [reflexivity|].
  cbn [df_state df_ops df_selectedFolderId folders articles
       expandedFolderIds expandedArticleIds].
  split_and!.
  - apply list_filter_iff. intros f. by rewrite Is_true_has.
  - apply list_filter_iff. intros a. by rewrite Is_true_has.
  - done.
  - done.
  - f_equal. apply list_filter_iff. intros a. by rewrite Is_true_has.
  - destruct selected as [sel|]; [|done].
    destruct (JS.truthy sel && JSSet.has sel removed); [|done].
    destruct (folder_parentId folderToDelete) as [parent|].
    + destruct (JS.truthy parent && negb (JSSet.has parent removed)); [done|].
      by destruct (filter _ (folders prev)).
    + by destruct (filter _ (folders prev)).
Qed.

Lemma find_is_Some {A} (P : A → Prop) `{∀ x, Decision (P x)} (l : list A) x :
  x ∈ l → P x → is_Some (find P l).
Proof.
  intros Hx HP. destruct (find P l) eqn:E; [by eexists|].
  rewrite find_None_all in E. by destruct (E x Hx).
Qed.

(** C1.  When the parent graph of the folders has no cycle and [id] is the
    id of a folder, [handleDeleteFolder id] ends (for every bound on the loop
    from some bound on) and performs the cascading delete of [id]. *)
Theorem deleteFolder_cascades
    (height : string → nat) (selected : option string) (id : string)
    (prev : ProjectState) :
  parents_above height (folders prev) →
  (∃ f, f ∈ folders prev ∧ folder_id f = id) →
  ∃ fuel0, ∀ fuel, (fuel0 ≤ fuel)%nat →
    ∃ result removed,
      handleDeleteFolder fuel selected id prev = Some result
      ∧ cascade_of prev id removed result.
Proof.
  intros Hacyclic (f & Hf & Hid).
  destruct (find_is_Some (λ f, folder_id f = id) _ f Hf Hid) as [folderToDelete Hfind].
  exists (iterations_of (folders prev) height [id]). intros fuel Hfuel.
  destruct (deleteFolder_loop_terminates (folders prev) height Hacyclic
              fuel [id] (JSSet.of_array [id]) Hfuel) as [removed Hloop].
  destruct (handleDeleteFolder_found fuel selected id prev folderToDelete removed
              Hfind Hloop) as (result & Hres & Hfs & Harts & Hefs & Heas & Hops & _).
  pose proof (deleteFolder_loop_collects_subtree _ _ _ _ Hloop) as Hremoved.
  exists result, removed. split; [done|]. unfold cascade_of. split_and!; try done.
  - intros op. rewrite Hops, elem_of_deleteImagesOf. split.
    + intros (a & sid & title & images & image & [? ?]%list_elem_of_filter & ? & ? & ->).
      by exists a, sid, title, images, image.
    + intros (a & sid & title & images & image & ? & ? & ? & ? & ->).
      exists a, sid, title, images, image. split_and!; try done.
      by apply list_elem_of_filter.
  - intros a. rewrite Harts. intros [Hout _]%list_elem_of_filter.
    by rewrite <- Hremoved.
Qed.


Lemma tree_project_acyclic : parents_above tree_height (folders tree_project).
Proof.
  intros f p Hf Hp. unfold tree_project in Hf. cbn [folders] in Hf.
  repeat (apply elem_of_cons in Hf as [->|Hf]); [..|by apply elem_of_nil in Hf];
    cbn in Hp; simplify_eq; compute; lia.
Defined.

Example deleteFolder_tree_project :
  handleDeleteFolder 4 (Some "g") "c" tree_project
  = Some (mkDeleteFolderResult
            (mkProjectState
               [mkFolder "r" "Raiz" "#aaaaaa" None 0;
                mkFolder "o" "Outros" "#aaaaaa" None 1]
               [mkArticle "a2" "Dois" "o" 0
                  [ImagesSection "s2" "Galeria" [mkImageField "p2" "mapa" None]] [] None]
               ["r"; "c"] [])
            [Db.DeleteImage "p1"; Db.DeleteImage "p3"]
            (Some "r")).
Proof. vm_compute. reflexivity. Qed.

Lemma deleteFolder_cascades_witness :
  ∃ fuel0, ∀ fuel, (fuel0 ≤ fuel)%nat →
    ∃ result removed,
      handleDeleteFolder fuel (Some "g") "c" tree_project = Some result
      ∧ cascade_of tree_project "c" removed result.
Proof.
  apply (deleteFolder_cascades tree_height (Some "g") "c" tree_project).
  - exact tree_project_acyclic.
  - exists (mkFolder "c" "Capitulos" "#aaaaaa" (Some "r") 0). split; [|reflexivity].
    unfold tree_project. cbn [folders]. rewrite !elem_of_cons. tauto.
Defined.



(** ** Sorting by [sortOrder] *)

Section SortByFacts.
Context {A : Type} (key : A → Z).

Global Instance key_le_trans : Transitive (key_le key).
Proof. unfold key_le. intros a b c. lia. Qed.

Lemma insert_by_Permutation x l : insert_by key x l ≡ₚ x :: l.
Proof.
  induction l as [|y l IH]; [done|]. cbn [insert_by]. case_bool_decide; [done|].
  rewrite IH. apply Permutation_swap.
Qed.

Lemma sort_by_Permutation l : sort_by key l ≡ₚ l.
Proof.
  induction l as [|x l IH]; [done|].
  cbn [sort_by foldr]. rewrite insert_by_Permutation. by f_equiv.
Qed.

Lemma insert_by_sorted x l :
  StronglySorted (key_le key) l → StronglySorted (key_le key) (insert_by key x l).
Proof.
  induction 1 as [|y l Hl IH Hy]; cbn [insert_by].
  - repeat constructor.
  - case_bool_decide as Hxy.
    + constructor; [by constructor|]. constructor; [done|].
      eapply Forall_impl; [exact Hy|]. unfold key_le in *. intros z. cbn. lia.
    + constructor; [done|]. rewrite insert_by_Permutation.
      constructor; [unfold key_le; lia|done].
Qed.

Lemma sort_by_sorted l : StronglySorted (key_le key) (sort_by key l).
Proof.
  induction l as [|x l IH]; [constructor|]. by apply insert_by_sorted.
Qed.

Lemma elem_of_sort_by x l : x ∈ sort_by key l ↔ x ∈ l.
Proof. by rewrite sort_by_Permutation. Qed.

Lemma length_sort_by l : length (sort_by key l) = length l.
Proof. by rewrite sort_by_Permutation. Qed.

(** In a sorted list an earlier element has the smaller key. *)
Lemma sorted_lookup_le l i j a b :
  StronglySorted (key_le key) l → l !! i = Some a → l !! j = Some b → (i < j)%nat →
  key a ≤ key b.
Proof.
  intros Hl. revert i j. induction Hl as [|y l Hl IH Hy]; intros i j Hi Hj Hij.
  - done.
  - destruct j as [|j]; [lia|]. destruct i as [|i].
    + injection Hi as ->. rewrite Forall_forall in Hy.
      apply Hy. by eapply list_elem_of_lookup_2.
    + eapply (IH i j); [done..|lia].
Qed.

(** Two sorted arrangements of the same elements are equal when no two of
    the elements share a key. *)
Lemma sorted_unique l1 l2 :
  (∀ a b, a ∈ l1 → b ∈ l1 → key a = key b → a = b) →
  StronglySorted (key_le key) l1 → StronglySorted (key_le key) l2 → l1 ≡ₚ l2 → l1 = l2.
Proof.
  intros Hinj Hl1 Hl2 Hperm. apply (StronglySorted_unique_strong (key_le key)); [|done..].
  unfold key_le. intros a b Ha Hb ? ?. apply Hinj; [done| |lia]. by rewrite Hperm.
Qed.
End SortByFacts.

Lemma lookup_pair_split {A} (l : list A) j a b :
  l !! j = Some a → l !! S j = Some b →
  l = take j l ++ a :: b :: drop (S (S j)) l.
Proof.
  intros Ha Hb. rewrite <- (take_drop_middle l j a Ha) at 1. f_equal. f_equal.
  rewrite <- (take_drop_middle l (S j) b Hb) at 1.
  rewrite drop_app_length'; [done|]. rewrite length_take.
  apply lookup_lt_Some in Hb. lia.
Qed.

(** ** Reordering among siblings *)

Lemma at_index_nat {A} (l : list A) (i : nat) : at_index l (Z.of_nat i) = l !! i.
Proof.
  unfold at_index. rewrite bool_decide_eq_true_2 by lia. by rewrite Nat2Z.id.
Qed.

Section ReorderAsWritten.
Context {N G : Type} `{TreeNode N G}.

Lemma found_among_siblings id (nodes : list N) x :
  find (λ n, node_id n = id) nodes = Some x →
  ∃ i y, list_find (λ n, node_id n = id) (sorted_siblings x nodes) = Some (i, y).
Proof.
  intros [Hx Hid]%find_Some_elem.
  destruct (list_find_elem_of (λ n, node_id n = id) (sorted_siblings x nodes) x)
    as [[i y] E]; [|done|by exists i, y].
  apply elem_of_sort_by, list_elem_of_filter. done.
Qed.

Lemma targetSibling_at_adjacent direction (siblings : list N) (i : nat) :
  targetSibling_at direction siblings (Z.of_nat i)
  = adjacent_sibling direction i siblings.
Proof.
  unfold targetSibling_at, adjacent_sibling. destruct direction.
  - rewrite bool_decide_eq_true_2 by done. cbn [andb]. destruct i as [|j].
    + rewrite bool_decide_eq_false_2 by lia.
      by rewrite (bool_decide_eq_false_2 (Up = Down)).
    + rewrite bool_decide_eq_true_2 by lia.
      replace (Z.of_nat (S j) - 1) with (Z.of_nat j) by lia. apply at_index_nat.
  - rewrite (bool_decide_eq_false_2 (Down = Up)) by done.
    rewrite (bool_decide_eq_true_2 (Down = Down)) by done. cbn [andb].
    case_bool_decide as Hlt.
    + replace (Z.of_nat i + 1) with (Z.of_nat (S i)) by lia. apply at_index_nat.
    + symmetry. apply lookup_ge_None. lia.
Qed.

(** In the branches where [handleReorderFolder] reads
    [targetSibling.sortOrder], [targetSibling] is defined. *)
Lemma targetSibling_defined direction (siblings : list N) (i : nat) :
  (i < length siblings)%nat →
  (bool_decide (direction = Up) && bool_decide (0 < Z.of_nat i) = true →
   is_Some (at_index siblings (Z.of_nat i - 1)))
  ∧ (bool_decide (direction = Down)
     && bool_decide (Z.of_nat i < Z.of_nat (length siblings) - 1) = true →
     is_Some (at_index siblings (Z.of_nat i + 1))).
Proof.
  intros Hi. split.
  - intros [_ Hpos%bool_decide_eq_true]%andb_true_iff.
    replace (Z.of_nat i - 1) with (Z.of_nat (i - 1)) by lia.
    rewrite at_index_nat. apply lookup_lt_is_Some. lia.
  - intros [_ Hlt%bool_decide_eq_true]%andb_true_iff.
    replace (Z.of_nat i + 1) with (Z.of_nat (S i)) by lia.
    rewrite at_index_nat. apply lookup_lt_is_Some. lia.
Qed.
End ReorderAsWritten.

(** [handleReorderFolder] never raises, and is [reorder] on the folders. *)
Lemma handleReorderFolder_reorder id direction prev :
  handleReorderFolder id direction prev
  = Some (with_folders prev (reorder id direction (folders prev))).
Proof.
  unfold handleReorderFolder, reorder, reorder_target. cbv zeta.
  destruct (find (λ f, folder_id f = id) (folders prev)) as [x|] eqn:Hfind.
  2: { cbn. rewrite Hfind. cbn. by rewrite with_folders_same. }
  assert (find (λ n : Folder, node_id n = id) (folders prev) = Some x) as Hfind'
    by exact Hfind.
  destruct (found_among_siblings id (folders prev) x Hfind') as (i & y & Hi).
  pose proof (lookup_lt_Some _ _ _ (proj1 (proj1 (list_find_Some _ _ _ _) Hi))) as Hlt.
  destruct (targetSibling_defined direction (sorted_siblings x (folders prev)) i Hlt)
    as [Hup Hdown].
  pose proof (targetSibling_at_adjacent direction (sorted_siblings x (folders prev)) i)
    as Htarget.
  unfold targetSibling_at in Htarget.
  change (find (λ n, node_id n = id) (folders prev))
    with (find (λ f, folder_id f = id) (folders prev)).
  rewrite Hfind. cbn [mbind option_bind].
  change (sort_by folder_sortOrder
            (filter (λ f, folder_parentId f = folder_parentId x) (folders prev)))
    with (sorted_siblings x (folders prev)).
  change (list_find (λ f, folder_id f = id) (sorted_siblings x (folders prev)))
    with (list_find (λ n, node_id n = id) (sorted_siblings x (folders prev))).
  unfold findIndex.
  change (list_find (λ f, folder_id f = id) (sorted_siblings x (folders prev)))
    with (list_find (λ n, node_id n = id) (sorted_siblings x (folders prev))).
  rewrite Hi. cbn [mbind option_bind]. cbv beta iota.
  rewrite <- Htarget.
  destruct (bool_decide (direction = Up) && bool_decide (0 < Z.of_nat i)) eqn:E1.
  - destruct (Hup eq_refl) as [t ->]. reflexivity.
  - destruct (bool_decide (direction = Down)
              && bool_decide (Z.of_nat i < Z.of_nat (length (sorted_siblings x (folders prev))) - 1))
      eqn:E2.
    + destruct (Hdown eq_refl) as [t ->]. reflexivity.
    + cbn. by rewrite with_folders_same.
Qed.

(** [handleReorderArticle] is [reorder] on the articles. *)
Lemma handleReorderArticle_reorder id direction prev :
  handleReorderArticle id direction prev
  = with_articles prev (reorder id direction (articles prev)).
Proof.
  unfold handleReorderArticle, reorder, reorder_target. cbv zeta.
  destruct (find (λ a, article_id a = id) (articles prev)) as [x|] eqn:Hfind.
  2: { cbn. rewrite Hfind. cbn. by rewrite with_articles_same. }
  assert (find (λ n : Article, node_id n = id) (articles prev) = Some x) as Hfind'
    by exact Hfind.
  assert (sort_by (λ a, JS.nullish_zero (article_sortOrder a))
            (filter (λ a, article_parentId a = article_parentId x
                          ∧ article_folderId a = article_folderId x) (articles prev))
          = sorted_siblings x (articles prev)) as ->.
  { unfold sorted_siblings. f_equal. apply list_filter_iff. intros a. cbn.
    split; [intros [-> ->]|intros [= -> ->]]; done. }
  destruct (found_among_siblings id (articles prev) x Hfind') as (i & y & Hi).
  pose proof (targetSibling_at_adjacent direction (sorted_siblings x (articles prev)) i)
    as Htarget.
  unfold targetSibling_at in Htarget.
  change (find (λ n, node_id n = id) (articles prev))
    with (find (λ a, article_id a = id) (articles prev)).
  rewrite Hfind. cbn [mbind option_bind].
  unfold findIndex.
  change (list_find (λ a, article_id a = id) (sorted_siblings x (articles prev)))
    with (list_find (λ n, node_id n = id) (sorted_siblings x (articles prev))).
  rewrite Hi. cbn [mbind option_bind]. cbv beta iota.
  rewrite bool_decide_eq_false_2 by lia.
  rewrite Htarget.
  destruct (adjacent_sibling direction i (sorted_siblings x (articles prev))) as [t|].
  - reflexivity.
  - cbn. by rewrite with_articles_same.
Qed.

Lemma fmap_fixed {A} (f : A → A) (l : list A) :
  (∀ x, x ∈ l → f x = x) → f <$> l = l.
Proof.
  intros Hf. induction l as [|x l IH]; [done|]. rewrite fmap_cons, Hf by left.
  f_equal. apply IH. intros y Hy. apply Hf. by right.
Qed.

Lemma NoDup_fmap_inj_on {A B} (f : A → B) (l : list A) a b :
  NoDup (f <$> l) → a ∈ l → b ∈ l → f a = f b → a = b.
Proof.
  induction l as [|x l IH]; intros Hnd Ha Hb Hab; [by apply elem_of_nil in Ha|].
  rewrite fmap_cons in Hnd. apply NoDup_cons in Hnd as [Hx Hnd].
  apply elem_of_cons in Ha as [->|Ha]; apply elem_of_cons in Hb as [->|Hb].
  - done.
  - destruct Hx. rewrite Hab. by apply list_elem_of_fmap_2.
  - destruct Hx. rewrite <- Hab. by apply list_elem_of_fmap_2.
  - by apply IH.
Qed.

Section ReorderFacts.
Context {N G : Type} `{TreeNode N G}.
Context (nodes : list N) (Hids : NoDup (node_id <$> nodes)).

Lemma same_id a b : a ∈ nodes → b ∈ nodes → node_id a = node_id b → a = b.
Proof. by apply NoDup_fmap_inj_on. Qed.

Lemma NoDup_nodes : NoDup nodes.
Proof. by eapply NoDup_fmap_1. Qed.

Lemma elem_of_sorted_siblings x s :
  s ∈ sorted_siblings x nodes ↔ s ∈ nodes ∧ node_group s = node_group x.
Proof.
  unfold sorted_siblings. rewrite elem_of_sort_by, list_elem_of_filter. tauto.
Qed.

Lemma NoDup_sorted_siblings x : NoDup (sorted_siblings x nodes).
Proof.
  unfold sorted_siblings. rewrite sort_by_Permutation.
  apply NoDup_filter, NoDup_nodes.
Qed.

Lemma sorted_siblings_sorted x :
  StronglySorted (key_le node_sortOrder) (sorted_siblings x nodes).
Proof. apply sort_by_sorted. Qed.

Lemma find_by_id x :
  x ∈ nodes → find (λ n, node_id n = node_id x) nodes = Some x.
Proof.
  intros Hx.
  destruct (find_is_Some (λ n, node_id n = node_id x) nodes x Hx eq_refl) as [y Hy].
  rewrite Hy. f_equal. apply find_Some_elem in Hy as [Hy Hid]. by apply same_id.
Qed.

Lemma index_among_siblings x :
  x ∈ nodes →
  ∃ i, list_find (λ n, node_id n = node_id x) (sorted_siblings x nodes) = Some (i, x)
       ∧ sorted_siblings x nodes !! i = Some x.
Proof.
  intros Hx. destruct (found_among_siblings _ _ _ (find_by_id x Hx)) as (i & y & Hi).
  pose proof Hi as (Hl & Hid & _)%list_find_Some.
  assert (y = x) as ->.
  { apply same_id; [|done..].
    by apply (list_elem_of_lookup_2 _ i), elem_of_sorted_siblings in Hl as [? _]. }
  by exists i.
Qed.

(** What [reorder_target] answers, from the place of [x] among its sorted
    siblings. *)
Lemma reorder_target_at x i direction :
  x ∈ nodes →
  sorted_siblings x nodes !! i = Some x →
  reorder_target (node_id x) direction nodes
  = (λ t, (x, t)) <$> adjacent_sibling direction i (sorted_siblings x nodes).
Proof.
  intros Hx Hi. unfold reorder_target. rewrite (find_by_id x Hx).
  cbn [mbind option_bind].
  destruct (index_among_siblings x Hx) as (i' & -> & Hi').
  assert (i' = i) as ->
    by exact (NoDup_lookup _ _ _ _ (NoDup_sorted_siblings x) Hi' Hi).
  cbn [mbind option_bind]. by destruct (adjacent_sibling _ _ _).
Qed.

(** Exchanging equal sort orders changes nothing. *)
Lemma swap_sortOrder_same_key x t :
  x ∈ nodes → t ∈ nodes → node_sortOrder t = node_sortOrder x →
  swap_sortOrder x t nodes = nodes.
Proof.
  intros Hx Ht Hkey. unfold swap_sortOrder. apply fmap_fixed. intros n Hn.
  case_bool_decide as E1.
  - apply same_id in E1 as ->; [|done..]. rewrite Hkey. apply node_with_same.
  - case_bool_decide as E2; [|done].
    apply same_id in E2 as ->; [|done..]. rewrite <- Hkey. apply node_with_same.
Qed.

Lemma reorder_first_up x :
  x ∈ nodes → first_sibling nodes x → reorder (node_id x) Up nodes = nodes.
Proof.
  intros Hx Hfirst. unfold reorder.
  destruct (index_among_siblings x Hx) as (i & _ & Hi).
  rewrite (reorder_target_at x i Up Hx Hi). destruct i as [|j]; [done|].
  cbn [adjacent_sibling].
  destruct (sorted_siblings x nodes !! j) as [t|] eqn:Hj; [|done]. cbn.
  pose proof (list_elem_of_lookup_2 _ _ _ Hj) as [Ht Hg]%elem_of_sorted_siblings.
  apply swap_sortOrder_same_key; [done..|].
  pose proof (sorted_lookup_le _ _ j (S j) t x (sorted_siblings_sorted x) Hj Hi).
  specialize (Hfirst t Ht Hg). lia.
Qed.

Lemma reorder_last_down x :
  x ∈ nodes → last_sibling nodes x → reorder (node_id x) Down nodes = nodes.
Proof.
  intros Hx Hlast. unfold reorder.
  destruct (index_among_siblings x Hx) as (i & _ & Hi).
  rewrite (reorder_target_at x i Down Hx Hi). cbn [adjacent_sibling].
  destruct (sorted_siblings x nodes !! S i) as [t|] eqn:Hj; [|done]. cbn.
  pose proof (list_elem_of_lookup_2 _ _ _ Hj) as [Ht Hg]%elem_of_sorted_siblings.
  apply swap_sortOrder_same_key; [done..|].
  pose proof (sorted_lookup_le _ _ i (S i) x t (sorted_siblings_sorted x) Hi Hj).
  specialize (Hlast t Ht Hg). lia.
Qed.
End ReorderFacts.

Lemma filter_fmap_iff {A} (P Q : A → Prop) `{∀ x, Decision (P x)} `{∀ x, Decision (Q x)}
    (g : A → A) (l : list A) :
  (∀ n, Q (g n) ↔ P n) → filter Q (g <$> l) = g <$> filter P l.
Proof.
  intros HPQ. induction l as [|n l IH]; [done|].
  rewrite fmap_cons, !filter_cons, IH.
  destruct (decide (Q (g n))) as [HQ|HQ], (decide (P n)) as [HP|HP]; try done.
  - by apply HPQ in HQ.
  - by apply HPQ in HP.
Qed.

Section ReorderInverse.
Context {N G : Type} `{TreeNode N G}.
Context (nodes : list N) (Hids : NoDup (node_id <$> nodes)).

Context (Hkeys : sibling_sortOrders_unique nodes).
Context (x t : N) (l1 l2 : list N).
Context (Hx : x ∈ nodes).
Context (Hsibs : sorted_siblings x nodes = l1 ++ t :: x :: l2).

Local Abbreviation x' := (node_with_sortOrder x (node_sortOrder t)).
Local Abbreviation t' := (node_with_sortOrder t (node_sortOrder x)).
Local Abbreviation g :=
  (λ n, if bool_decide (node_id n = node_id x)
        then node_with_sortOrder n (node_sortOrder t)
        else if bool_decide (node_id n = node_id t)
        then node_with_sortOrder n (node_sortOrder x)
        else n).

Lemma sibling_in s : s ∈ l1 ++ t :: x :: l2 ↔ s ∈ nodes ∧ node_group s = node_group x.
Proof. rewrite <- Hsibs. apply elem_of_sorted_siblings. Qed.

Lemma target_in : t ∈ nodes ∧ node_group t = node_group x.
Proof. apply sibling_in. rewrite elem_of_app, elem_of_cons. tauto. Qed.

Lemma siblings_NoDup : NoDup (l1 ++ t :: x :: l2).
Proof. rewrite <- Hsibs. by apply NoDup_sorted_siblings. Qed.

Lemma target_other : t ≠ x.
Proof.
  pose proof siblings_NoDup as (_ & _ & [Ht _]%NoDup_cons)%NoDup_app.
  intros ->. apply Ht. by left.
Qed.

Lemma target_other_id : node_id t ≠ node_id x.
Proof.
  intros E. apply target_other. apply (same_id nodes Hids); [apply target_in|done..].
Qed.

Lemma target_below : node_sortOrder t < node_sortOrder x.
Proof.
  pose proof (sorted_siblings_sorted nodes x) as Hsorted. rewrite Hsibs in Hsorted.
  apply StronglySorted_app in Hsorted as (_ & _ & Hsorted).
  apply StronglySorted_cons in Hsorted as [Hle _].
  apply Forall_cons in Hle as [Hle _]. unfold key_le in Hle.
  destruct (decide (node_sortOrder t = node_sortOrder x)) as [E|]; [|lia].
  destruct target_other. apply Hkeys; [apply target_in|done|apply target_in|done].
Qed.

Lemma outside_fixed s : s ∈ l1 ++ l2 → s ∈ nodes ∧ g s = s.
Proof.
  intros Hs.
  assert (s ∈ l1 ++ t :: x :: l2) as Hin
    by (revert Hs; rewrite !elem_of_app, !elem_of_cons; tauto).
  pose proof (proj1 (sibling_in s) Hin) as [Hnodes _]. split; [done|].
  assert (s ≠ x ∧ s ≠ t) as [Hsx Hst].
  { pose proof siblings_NoDup as (_ & Hl1 & [Ht [Hx' _]%NoDup_cons]%NoDup_cons)%NoDup_app.
    apply elem_of_app in Hs as [Hs|Hs].
    - specialize (Hl1 s Hs). rewrite !elem_of_cons in Hl1. split; intros ->; tauto.
    - split; intros ->; [done|]. apply Ht. by right. }
  rewrite bool_decide_eq_false_2.
  - rewrite bool_decide_eq_false_2; [done|]. intros E.
    apply Hst, (same_id nodes Hids); [done|apply target_in|done].
  - intros E. by apply Hsx, (same_id nodes Hids).
Qed.

Lemma swapped_ids : node_id <$> swap_sortOrder x t nodes = node_id <$> nodes.
Proof.
  unfold swap_sortOrder. rewrite <- list_fmap_compose. apply list_fmap_ext.
  intros _ n _. cbn. repeat case_bool_decide; by rewrite ?node_id_with.
Qed.

Lemma swapped_x : g x = x'.
Proof. cbv beta. by rewrite bool_decide_eq_true_2. Qed.

Lemma swapped_t : g t = t'.
Proof.
  cbv beta. rewrite bool_decide_eq_false_2 by apply target_other_id.
  by rewrite bool_decide_eq_true_2.
Qed.

Lemma swapped_siblings_Permutation :
  filter (λ n, node_group n = node_group x') (swap_sortOrder x t nodes)
  ≡ₚ l1 ++ x' :: t' :: l2.
Proof.
  unfold swap_sortOrder.
  assert (filter (λ n, node_group n = node_group x') (g <$> nodes)
          = g <$> filter (λ n, node_group n = node_group x) nodes) as ->.
  { apply filter_fmap_iff. intros n. rewrite node_group_with.
    repeat case_bool_decide; by rewrite ?node_group_with. }
  rewrite <- (sort_by_Permutation node_sortOrder (filter _ nodes)).
  change (sort_by node_sortOrder (filter (λ n, node_group n = node_group x) nodes))
    with (sorted_siblings x nodes).
  rewrite Hsibs, fmap_app, !fmap_cons, swapped_x, swapped_t.
  rewrite (fmap_fixed _ l1), (fmap_fixed _ l2).
  - apply Permutation_app_head, Permutation_swap.
  - intros s Hs. apply outside_fixed, elem_of_app. by right.
  - intros s Hs. apply outside_fixed, elem_of_app. by left.
Qed.

Lemma outside_facts s :
  s ∈ l1 ++ l2 →
  s ∈ nodes ∧ node_group s = node_group x
  ∧ node_sortOrder s ≠ node_sortOrder x ∧ node_sortOrder s ≠ node_sortOrder t.
Proof.
  intros Hs. pose proof (outside_fixed s Hs) as [Hnodes Hfixed].
  assert (s ∈ l1 ++ t :: x :: l2) as [_ Hg]%sibling_in
    by (revert Hs; rewrite !elem_of_app, !elem_of_cons; tauto).
  destruct target_in as [Ht Hgt].
  assert (s ≠ x ∧ s ≠ t) as [Hsx Hst].
  { split; intros ->; revert Hfixed; cbv beta.
    - rewrite bool_decide_eq_true_2 by done. intros E.
      pose proof target_below. apply (f_equal node_sortOrder) in E.
      rewrite node_sortOrder_with in E. lia.
    - rewrite bool_decide_eq_false_2 by apply target_other_id.
      rewrite bool_decide_eq_true_2 by done. intros E.
      pose proof target_below. apply (f_equal node_sortOrder) in E.
      rewrite node_sortOrder_with in E. lia. }
  split_and!; [done..| |].
  - intros E. apply Hsx, Hkeys; done.
  - intros E. apply Hst, Hkeys; [done..|congruence|done].
Qed.

Lemma swapped_key_injective a b :
  a ∈ l1 ++ x' :: t' :: l2 → b ∈ l1 ++ x' :: t' :: l2 →
  node_sortOrder a = node_sortOrder b → a = b.
Proof.
  assert (∀ s, s ∈ l1 ++ x' :: t' :: l2 →
               s = x' ∨ s = t' ∨ s ∈ l1 ++ l2) as Hcases
    by (intros s; rewrite !elem_of_app, !elem_of_cons; tauto).
  pose proof target_below as Hlt.
  intros [->|[->|Ha]]%Hcases [->|[->|Hb]]%Hcases;
    rewrite ?node_sortOrder_with; intros E; try done; try lia.
  - apply outside_facts in Hb as (_ & _ & ? & ?). lia.
  - apply outside_facts in Hb as (_ & _ & ? & ?). lia.
  - apply outside_facts in Ha as (_ & _ & ? & ?). lia.
  - apply outside_facts in Ha as (_ & _ & ? & ?). lia.
  - apply outside_facts in Ha as (? & ? & _). apply outside_facts in Hb as (? & ? & _).
    apply Hkeys; [done..|congruence|done].
Qed.

Lemma swapped_sorted : StronglySorted (key_le node_sortOrder) (l1 ++ x' :: t' :: l2).
Proof.
  pose proof (sorted_siblings_sorted nodes x) as Hsorted. rewrite Hsibs in Hsorted.
  apply StronglySorted_app in Hsorted as (Hcross & Hl1 & Hsorted).
  apply StronglySorted_cons in Hsorted as [Ht Hsorted].
  apply StronglySorted_cons in Hsorted as [Hx' Hl2].
  apply Forall_cons in Ht as [Htx Ht].
  pose proof target_below as Hlt.
  rewrite Forall_forall in Ht, Hx'. unfold key_le in *.
  apply StronglySorted_app. split_and!; [|done|].
  - intros a b Ha Hb. unfold key_le.
    pose proof (Hcross a t Ha ltac:(left)) as Hat.
    pose proof (Hcross a x Ha ltac:(right; left)) as Hax.
    apply elem_of_cons in Hb as [->|Hb]; [by rewrite node_sortOrder_with|].
    apply elem_of_cons in Hb as [->|Hb]; [by rewrite node_sortOrder_with|].
    apply Hcross; [done|]. by do 2 right.
  - apply StronglySorted_cons. split.
    + apply Forall_cons. unfold key_le. rewrite !node_sortOrder_with. split; [lia|].
      apply Forall_forall. intros b Hb. by apply Ht.
    + apply StronglySorted_cons. split; [|done].
      apply Forall_forall. intros b Hb. unfold key_le.
      rewrite node_sortOrder_with. by apply Hx'.
Qed.

Lemma swapped_sorted_siblings :
  sorted_siblings x' (swap_sortOrder x t nodes) = l1 ++ x' :: t' :: l2.
Proof.
  symmetry. apply (sorted_unique node_sortOrder).
  - apply swapped_key_injective.
  - apply swapped_sorted.
  - apply sort_by_sorted.
  - unfold sorted_siblings. rewrite sort_by_Permutation.
    symmetry. apply swapped_siblings_Permutation.
Qed.

Lemma swap_back :
  swap_sortOrder x' t' (swap_sortOrder x t nodes) = nodes.
Proof.
  unfold swap_sortOrder. rewrite <- list_fmap_compose. apply fmap_fixed.
  intros n Hn. cbn. rewrite !node_id_with.
  destruct (decide (node_id n = node_id x)) as [E|E].
  - rewrite (bool_decide_eq_true_2 _ E), node_id_with, (bool_decide_eq_true_2 _ E).
    rewrite node_with_with, node_sortOrder_with.
    apply (same_id nodes Hids) in E as ->; [|done..]. apply node_with_same.
  - rewrite (bool_decide_eq_false_2 _ E).
    destruct (decide (node_id n = node_id t)) as [E'|E'].
    + rewrite (bool_decide_eq_true_2 _ E'), node_id_with.
      rewrite (bool_decide_eq_false_2 _ E), (bool_decide_eq_true_2 _ E').
      rewrite node_with_with, node_sortOrder_with.
      apply (same_id nodes Hids) in E' as ->; [|done|apply target_in].
      apply node_with_same.
    + rewrite (bool_decide_eq_false_2 _ E').
      by rewrite (bool_decide_eq_false_2 _ E), (bool_decide_eq_false_2 _ E').
Qed.

(** Moving [x] down right after it went up, past [t], puts every node back. *)
Lemma reorder_down_after_up :
  reorder (node_id x) Down (swap_sortOrder x t nodes) = nodes.
Proof.
  assert (x' ∈ swap_sortOrder x t nodes) as Hx'.
  { unfold swap_sortOrder. apply list_elem_of_fmap. exists x. split; [|done].
    by rewrite bool_decide_eq_true_2. }
  assert (sorted_siblings x' (swap_sortOrder x t nodes) !! length l1 = Some x') as Hi.
  { rewrite swapped_sorted_siblings. by apply list_lookup_middle. }
  assert (NoDup (node_id <$> swap_sortOrder x t nodes)) as Hids'
    by by rewrite swapped_ids.
  unfold reorder. rewrite <- (node_id_with x (node_sortOrder t)).
  rewrite (reorder_target_at _ Hids' x' (length l1) Down Hx' Hi).
  cbn [adjacent_sibling]. rewrite swapped_sorted_siblings.
  rewrite (lookup_app_r l1) by lia.
  replace (S (length l1) - length l1)%nat with 1%nat by lia. cbn.
  apply swap_back.
Qed.
End ReorderInverse.

Section ReorderUpDown.
Context {N G : Type} `{TreeNode N G}.
Context (nodes : list N) (Hids : NoDup (node_id <$> nodes)).
Context (Hkeys : sibling_sortOrders_unique nodes).

(** When some sibling of [x] has a smaller [sortOrder], moving [x] up
    changes the nodes and moving it down next restores them. *)
Lemma reorder_up_then_down x s :
  x ∈ nodes → s ∈ nodes → node_group s = node_group x →
  node_sortOrder s < node_sortOrder x →
  reorder (node_id x) Up nodes ≠ nodes
  ∧ reorder (node_id x) Down (reorder (node_id x) Up nodes) = nodes.
Proof.
  intros Hx Hs Hg Hlt.
  destruct (index_among_siblings nodes Hids x Hx) as (i & _ & Hi).
  destruct i as [|j].
  { assert (s ∈ sorted_siblings x nodes) as [k Hk]%list_elem_of_lookup_1
      by by apply elem_of_sorted_siblings.
    destruct k as [|k]; [rewrite Hi in Hk; injection Hk as ->; lia|].
    pose proof (sorted_lookup_le _ _ 0%nat (S k) x s
                  (sorted_siblings_sorted nodes x) Hi Hk). lia. }
  destruct (lookup_lt_is_Some_2 (sorted_siblings x nodes) j) as [t Hj].
  { apply lookup_lt_Some in Hi. lia. }
  pose proof (lookup_pair_split _ _ _ _ Hj Hi) as Hsplit.
  assert (reorder (node_id x) Up nodes = swap_sortOrder x t nodes) as ->.
  { unfold reorder. rewrite (reorder_target_at nodes Hids x (S j) Up Hx Hi).
    cbn [adjacent_sibling]. by rewrite Hj. }
  split; [|by eapply reorder_down_after_up].
  intros E. apply list_elem_of_lookup_1 in Hx as [k Hk].
  apply (f_equal (λ l, l !! k)) in E. unfold swap_sortOrder in E.
  rewrite list_lookup_fmap, Hk in E. cbn in E.
  rewrite bool_decide_eq_true_2 in E by done. injection E as E.
  apply (f_equal node_sortOrder) in E. rewrite node_sortOrder_with in E.
  pose proof (target_below nodes Hids Hkeys x t _ _ ltac:(by eapply list_elem_of_lookup_2)
                Hsplit). lia.
Qed.
End ReorderUpDown.

(** C4 (as amended).  In a state where ids are unique and no two siblings
    share a [sortOrder], when the folder has a sibling with a smaller
    [sortOrder] (it is not the first of its siblings), reordering it up
    changes the state and reordering it down right after gives the original
    state back; the same holds of an article among the articles that share
    its [parentId] and [folderId]. *)
Theorem reorder_up_then_down_restores (prev : ProjectState) :
  (∀ x s,
      NoDup (folder_id <$> folders prev) →
      folder_sortOrders_unique (folders prev) →
      x ∈ folders prev → s ∈ folders prev →
      folder_parentId s = folder_parentId x →
      folder_sortOrder s < folder_sortOrder x →
      ∃ moved,
        handleReorderFolder (folder_id x) Up prev = Some moved
        ∧ moved ≠ prev
        ∧ handleReorderFolder (folder_id x) Down moved = Some prev)
  ∧ (∀ x s,
        NoDup (article_id <$> articles prev) →
        article_sortOrders_unique (articles prev) →
        x ∈ articles prev → s ∈ articles prev →
        article_parentId s = article_parentId x →
        article_folderId s = article_folderId x →
        article_sortOrder s < article_sortOrder x →
        handleReorderArticle (article_id x) Up prev ≠ prev
        ∧ handleReorderArticle (article_id x) Down
            (handleReorderArticle (article_id x) Up prev) = prev).
Proof.
  split.
  - intros x s Hids Hkeys Hx Hs Hg Hlt.
    destruct (@reorder_up_then_down Folder (option string) _ Folder_TreeNode
                (folders prev) Hids Hkeys x s Hx Hs Hg Hlt) as [Hne Hback].
    exists (with_folders prev (reorder (folder_id x) Up (folders prev))).
    split_and!.
    + apply handleReorderFolder_reorder.
    + intros E. apply Hne. by rewrite <- E at 2.
    + rewrite handleReorderFolder_reorder. cbn [with_folders folders].
      f_equal. change (folder_id x) with (node_id x). rewrite Hback. by destruct prev.
  - intros x s Hids Hkeys Hx Hs Hp Hf Hlt.
    assert (@sibling_sortOrders_unique Article (option string * string) _
              Article_TreeNode (articles prev)) as Hkeys'.
    { intros a b Ha Hb [= E1 E2] E3. by apply Hkeys. }
    destruct (@reorder_up_then_down Article (option string * string) _ Article_TreeNode
                (articles prev) Hids Hkeys' x s Hx Hs
                ltac:(cbn; congruence) Hlt) as [Hne Hback].
    rewrite !handleReorderArticle_reorder. split.
    + intros E. apply Hne. by rewrite <- E at 2.
    + cbn [with_articles articles]. change (article_id x) with (node_id x).
      rewrite Hback. by destruct prev.
Qed.

(** C5.  In a state where ids are unique, reordering up the first of its
    siblings, or down the last of its siblings, returns the state unchanged,
    for folders and for articles (whose siblings share [parentId] and
    [folderId]). *)
Theorem reorder_at_boundary_is_noop (prev : ProjectState) :
  (∀ x, NoDup (folder_id <$> folders prev) → x ∈ folders prev →
        (first_folder x (folders prev) →
         handleReorderFolder (folder_id x) Up prev = Some prev)
        ∧ (last_folder x (folders prev) →
           handleReorderFolder (folder_id x) Down prev = Some prev))
  ∧ (∀ x, NoDup (article_id <$> articles prev) → x ∈ articles prev →
          (first_article x (articles prev) →
           handleReorderArticle (article_id x) Up prev = prev)
          ∧ (last_article x (articles prev) →
             handleReorderArticle (article_id x) Down prev = prev)).
Proof.
  split.
  - intros x Hids Hx. split; intros Hb; rewrite handleReorderFolder_reorder; f_equal.
    + change (folder_id x) with (node_id x).
      rewrite (@reorder_first_up Folder (option string) _ Folder_TreeNode
                 (folders prev) Hids x Hx Hb).
      apply with_folders_same.
    + change (folder_id x) with (node_id x).
      rewrite (@reorder_last_down Folder (option string) _ Folder_TreeNode
                 (folders prev) Hids x Hx Hb).
      apply with_folders_same.
  - intros x Hids Hx. split; intros Hb; rewrite handleReorderArticle_reorder.
    + change (article_id x) with (node_id x).
      rewrite (@reorder_first_up Article (option string * string) _ Article_TreeNode
                 (articles prev) Hids x Hx).
      * apply with_articles_same.
      * intros s Hs [= E1 E2]. by apply Hb.
    + change (article_id x) with (node_id x).
      rewrite (@reorder_last_down Article (option string * string) _ Article_TreeNode
                 (articles prev) Hids x Hx).
      * apply with_articles_same.
      * intros s Hs [= E1 E2]. by apply Hb.
Qed.

Ltac list_cases H :=
  repeat (apply elem_of_cons in H as [->|H]); [..|by apply elem_of_nil in H].

Lemma reorder_project_folder_ids : NoDup (folder_id <$> folders reorder_project).
Proof. apply (bool_decide_unpack _). vm_compute. exact I. Qed.

Lemma reorder_project_article_ids : NoDup (article_id <$> articles reorder_project).
Proof. apply (bool_decide_unpack _). vm_compute. exact I. Qed.

Lemma reorder_project_folder_sortOrders :
  folder_sortOrders_unique (folders reorder_project).
Proof.
  intros a b Ha Hb Hp Hs. unfold reorder_project in Ha, Hb. cbn [folders] in Ha, Hb.
  list_cases Ha; list_cases Hb; done.
Qed.

Lemma reorder_project_article_sortOrders :
  article_sortOrders_unique (articles reorder_project).
Proof.
  intros a b Ha Hb Hp Hf Hs. unfold reorder_project in Ha, Hb. cbn [articles] in Ha, Hb.
  list_cases Ha; list_cases Hb; done.
Qed.

Lemma reorder_up_then_down_restores_witness :
  (∃ moved,
      handleReorderFolder "y" Up reorder_project = Some moved
      ∧ moved ≠ reorder_project
      ∧ handleReorderFolder "y" Down moved = Some reorder_project)
  ∧ (handleReorderArticle "b" Up reorder_project ≠ reorder_project
     ∧ handleReorderArticle "b" Down (handleReorderArticle "b" Up reorder_project)
       = reorder_project).
Proof.
  split.
  - apply (proj1 (reorder_up_then_down_restores reorder_project) folder_y folder_x).
    + exact reorder_project_folder_ids.
    + exact reorder_project_folder_sortOrders.
    + unfold reorder_project. cbn [folders]. rewrite !elem_of_cons. tauto.
    + unfold reorder_project. cbn [folders]. rewrite !elem_of_cons. tauto.
    + reflexivity.
    + reflexivity.
  - apply (proj2 (reorder_up_then_down_restores reorder_project) article_b article_a).
    + exact reorder_project_article_ids.
    + exact reorder_project_article_sortOrders.
    + unfold reorder_project. cbn [articles]. rewrite !elem_of_cons. tauto.
    + unfold reorder_project. cbn [articles]. rewrite !elem_of_cons. tauto.
    + reflexivity.
    + reflexivity.
    + reflexivity.
Defined.

Example reorder_y_up :
  handleReorderFolder "y" Up reorder_project
  = Some (with_folders reorder_project
            [folder_with_sortOrder folder_x 1; folder_with_sortOrder folder_y 0;
             folder_z; folder_w]).
Proof. vm_compute. reflexivity. Qed.

(** C4, counterexample.  Folder x is the first root folder: moving it up
    does nothing, and moving it down next trades its place with y, so the
    order of x and y among the root folders is not the original one. *)
Lemma reorder_first_up_then_down_swaps :
  handleReorderFolder "x" Up reorder_project = Some reorder_project
  ∧ handleReorderFolder "x" Down reorder_project
    = Some (with_folders reorder_project
              [folder_with_sortOrder folder_x 1; folder_with_sortOrder folder_y 0;
               folder_z; folder_w])
  ∧ folder_id <$> sort_by folder_sortOrder
                    (filter (λ f, folder_parentId f = None) (folders reorder_project))
    = ["x"; "y"; "z"]
  ∧ folder_id <$> sort_by folder_sortOrder
                    (filter (λ f, folder_parentId f = None)
                       [folder_with_sortOrder folder_x 1; folder_with_sortOrder folder_y 0;
                        folder_z; folder_w])
    = ["y"; "x"; "z"].
Proof. split_and!; vm_compute; reflexivity. Qed.

Lemma reorder_at_boundary_is_noop_witness :
  (handleReorderFolder "x" Up reorder_project = Some reorder_project
   ∧ handleReorderFolder "z" Down reorder_project = Some reorder_project)
  ∧ (handleReorderArticle "a" Up reorder_project = reorder_project
     ∧ handleReorderArticle "b" Down reorder_project = reorder_project).
Proof.
  split; split.
  - apply (proj1 (reorder_at_boundary_is_noop reorder_project) folder_x);
      [exact reorder_project_folder_ids
      |unfold reorder_project; cbn [folders]; rewrite !elem_of_cons; tauto|].
    intros s Hs Hp. unfold reorder_project in Hs. cbn [folders] in Hs.
    list_cases Hs; done.
  - apply (proj1 (reorder_at_boundary_is_noop reorder_project) folder_z);
      [exact reorder_project_folder_ids
      |unfold reorder_project; cbn [folders]; rewrite !elem_of_cons; tauto|].
    intros s Hs Hp. unfold reorder_project in Hs. cbn [folders] in Hs.
    list_cases Hs; done.
  - apply (proj2 (reorder_at_boundary_is_noop reorder_project) article_a);
      [exact reorder_project_article_ids
      |unfold reorder_project; cbn [articles]; rewrite !elem_of_cons; tauto|].
    intros s Hs Hp Hf. unfold reorder_project in Hs. cbn [articles] in Hs.
    list_cases Hs; done.
  - apply (proj2 (reorder_at_boundary_is_noop reorder_project) article_b);
      [exact reorder_project_article_ids
      |unfold reorder_project; cbn [articles]; rewrite !elem_of_cons; tauto|].
    intros s Hs Hp Hf. unfold reorder_project in Hs. cbn [articles] in Hs.
    list_cases Hs; done.
Defined.

Lemma create_assigns_sortOrder_after_siblings_witness :
  ∃ newFolder,
    createFolder "#aaaaaa" "n" None reorder_project
    = with_folders reorder_project (folders reorder_project ++ [newFolder])
    ∧ folder_id newFolder = "n"
    ∧ folder_parentId newFolder = None
    ∧ new_sortOrder_ok
        (folder_sortOrder <$>
           filter (λ f, folder_parentId f = None) (folders reorder_project))
        (folder_sortOrder newFolder).
Proof.
  destruct (proj1 (create_assigns_sortOrder_after_siblings "#aaaaaa" "n" reorder_project) None)
    as (newFolder & Hcreate & Hid & Hparent & _ & Hsafe & _).
  exists newFolder. split_and!; [done..|]. apply Hsafe.
  intros k Hk. vm_compute in Hk. unfold JS.MAX_SAFE_INTEGER.
  list_cases Hk; lia.
Defined.

Example createFolder_reorder_project :
  folders (createFolder "#aaaaaa" "n" None reorder_project)
  = [folder_x; folder_y; folder_z; folder_w;
     mkFolder "n" "Nova Pasta" "#aaaaaa" None 3].
Proof. vm_compute. reflexivity. Qed.

(** ** Absent ids and rejected files, on the example states *)

Lemma reorder_project_no_ghost_folder : folder_absent "ghost" reorder_project.
Proof.
  intros f Hf. unfold reorder_project in Hf. cbn [folders] in Hf. list_cases Hf; done.
Qed.

Lemma reorder_project_no_ghost_article : article_absent "ghost" reorder_project.
Proof.
  intros a Ha. unfold reorder_project in Ha. cbn [articles] in Ha. list_cases Ha; done.
Qed.

Lemma folder_handlers_ignore_absent_id_witness :
  (∀ newName newColor,
      handleUpdateFolder "ghost" newName newColor reorder_project = reorder_project)
  ∧ (∀ fuel selected,
        handleDeleteFolder fuel selected "ghost" reorder_project
        = Some (mkDeleteFolderResult reorder_project [] selected))
  ∧ (∀ direction, handleReorderFolder "ghost" direction reorder_project
                  = Some reorder_project).
Proof.
  exact (folder_handlers_ignore_absent_id "ghost" reorder_project
           reorder_project_no_ghost_folder).
Defined.

Lemma article_handlers_ignore_absent_id_witness :
  (∀ newTitle, handleUpdateArticleTitle "ghost" newTitle reorder_project = reorder_project)
  ∧ (∀ updatedArticle, article_id updatedArticle = "ghost" →
        handleSaveArticle updatedArticle reorder_project = reorder_project)
  ∧ (∀ direction, handleReorderArticle "ghost" direction reorder_project
                  = reorder_project).
Proof.
  exact (article_handlers_ignore_absent_id "ghost" reorder_project
           reorder_project_no_ghost_article).
Defined.

Lemma deleteArticle_absent_id_without_children_witness :
  ∃ result,
    handleDeleteArticle 1 (Some "a") "ghost" reorder_project = Some result
    ∧ da_state result = reorder_project ∧ da_ops result = [].
Proof.
  apply (deleteArticle_absent_id_without_children 0 (Some "a") "ghost" reorder_project).
  - exact reorder_project_no_ghost_article.
  - intros a Ha. unfold reorder_project in Ha. cbn [articles] in Ha.
    list_cases Ha; done.
Defined.

Lemma rejected_backup_keeps_project_witness :
  projectState (handleLoadBackup (Some archive_without_articles) app_with_image)
  = projectState app_with_image
  ∧ selectedFolderId (handleLoadBackup (Some archive_without_articles) app_with_image)
    = selectedFolderId app_with_image
  ∧ selectedArticleId (handleLoadBackup (Some archive_without_articles) app_with_image)
    = selectedArticleId app_with_image
  ∧ alerts (handleLoadBackup (Some archive_without_articles) app_with_image)
    = alerts app_with_image ++ ["Arquivo de backup inválido."]
  ∧ imageStore (handleLoadBackup (Some archive_without_articles) app_with_image)
    = Db.run [Db.ClearImages; Db.PutAllImages []] (imageStore app_with_image).
Proof.
  apply (rejected_backup_keeps_project archive_without_articles app_with_image).
  by right.
Defined.

(** ** A cycle in the parent graph *)

Lemma cyclic_loop_never_ends fuel q ids :
  q ≠ [] → (∀ x, x ∈ q → x = "a" ∨ x = "b") →
  deleteFolder_loop fuel (folders cyclic_project) q ids = None.
Proof.
  revert q ids. induction fuel as [|fuel IH]; intros [|x q] ids Hq Hab; try done.
  rewrite deleteFolder_loop_step. apply IH.
  - destruct (Hab x) as [-> | ->]; [by left|by destruct q|by destruct q].
  - intros y [Hy|Hy]%elem_of_app; [apply Hab; by right|].
    destruct (Hab x) as [-> | ->]; [by left|..];
      apply list_elem_of_singleton in Hy as ->; auto.
Qed.

(** On folders whose parent graph has a cycle the loop of
    [handleDeleteFolder] has no end: whatever the bound, it is reached. *)
Lemma deleteFolder_never_ends_on_cycle (fuel : nat) (selected : option string) :
  handleDeleteFolder fuel selected "a" cyclic_project = None.
Proof.
  unfold handleDeleteFolder.
  assert (find (λ f, folder_id f = "a") (folders cyclic_project)
          = Some (mkFolder "a" "Primeira" "#aaaaaa" (Some "b") 0)) as -> by reflexivity.
  rewrite cyclic_loop_never_ends; [done|done|].
  intros x ->%list_elem_of_singleton. by left.
Qed.

(** ** Deleting an article *)

Section DeleteArticleLoop.
Context (arts : list Article).

Lemma child_ids_parent_link x :
  child_ids (parent_link <$> arts) x
  = article_id <$> filter (λ a, article_parentId a = Some x) arts.
Proof.
  unfold child_ids. induction arts as [|a l IH]; [done|].
  rewrite fmap_cons, !filter_cons. cbn [parent_link folder_parentId].
  destruct (decide (article_parentId a = Some x)); [|done].
  rewrite !fmap_cons. cbn [folder_id]. by rewrite IH.
Qed.

Lemma enqueue_article_children (children : list Article) ids dels q :
  foldl (λ '(ids, dels, q) child,
           (JSSet.add (article_id child) ids, dels ++ [child], q ++ [article_id child]))
        (ids, dels, q) children
  = (foldl (λ s x, JSSet.add x s) ids (article_id <$> children),
     dels ++ children, q ++ (article_id <$> children)).
Proof.
  revert ids dels q. induction children as [|c children IH]; intros ids dels q.
  - cbn. by rewrite !app_nil_r.
  - cbn [foldl]. rewrite IH, fmap_cons, <- !app_assoc. reflexivity.
Qed.

Lemma deleteArticle_loop_step fuel x q ids dels :
  deleteArticle_loop (S fuel) arts (x :: q) ids dels
  = deleteArticle_loop fuel arts
      (q ++ child_ids (parent_link <$> arts) x)
      (foldl (λ s y, JSSet.add y s) ids (child_ids (parent_link <$> arts) x))
      (dels ++ filter (λ a, article_parentId a = Some x) arts).
Proof.
  cbn [deleteArticle_loop]. by rewrite enqueue_article_children, child_ids_parent_link.
Qed.

(** The ids the loop collects are those the folder loop collects on the
    parent links. *)
Lemma deleteArticle_loop_ids fuel q ids dels :
  fst <$> deleteArticle_loop fuel arts q ids dels
  = deleteFolder_loop fuel (parent_link <$> arts) q ids.
Proof.
  revert q ids dels. induction fuel as [|fuel IH]; intros [|x q] ids dels; try done.
  rewrite deleteArticle_loop_step, deleteFolder_loop_step. apply IH.
Qed.

(** The articles the loop collects: the ones it started with and the
    children of every id it took from the queue, [done] being the ids taken
    before. *)
Lemma deleteArticle_loop_collected fuel q ids (dels dels0 : list Article)
    (done : list string) removed collected :
  deleteArticle_loop fuel arts q ids dels = Some (removed, collected) →
  (∀ x, x ∈ ids ↔ x ∈ q ∨ x ∈ done) →
  (∀ a, a ∈ dels ↔
        a ∈ dels0 ∨ (a ∈ arts ∧ ∃ p, article_parentId a = Some p ∧ p ∈ done)) →
  ∀ a, a ∈ collected ↔
       a ∈ dels0 ∨ (a ∈ arts ∧ ∃ p, article_parentId a = Some p ∧ p ∈ removed).
Proof.
  revert q ids dels done.
  assert (∀ (ids : list string) (dels : list Article) (done : list string),
    (∀ x, x ∈ ids ↔ x ∈ @nil string ∨ x ∈ done) →
    (∀ a, a ∈ dels ↔
          a ∈ dels0 ∨ (a ∈ arts ∧ ∃ p, article_parentId a = Some p ∧ p ∈ done)) →
    ∀ a, a ∈ dels ↔
         a ∈ dels0 ∨ (a ∈ arts ∧ ∃ p, article_parentId a = Some p ∧ p ∈ ids)) as Hend.
  { intros ids dels done Hids Hdels a. rewrite Hdels. split.
    - intros [?|(? & p & ? & ?)]; [by left|]. right. split; [done|].
      exists p. split; [done|]. apply Hids. by right.
    - intros [?|(? & p & ? & Hp)]; [by left|]. right. split; [done|].
      exists p. split; [done|]. by apply Hids in Hp as [?%elem_of_nil|?]. }
  induction fuel as [|fuel IH]; intros [|x q] ids dels done Hloop Hids Hdels.
  - injection Hloop as <- <-. by eapply Hend.
  - done.
  - injection Hloop as <- <-. by eapply Hend.
  - rewrite deleteArticle_loop_step in Hloop.
    apply (IH _ _ _ (x :: done) Hloop).
    + intros y. rewrite elem_of_add_all, Hids, elem_of_app, !elem_of_cons.
      tauto.
    + intros a. rewrite elem_of_app, Hdels, list_elem_of_filter. split.
      * intros [[?|(? & p & ? & ?)]|[? ?]]; [by left| |].
        -- right. split; [done|]. exists p. split; [done|by right].
        -- right. split; [done|]. exists x. split; [done|by left].
      * intros [?|(? & p & ? & [->|?]%elem_of_cons)]; [left; by left| |].
        -- by right.
        -- left. right. split; [done|]. by exists p.
Qed.
End DeleteArticleLoop.

Lemma in_subtree_parent_link arts root x :
  in_subtree (parent_link <$> arts) root x ↔ article_in_subtree arts root x.
Proof.
  split.
  - induction 1 as [|f p Hf Hp _ IH]; [constructor|].
    apply list_elem_of_fmap in Hf as (a & -> & Ha). by econstructor.
  - induction 1 as [|a p Ha Hp _ IH]; [constructor|].
    apply (in_subtree_child _ _ (parent_link a) p); [|done..].
    by apply list_elem_of_fmap_2.
Qed.

Lemma parents_above_parent_link height arts :
  article_parents_above height arts → parents_above height (parent_link <$> arts).
Proof.
  intros H f p (a & -> & Ha)%list_elem_of_fmap Hp. by apply (H a p).
Qed.

(** When the parent graph of the articles has no cycle and [id] is the id
    of an article, [handleDeleteArticle id] ends (for every bound on the loop
    from some bound on) and performs the cascading delete of [id]. *)
Theorem deleteArticle_cascades
    (height : string → nat) (selected : option string) (id : string)
    (prev : ProjectState) :
  article_parents_above height (articles prev) →
  (∃ a, a ∈ articles prev ∧ article_id a = id) →
  ∃ fuel0, ∀ fuel, (fuel0 ≤ fuel)%nat →
    ∃ result removed,
      handleDeleteArticle fuel selected id prev = Some result
      ∧ article_cascade_of prev selected id removed result.
Proof.
  intros Hacyclic%parents_above_parent_link (a0 & Ha0 & Hid).
  destruct (find_is_Some (λ a, article_id a = id) _ a0 Ha0 Hid) as [initial Hfind].
  exists (iterations_of (parent_link <$> articles prev) height [id]). intros fuel Hfuel.
  destruct (deleteFolder_loop_terminates _ height Hacyclic
              fuel [id] (JSSet.of_array [id]) Hfuel) as [removed Hids].
  rewrite <- (deleteArticle_loop_ids (articles prev) fuel [id] _ [initial]) in Hids.
  destruct (deleteArticle_loop fuel (articles prev) [id] (JSSet.of_array [id]) [initial])
    as [[removed' collected]|] eqn:Hloop; [|done].
  injection Hids as ->.
  pose proof (fmap_Some_2 fst _ _ Hloop) as Hremoved.
  rewrite deleteArticle_loop_ids in Hremoved. cbn [fst] in Hremoved.
  pose proof (deleteFolder_loop_collects_subtree _ _ _ _ Hremoved) as Hsub.
  assert (∀ x, x ∈ removed ↔ article_in_subtree (articles prev) id x) as Hsubtree
    by (intros x; by rewrite Hsub, in_subtree_parent_link).
  clear Hsub Hremoved.
  pose proof (deleteArticle_loop_collected (articles prev) fuel [id] _ [initial] [initial] []
                removed collected Hloop) as Hcollected.
  eexists _, removed. split.
  { unfold handleDeleteArticle. rewrite Hfind, Hloop. reflexivity. }
  unfold article_cascade_of. cbn [da_state da_ops da_selectedArticleId].
  assert (∀ a, a ∈ collected ↔
               a ∈ [initial]
               ∨ (a ∈ articles prev ∧ ∃ p, article_parentId a = Some p ∧ p ∈ removed))
    as Hcol.
  { apply Hcollected.
    - intros x. rewrite of_array_singleton, elem_of_nil. tauto.
    - intros b. split; [by left|]. intros [?|(_ & p & _ & []%elem_of_nil)]. done. }
  split_and!; [done| | |].
  - f_equal. apply list_filter_iff. intros a. by rewrite Is_true_has.
  - intros op. rewrite elem_of_deleteImagesOf. split.
    + intros (a & sid & title & images & image & Ha & Hs & Him & ->).
      exists a, sid, title, images, image. split_and!; [|done..].
      apply Hcol in Ha as [Ha|Ha]; [|by right].
      apply list_elem_of_singleton in Ha as ->. by left.
    + intros (a & sid & title & images & image & Ha & Hs & Him & ->).
      exists a, sid, title, images, image. split_and!; [|done..].
      apply Hcol. destruct Ha as [Ha|Ha]; [left|by right].
      rewrite Hfind in Ha. injection Ha as ->. by left.
  - destruct selected as [sel|]; [|done]. unfold JS.truthy.
    destruct (bool_decide (sel ≠ "")) eqn:E1, (JSSet.has sel removed) eqn:E2; cbn [andb].
    + apply bool_decide_eq_true in E1. apply has_true in E2.
      by rewrite bool_decide_eq_true_2.
    + apply has_false in E2. rewrite bool_decide_eq_false_2; [done|tauto].
    + apply bool_decide_eq_false in E1. rewrite bool_decide_eq_false_2; [done|tauto].
    + apply bool_decide_eq_false in E1. rewrite bool_decide_eq_false_2; [done|tauto].
Qed.

Lemma article_tree_project_acyclic :
  article_parents_above article_tree_height (articles article_tree_project).
Proof.
  intros a p Ha Hp. unfold article_tree_project in Ha. cbn [articles] in Ha.
  list_cases Ha; cbn in Hp; simplify_eq; compute; lia.
Qed.

Lemma deleteArticle_cascades_witness :
  ∃ fuel0, ∀ fuel, (fuel0 ≤ fuel)%nat →
    ∃ result removed,
      handleDeleteArticle fuel (Some "c") "b" article_tree_project = Some result
      ∧ article_cascade_of article_tree_project (Some "c") "b" removed result.
Proof.
  apply (deleteArticle_cascades article_tree_height (Some "c") "b" article_tree_project).
  - exact article_tree_project_acyclic.
  - exists (mkArticle "b" "Infancia" "x" 0
              [ImagesSection "s2" "Galeria" [mkImageField "p2" "casa" None]] ["d"]
              (Some "a")).
    split; [|reflexivity].
    unfold article_tree_project. cbn [articles]. rewrite !elem_of_cons. right. by left.
Defined.

Example deleteArticle_tree_project :
  handleDeleteArticle 3 (Some "c") "b" article_tree_project
  = Some (mkDeleteArticleResult
            (with_articles article_tree_project
               [mkArticle "a" "Ana" "x" 0
                  [ImagesSection "s1" "Galeria" [mkImageField "p1" "capa" None]] [] None;
                mkArticle "d" "Bento" "x" 1
                  [ImagesSection "s4" "Galeria" [mkImageField "p4" "mapa" None]]
                  ["b"; "zz"] None])
            [Db.DeleteImage "p2"; Db.DeleteImage "p3"] None).
Proof. vm_compute. reflexivity. Qed.


(** ** Migration is idempotent *)

Lemma migratedImage_settled image :
  JS.truthy_opt (image_dataUrl (migratedImage image)) = false.
Proof.
  unfold migratedImage. by destruct (JS.truthy_opt (image_dataUrl image)) eqn:E.
Qed.

Lemma migratedImage_no_payload image :
  JS.truthy_opt (image_dataUrl image) = false → migratedImage image = image.
Proof. unfold migratedImage. by intros ->. Qed.

Lemma payloadWrites_no_payload images :
  (∀ image, image ∈ images → JS.truthy_opt (image_dataUrl image) = false) →
  payloadWrites images = [].
Proof.
  intros Himages. destruct (payloadWrites images) as [|op ops] eqn:E; [done|].
  assert (op ∈ payloadWrites images) as Hop by (rewrite E; by left).
  apply payloadWrites_elem in Hop as (image & d & Hin & Hd & Hne & _).
  specialize (Himages image Hin). rewrite Hd in Himages. cbn in Himages.
  by apply bool_decide_eq_false in Himages.
Qed.

Lemma section_no_payload section :
  (∀ id title images image,
     section = ImagesSection id title images → image ∈ images →
     JS.truthy_opt (image_dataUrl image) = false) →
  migratedSection section = section ∧ sectionWrites section = [].
Proof.
  destruct section as [id title fields|id title images]; [done|]. intros Himages.
  cbn [migratedSection sectionWrites].
  destruct (isLegacyImagesSection _); [|done]. split.
  - f_equal. apply fmap_fixed. intros image Hin.
    apply migratedImage_no_payload. by eapply Himages.
  - apply payloadWrites_no_payload. intros image Hin. by eapply Himages.
Qed.

Lemma migratedSection_settled section :
  migratedSection (migratedSection section) = migratedSection section
  ∧ sectionWrites (migratedSection section) = [].
Proof.
  destruct section as [id title fields|id title images]; [done|].
  cbn [migratedSection].
  destruct (isLegacyImagesSection (ImagesSection id title images)) eqn:E.
  - apply section_no_payload. intros id' title' images' image [= _ _ <-] Hin.
    apply list_elem_of_fmap in Hin as (image0 & -> & _). apply migratedImage_settled.
  - cbn [migratedSection sectionWrites]. by rewrite E.
Qed.

Lemma bind_all_nil {A B} (g : A → list B) (l : list A) :
  (∀ x, x ∈ l → g x = []) → l ≫= g = [].
Proof.
  induction l as [|x l IH]; intros Hg; [done|].
  rewrite bind_cons, Hg, IH; [done| |by left]. intros y Hy. apply Hg. by right.
Qed.

Lemma migrate_no_inline_payload project :
  no_inline_payload project → migrateProjectState project = (project, []).
Proof.
  intros Hproject. rewrite migrateProjectState_eq. f_equal.
  - rewrite (fmap_fixed migratedArticle (articles project));
      [apply with_articles_same|].
    intros a Ha. unfold migratedArticle.
    rewrite (fmap_fixed migratedSection (article_sections a)); [by destruct a|].
    intros s Hs. apply section_no_payload. intros id title images image -> Hin.
    by eapply Hproject.
  - apply bind_all_nil. intros a Ha. apply bind_all_nil. intros s Hs.
    apply section_no_payload. intros id title images image -> Hin.
    by eapply Hproject.
Qed.

(** Migrating a migrated project changes nothing and writes nothing: the
    sections that still carry the marker (a first image whose [dataUrl] is
    empty) hold no payload any more, and the others are skipped as before. *)
Theorem migrateProjectState_idempotent (project : ProjectState) :
  migrateProjectState (migrateProjectState project).1
  = ((migrateProjectState project).1, []).
Proof.
  rewrite (migrateProjectState_eq project). cbn [fst].
  rewrite migrateProjectState_eq. f_equal.
  - destruct project as [fs arts efs eas]. unfold with_articles. cbn. f_equal.
    rewrite <- list_fmap_compose. apply list_fmap_ext. intros _ a _. cbn.
    unfold migratedArticle. destruct a as [id title fid so ss rel pid]. cbn. f_equal.
    rewrite <- list_fmap_compose. apply list_fmap_ext. intros _ s _. cbn.
    apply migratedSection_settled.
  - apply bind_all_nil. intros a Ha. apply bind_all_nil. intros s Hs.
    destruct project as [fs arts efs eas]. cbn in Ha.
    apply list_elem_of_fmap in Ha as (a0 & -> & _). cbn in Hs.
    apply list_elem_of_fmap in Hs as (s0 & -> & _). apply migratedSection_settled.
Qed.

(** ** Saving a backup and reading it back *)

Lemma foldl_insert_list_to_map (rows : list (string * string)) (store : gmap string string) :
  NoDup rows.*1 →
  foldl (λ st row, <[row.1 := row.2]> st) store rows = list_to_map rows ∪ store.
Proof.
  revert store. induction rows as [|[k v] rows IH]; intros store Hrows.
  - cbn. by rewrite (left_id_L ∅ (∪)).
  - rewrite fmap_cons in Hrows. apply NoDup_cons in Hrows as [Hk Hrows].
    cbn [foldl list_to_map foldr fst snd]. rewrite IH by done.
    rewrite <- insert_union_l. symmetry. apply insert_union_r.
    by apply not_elem_of_list_to_map_1.
Qed.

(** Clearing the store and putting what [getAllImages] answered restores the
    store [getAllImages] was called on. *)
Lemma putAllImages_getAllImages (store store' : gmap string string) :
  Db.run [Db.ClearImages; Db.PutAllImages (getAllImages store)] store' = store.
Proof.
  unfold Db.run. cbn [foldl Db.run_op].
  destruct (getAllImages store) as [|image images] eqn:E.
  - unfold getAllImages in E. apply fmap_nil_inv in E.
    by apply map_to_list_empty_iff in E.
  - rewrite <- E. unfold getAllImages. rewrite foldl_fmap. cbn [data_id data_dataUrl].
    rewrite foldl_insert_list_to_map by apply NoDup_fst_map_to_list.
    by rewrite list_to_map_to_list, (right_id_L ∅ (∪)).
Qed.

Lemma repairArticle_stored a : repairArticle (stored_article a) = a.
Proof.
  destruct a as [id title fid so ss rel pid]. unfold repairArticle, stored_article. cbn.
  f_equal. rewrite <- list_fmap_compose. by apply fmap_fixed.
Qed.

Lemma handleLoadBackup_accepted loadedData app project :
  repairedProject (loadedProject_of loadedData) = Some project →
  handleLoadBackup (Some loadedData) app
  = mkAppState (Some (migrateProjectState project).1) None None
      (Db.run (migrateProjectState project).2
         match loaded_projectState loadedData, loaded_images loadedData with
         | Some _, Some images =>
             Db.run [Db.ClearImages; Db.PutAllImages images] (imageStore app)
         | _, _ => imageStore app
         end)
      (alerts app).
Proof.
  unfold repairedProject, loadedProject_of, handleLoadBackup.
  destruct (loaded_projectState loadedData) as [lp|],
           (loaded_images loadedData) as [images|]; cbv beta iota zeta.
  all: destruct (loaded_folders _) as [fs|]; [|done].
  all: destruct (loaded_articles _) as [arts|]; [|done].
  all: intros [= <-]; by destruct (migrateProjectState _).
Qed.

(** The document [handleSaveBackup] writes, read back by [handleLoadBackup]
    in any state of the application, opens the project that was saved, run
    through the migration, with both selections cleared and the image store
    as it was when the backup was taken (plus the payloads the migration
    moves); when no image of the project carried an inline payload, the
    project and the image store are exactly those that were saved. *)
Theorem backup_round_trip (app app' : AppState) (project : ProjectState) :
  projectState app = Some project →
  ∃ backup,
    handleSaveBackup app = Some backup
    ∧ handleLoadBackup (Some (stored_backup backup)) app'
      = mkAppState (Some (migrateProjectState project).1) None None
                   (Db.run (migrateProjectState project).2 (imageStore app))
                   (alerts app')
    ∧ (no_inline_payload project →
       handleLoadBackup (Some (stored_backup backup)) app'
       = mkAppState (Some project) None None (imageStore app) (alerts app')).
Proof.
  intros Hproject. unfold handleSaveBackup. rewrite Hproject.
  eexists. split; [done|].
  assert (handleLoadBackup
            (Some (stored_backup (mkBackupData project (getAllImages (imageStore app)))))
            app'
          = mkAppState (Some (migrateProjectState project).1) None None
              (Db.run (migrateProjectState project).2 (imageStore app)) (alerts app'))
    as Hload.
  { rewrite (handleLoadBackup_accepted _ _ project).
    - cbn [stored_backup loaded_projectState loaded_images backup_images].
      by rewrite putAllImages_getAllImages.
    - unfold repairedProject, loadedProject_of, stored_backup, stored_project. cbn.
      destruct project as [fs arts efs eas]. cbn. do 2 f_equal.
      rewrite <- list_fmap_compose. apply fmap_fixed.
      intros a _. apply repairArticle_stored. }
  split; [done|]. intros Hclean. rewrite Hload.
  by rewrite (migrate_no_inline_payload project Hclean).
Qed.

Lemma backup_round_trip_witness :
  ∃ backup,
    handleSaveBackup app_with_gallery = Some backup
    ∧ handleLoadBackup (Some (stored_backup backup)) app_elsewhere
      = mkAppState (Some (migrateProjectState
                            (default (mkProjectState [] [] [] [])
                                     (projectState app_with_gallery))).1)
                   None None
                   (Db.run (migrateProjectState
                              (default (mkProjectState [] [] [] [])
                                       (projectState app_with_gallery))).2
                           (imageStore app_with_gallery))
                   (alerts app_elsewhere)
    ∧ (no_inline_payload (default (mkProjectState [] [] [] [])
                                  (projectState app_with_gallery)) →
       handleLoadBackup (Some (stored_backup backup)) app_elsewhere
       = mkAppState (projectState app_with_gallery) None None
                    (imageStore app_with_gallery) (alerts app_elsewhere)).
Proof.
  apply (backup_round_trip app_with_gallery app_elsewhere). reflexivity.
Defined.

(** ** The image store after a backup is accepted *)

Lemma run_puts_keys (ops : list Db.Op) (store : gmap string string) k :
  (∀ op, op ∈ ops → ∃ id d, op = Db.PutImage id d) →
  is_Some (Db.run ops store !! k) ↔
  is_Some (store !! k) ∨ ∃ d, Db.PutImage k d ∈ ops.
Proof.
  unfold Db.run. revert store. induction ops as [|op ops IH]; intros store Hops.
  - cbn. split; [by left|]. intros [?|[d []%elem_of_nil]]. done.
  - cbn [foldl]. rewrite IH by (intros op' Hop'; apply Hops; by right).
    destruct (Hops op) as (id & d & ->); [by left|]. cbn [Db.run_op].
    rewrite lookup_insert_is_Some'. setoid_rewrite elem_of_cons. split.
    + intros [[->|?]|[d' ?]]; [right; exists d; by left|by left|right; exists d'; by right].
    + intros [?|[d' [[= -> _]|?]]]; [left; by right|left; by left|right; by exists d'].
Qed.

Lemma putAllImages_keys (images : list ImageData) (store : gmap string string) k :
  is_Some (Db.run_op store (Db.PutAllImages images) !! k) ↔
  is_Some (store !! k) ∨ k ∈ data_id <$> images.
Proof.
  assert (is_Some (foldl (λ st image, <[data_id image := data_dataUrl image]> st)
                         store images !! k)
          ↔ is_Some (store !! k) ∨ k ∈ data_id <$> images) as H.
  { revert store. induction images as [|image images IH]; intros store.
    - cbn. split; [by left|]. intros [?|[]%elem_of_nil]. done.
    - cbn [foldl]. rewrite IH, lookup_insert_is_Some', fmap_cons, elem_of_cons.
      split; [intros [[->|?]|?]|intros [?|[->|?]]]; tauto. }
  destruct images as [|image images]; [|exact H].
  cbn. split; [by left|]. intros [?|[]%elem_of_nil]. done.
Qed.

(** A backup that passes the validation gate opens the project it holds,
    run through the migration, with both selections cleared and no alert.
    When the file has the keys [projectState] and [images] the image store
    is replaced: an id has an entry afterwards exactly when it is the id of
    an image of the file or the migration moved a payload under it.  A file
    in the old format only adds to the store. *)
Theorem accepted_backup_image_store
    (loadedData : LoadedData) (app : AppState) (project : ProjectState) :
  repairedProject (loadedProject_of loadedData) = Some project →
  projectState (handleLoadBackup (Some loadedData) app)
  = Some (migrateProjectState project).1
  ∧ selectedFolderId (handleLoadBackup (Some loadedData) app) = None
  ∧ selectedArticleId (handleLoadBackup (Some loadedData) app) = None
  ∧ alerts (handleLoadBackup (Some loadedData) app) = alerts app
  ∧ ∀ id,
      is_Some (imageStore (handleLoadBackup (Some loadedData) app) !! id) ↔
      match loaded_projectState loadedData, loaded_images loadedData with
      | Some _, Some images => id ∈ data_id <$> images
      | _, _ => is_Some (imageStore app !! id)
      end
      ∨ ∃ d, Db.PutImage id d ∈ (migrateProjectState project).2.
Proof.
  intros Hproject. rewrite (handleLoadBackup_accepted _ _ _ Hproject).
  cbn [projectState selectedFolderId selectedArticleId alerts imageStore].
  split_and!; [done..|]. intros id.
  rewrite run_puts_keys by apply migration_writes_are_puts.
  destruct (loaded_projectState loadedData) as [lp|],
           (loaded_images loadedData) as [images|]; try done.
  unfold Db.run. cbn [foldl]. rewrite putAllImages_keys. cbn [Db.run_op].
  rewrite lookup_empty. split; [intros [[[? [=]]|?]|?]|]; tauto.
Qed.

Lemma accepted_backup_image_store_witness :
  repairedProject (loadedProject_of legacy_archive) = Some legacy_archive_project
  ∧ projectState (handleLoadBackup (Some legacy_archive) app_with_image)
    = Some (migrateProjectState legacy_archive_project).1
  ∧ selectedFolderId (handleLoadBackup (Some legacy_archive) app_with_image) = None
  ∧ selectedArticleId (handleLoadBackup (Some legacy_archive) app_with_image) = None
  ∧ alerts (handleLoadBackup (Some legacy_archive) app_with_image)
    = alerts app_with_image
  ∧ ∀ id,
      is_Some (imageStore (handleLoadBackup (Some legacy_archive) app_with_image) !! id) ↔
      id ∈ data_id <$> [mkImageData "i7" "data:7"]
      ∨ ∃ d, Db.PutImage id d ∈ (migrateProjectState legacy_archive_project).2.
Proof.
  split; [reflexivity|].
  apply (accepted_backup_image_store legacy_archive app_with_image legacy_archive_project).
  reflexivity.
Defined.

Example load_legacy_archive :
  handleLoadBackup (Some legacy_archive) app_with_image
  = mkAppState
      (Some (mkProjectState
               [mkFolder "f1" "Notas" "#aaaaaa" None 0]
               [mkArticle "a" "Ana" "f1" 0
                  [FieldsSection "s0" "Notas" [mkField "k" "Idade" "12"];
                   ImagesSection "s1" "Galeria" [mkImageField "i1" "capa" None]]
                  [] None]
               [] []))
      None None {["i7" := "data:7"; "i1" := "data:1"]} [].
Proof. vm_compute. reflexivity. Qed.

(** ** Selecting a folder when none is selected *)

Section SortBySorted.
Context {A : Type} (key : A → Z).

Lemma sort_by_sorted_same l : StronglySorted (key_le key) l → sort_by key l = l.
Proof.
  induction 1 as [|x l Hl IH Hx]; [done|].
  cbn [sort_by foldr]. fold (sort_by key l). rewrite IH.
  destruct l as [|y l]; [done|]. cbn [insert_by].
  apply Forall_cons in Hx as [Hxy _]. by rewrite bool_decide_eq_true_2.
Qed.

Lemma sort_by_idempotent l : sort_by key (sort_by key l) = sort_by key l.
Proof. apply sort_by_sorted_same, sort_by_sorted. Qed.

Lemma sort_by_nil_iff l : sort_by key l = [] ↔ l = [].
Proof.
  split; [|by intros ->]. intros E. apply Permutation_nil_r.
  by rewrite <- E, sort_by_Permutation.
Qed.
End SortBySorted.

Lemma find_first {A} (P : A → Prop) `{∀ x, Decision (P x)} (l : list A) x :
  find P l = Some x →
  ∃ i, l !! i = Some x ∧ P x ∧ ∀ j y, l !! j = Some y → (j < i)%nat → ¬ P y.
Proof.
  unfold find. destruct (list_find P l) as [[i y]|] eqn:E; [|done].
  intros [= <-]. apply list_find_Some in E as (Hl & HP & Hbefore). by exists i.
Qed.

(** With a project that has folders and no folder selected, the effect
    selects a folder of the project: the root folder of least [sortOrder]
    when there is a root folder, and the folder of least [sortOrder] when
    there is none; and it leaves the [folders] array of the state sorted by
    [sortOrder]. *)
Theorem autoSelect_selects_first_root (app : AppState) (project : ProjectState) :
  projectState app = Some project →
  folders project ≠ [] →
  JS.truthy_opt (selectedFolderId app) = false →
  ∃ f, f ∈ folders project
    ∧ selectedFolderId (autoSelectFolder app) = Some (folder_id f)
    ∧ (∀ r, r ∈ folders project → is_root r →
         is_root f ∧ folder_sortOrder f ≤ folder_sortOrder r)
    ∧ ((∀ r, r ∈ folders project → ¬ is_root r) →
         ∀ r, r ∈ folders project → folder_sortOrder f ≤ folder_sortOrder r)
    ∧ projectState (autoSelectFolder app)
      = Some (with_folders project (sort_by folder_sortOrder (folders project))).
Proof.
  intros Hproject Hfolders Hnone. unfold autoSelectFolder. rewrite Hproject, Hnone.
  assert (0 < length (folders project))%nat as Hlen
    by (destruct (folders project); [done|cbn; lia]).
  rewrite bool_decide_eq_true_2 by done. cbn [andb negb]. cbv zeta.
  cbn [with_folders folders].
  rewrite (bool_decide_eq_false_2 (length _ = 0%nat))
    by (rewrite length_sort_by; lia).
  cbn [selectedFolderId projectState].
  pose proof (sort_by_sorted folder_sortOrder (folders project)) as Hsorted.
  assert (∀ a b i j, sort_by folder_sortOrder (folders project) !! i = Some a →
                     sort_by folder_sortOrder (folders project) !! j = Some b →
                     (i ≤ j)%nat → folder_sortOrder a ≤ folder_sortOrder b) as Hle.
  { intros a b i j Ha Hb Hij. destruct (decide (i = j)) as [->|Hne].
    - rewrite Ha in Hb. injection Hb as ->. lia.
    - eapply (sorted_lookup_le folder_sortOrder _ i j); [done..|lia]. }
  destruct (find _ (sort_by folder_sortOrder (folders project))) as [f|] eqn:Hfind.
  - apply find_first in Hfind as (i & Hi & Hroot & Hbefore).
    exists f. split_and!; [|done| | |done].
    + eapply elem_of_sort_by, list_elem_of_lookup_2, Hi.
    + intros r Hr Hrroot. split; [done|].
      apply (elem_of_sort_by folder_sortOrder) in Hr.
      apply list_elem_of_lookup_1 in Hr as [j Hj].
      apply (Hle f r i j); [done..|].
      destruct (decide (i ≤ j)%nat); [done|]. destruct (Hbefore j r Hj); [lia|done].
    + intros Hnoroot. destruct (Hnoroot f); [|done].
      eapply elem_of_sort_by, list_elem_of_lookup_2, Hi.
  - rewrite find_None_all in Hfind.
    destruct (sort_by folder_sortOrder (folders project)) as [|f sorted] eqn:E.
    { by apply sort_by_nil_iff in E. }
    assert (∀ r, r ∈ folders project ↔ r ∈ f :: sorted) as Hin
      by (intros r; by rewrite <- E, elem_of_sort_by).
    exists f. split_and!; [apply Hin; by left|done| | |done].
    + intros r Hr Hrroot. destruct (Hfind r); [by apply Hin|done].
    + intros _ r Hr. apply Hin in Hr.
      apply list_elem_of_lookup_1 in Hr as [j Hj].
      apply (Hle f r 0%nat j); [done..|lia].
Qed.

Lemma autoSelect_selects_first_root_witness :
  ∃ f, f ∈ [mkFolder "f2" "Lugares" "#aaaaaa" None 1;
            mkFolder "f1" "Notas" "#aaaaaa" None 0;
            mkFolder "f0" "Rascunhos" "#aaaaaa" (Some "f1") (-1)]
    ∧ selectedFolderId (autoSelectFolder app_with_gallery) = Some (folder_id f)
    ∧ (∀ r, r ∈ [mkFolder "f2" "Lugares" "#aaaaaa" None 1;
                 mkFolder "f1" "Notas" "#aaaaaa" None 0;
                 mkFolder "f0" "Rascunhos" "#aaaaaa" (Some "f1") (-1)] →
         is_root r → is_root f ∧ folder_sortOrder f ≤ folder_sortOrder r)
    ∧ ((∀ r, r ∈ [mkFolder "f2" "Lugares" "#aaaaaa" None 1;
                  mkFolder "f1" "Notas" "#aaaaaa" None 0;
                  mkFolder "f0" "Rascunhos" "#aaaaaa" (Some "f1") (-1)] → ¬ is_root r) →
         ∀ r, r ∈ [mkFolder "f2" "Lugares" "#aaaaaa" None 1;
                   mkFolder "f1" "Notas" "#aaaaaa" None 0;
                   mkFolder "f0" "Rascunhos" "#aaaaaa" (Some "f1") (-1)] →
              folder_sortOrder f ≤ folder_sortOrder r)
    ∧ projectState (autoSelectFolder app_with_gallery)
      = Some (with_folders
                (default (mkProjectState [] [] [] []) (projectState app_with_gallery))
                (sort_by folder_sortOrder
                   [mkFolder "f2" "Lugares" "#aaaaaa" None 1;
                    mkFolder "f1" "Notas" "#aaaaaa" None 0;
                    mkFolder "f0" "Rascunhos" "#aaaaaa" (Some "f1") (-1)])).
Proof.
  apply (autoSelect_selects_first_root app_with_gallery
           (default (mkProjectState [] [] [] []) (projectState app_with_gallery)));
    [reflexivity|discriminate|reflexivity].
Defined.

Example autoSelect_app_with_gallery :
  selectedFolderId (autoSelectFolder app_with_gallery) = Some "f1"
  ∧ folder_id <$> default [] (folders <$> projectState (autoSelectFolder app_with_gallery))
    = ["f0"; "f1"; "f2"].
Proof. split; vm_compute; reflexivity. Qed.

(** The effect settles in one run: run again on the state it leaves, it
    changes nothing.  It changes nothing either when a folder is selected
    and the project has folders, and it clears the selection when the
    project has no folder. *)
Theorem autoSelect_settles (app : AppState) :
  autoSelectFolder (autoSelectFolder app) = autoSelectFolder app
  ∧ (∀ project, projectState app = Some project → folders project ≠ [] →
       JS.truthy_opt (selectedFolderId app) = true → autoSelectFolder app = app)
  ∧ (∀ project, projectState app = Some project → folders project = [] →
       autoSelectFolder app
       = mkAppState (projectState app) None (selectedArticleId app) (imageStore app)
                    (alerts app)).
Proof.
  destruct app as [[project|] sel selA store al]; [|done].
  split_and!.
  - destruct (decide (folders project = [])) as [Hnil|Hfolders].
    { assert (autoSelectFolder (mkAppState (Some project) sel selA store al)
              = mkAppState (Some project) None selA store al) as ->.
      { unfold autoSelectFolder. cbn [projectState selectedFolderId selectedArticleId imageStore alerts].
        rewrite (bool_decide_eq_false_2 (0 < _)%nat) by (rewrite Hnil; cbn; lia).
        cbn [andb]. cbv zeta. by rewrite bool_decide_eq_true_2 by by rewrite Hnil. }
      unfold autoSelectFolder. cbn [projectState selectedFolderId selectedArticleId imageStore alerts].
        rewrite (bool_decide_eq_false_2 (0 < _)%nat) by (rewrite Hnil; cbn; lia).
        cbn [andb]. cbv zeta. by rewrite bool_decide_eq_true_2 by by rewrite Hnil. }
    assert (0 < length (folders project))%nat as Hlen
      by (destruct (folders project); [done|cbn; lia]).
    destruct (JS.truthy_opt sel) eqn:Hsel.
    { assert (autoSelectFolder (mkAppState (Some project) sel selA store al)
              = mkAppState (Some project) sel selA store al) as E.
      { unfold autoSelectFolder. cbn [projectState selectedFolderId]. rewrite Hsel.
        rewrite andb_false_r. by rewrite bool_decide_eq_false_2 by lia. }
      by rewrite !E. }
    pose proof (length_sort_by folder_sortOrder (folders project)) as Hlen'.
    assert (∃ selected,
              autoSelectFolder (mkAppState (Some project) sel selA store al)
              = mkAppState
                  (Some (with_folders project (sort_by folder_sortOrder (folders project))))
                  selected selA store al
              ∧ (JS.truthy_opt selected = false →
                 selected
                 = match find (λ f, ¬ JS.truthy_opt (folder_parentId f))
                              (sort_by folder_sortOrder (folders project)) with
                   | Some f => Some (folder_id f)
                   | None => folder_id <$> sort_by folder_sortOrder (folders project) !! 0%nat
                   end)) as (selected & E & Hselected).
    { eexists. split.
      - unfold autoSelectFolder. cbn [projectState selectedFolderId]. rewrite Hsel.
        rewrite bool_decide_eq_true_2 by done. cbn [andb negb]. cbv zeta.
        cbn [with_folders folders].
        rewrite (bool_decide_eq_false_2 (length _ = 0%nat)) by lia. reflexivity.
      - done. }
    rewrite !E. unfold autoSelectFolder.
    cbn [projectState selectedFolderId selectedArticleId imageStore alerts
         with_folders folders articles expandedFolderIds expandedArticleIds].
    rewrite (bool_decide_eq_true_2 (0 < _)%nat) by lia.
    destruct (JS.truthy_opt selected) eqn:Hsel'; cbn [andb negb]; cbv zeta.
    + cbn [with_folders folders].
      by rewrite (bool_decide_eq_false_2 (length _ = 0%nat)) by lia.
    + cbn [with_folders folders articles expandedFolderIds expandedArticleIds].
      rewrite sort_by_idempotent.
      rewrite (bool_decide_eq_false_2 (length _ = 0%nat)) by lia.
      by rewrite <- Hselected.
  - intros p [= <-] Hfolders Hsel. cbn [selectedFolderId] in Hsel.
    unfold autoSelectFolder.
    cbn [projectState selectedFolderId selectedArticleId imageStore alerts].
    rewrite Hsel, andb_false_r.
    rewrite bool_decide_eq_false_2; [done|]. by destruct (folders project).
  - intros p [= <-] Hfolders. unfold autoSelectFolder.
    cbn [projectState selectedFolderId selectedArticleId imageStore alerts].
    rewrite (bool_decide_eq_false_2 (0 < _)%nat) by (rewrite Hfolders; cbn; lia).
    cbn [andb]. cbv zeta. by rewrite bool_decide_eq_true_2 by by rewrite Hfolders.
Qed.


(** ** The handlers preserve the invariants of the data model *)

Section SwapKeepsInvariants.
Context {N G : Type} `{TreeNode N G}.
Context (nodes : list N) (Hids : NoDup (node_id <$> nodes)).
Context (Hkeys : sibling_sortOrders_unique nodes).

Lemma reorder_target_Some id direction x t :
  reorder_target id direction nodes = Some (x, t) →
  x ∈ nodes ∧ t ∈ nodes ∧ node_group t = node_group x.
Proof.
  unfold reorder_target.
  destruct (find (λ n, node_id n = id) nodes) as [x0|] eqn:Hfind; [|done].
  cbn [mbind option_bind].
  destruct (list_find _ (sorted_siblings x0 nodes)) as [[i y]|]; [|done].
  cbn [mbind option_bind]. cbv beta iota.
  destruct (adjacent_sibling direction i (sorted_siblings x0 nodes)) as [t0|] eqn:Ht;
    [|done].
  cbn [mbind option_bind]. intros [= <- <-].
  apply find_Some_elem in Hfind as [Hx _]. split; [done|].
  apply (elem_of_sorted_siblings nodes).
  destruct direction; cbn [adjacent_sibling] in Ht.
  - destruct i as [|j]; [done|]. by eapply list_elem_of_lookup_2.
  - by eapply list_elem_of_lookup_2.
Qed.

Context (x t : N) (Hx : x ∈ nodes) (Ht : t ∈ nodes).
Context (Hgroup : node_group t = node_group x).

(** What the swap makes of a node. *)
Lemma swap_at n :
  n ∈ nodes →
  ∃ n', [n'] = swap_sortOrder x t [n]
    ∧ node_id n' = node_id n ∧ node_group n' = node_group n
    ∧ ((n = x ∧ node_sortOrder n' = node_sortOrder t)
       ∨ (n ≠ x ∧ n = t ∧ node_sortOrder n' = node_sortOrder x)
       ∨ (n ≠ x ∧ n ≠ t ∧ n' = n)).
Proof.
  intros Hn. eexists. split; [reflexivity|]. cbv beta.
  case_bool_decide as E1; [|case_bool_decide as E2].
  - rewrite node_id_with, node_group_with, node_sortOrder_with.
    split_and!; [done..|]. left. split; [|done]. by apply (same_id nodes Hids).
  - rewrite node_id_with, node_group_with, node_sortOrder_with.
    split_and!; [done..|]. right. left. split_and!; [by intros ->| |done].
    by apply (same_id nodes Hids).
  - split_and!; [done..|]. right. right. split_and!; [by intros ->|by intros ->|done].
Qed.

Lemma swap_keeps_unique : sibling_sortOrders_unique (swap_sortOrder x t nodes).
Proof.
  intros a' b' (a & -> & Ha)%list_elem_of_fmap (b & -> & Hb)%list_elem_of_fmap.
  destruct (swap_at a Ha) as (a' & [= Ea] & _ & Hga & Hcase_a).
  destruct (swap_at b Hb) as (b' & [= Eb] & _ & Hgb & Hcase_b).
  rewrite <- Ea, <- Eb, Hga, Hgb. intros Hg Hk.
  enough (a = b) by (subst a'; subst b'; by subst b).
  destruct Hcase_a as [[-> Ka]|[(Hax & -> & Ka)|(Hax & Hat & ->)]],
           Hcase_b as [[-> Kb]|[(Hbx & -> & Kb)|(Hbx & Hbt & ->)]];
    try done.
  all: first
    [ by apply Hkeys; first [done|congruence]
    | by destruct Hbt; apply Hkeys; first [done|congruence]
    | by destruct Hbx; apply Hkeys; first [done|congruence]
    | by destruct Hat; apply Hkeys; first [done|congruence]
    | by destruct Hax; apply Hkeys; first [done|congruence] ].
Qed.

Lemma swap_keeps_ids : node_id <$> swap_sortOrder x t nodes = node_id <$> nodes.
Proof.
  unfold swap_sortOrder. rewrite <- list_fmap_compose. apply list_fmap_ext.
  intros _ n _. cbn. repeat case_bool_decide; by rewrite ?node_id_with.
Qed.
End SwapKeepsInvariants.

Section FmapKeepsInvariants.
Context {N G : Type} `{TreeNode N G}.

Lemma reorder_elem id direction (nodes : list N) n' :
  n' ∈ reorder id direction nodes →
  ∃ n, n ∈ nodes ∧ node_id n' = node_id n ∧ node_group n' = node_group n.
Proof.
  unfold reorder. destruct (reorder_target id direction nodes) as [[x t]|].
  - intros (n & -> & Hn)%list_elem_of_fmap. exists n. split; [done|].
    repeat case_bool_decide; by rewrite ?node_id_with, ?node_group_with.
  - intros Hn. by exists n'.
Qed.

Lemma reorder_keeps_unique id direction (nodes : list N) :
  NoDup (node_id <$> nodes) → sibling_sortOrders_unique nodes →
  node_id <$> reorder id direction nodes = node_id <$> nodes
  ∧ sibling_sortOrders_unique (reorder id direction nodes).
Proof.
  intros Hids Hkeys. unfold reorder.
  destruct (reorder_target id direction nodes) as [[x t]|] eqn:E; [|done].
  apply reorder_target_Some in E as (Hx & Ht & Hg).
  split; [apply swap_keeps_ids|by apply swap_keeps_unique].
Qed.

(** A map that keeps the group and the [sortOrder] of every node keeps the
    sort orders of siblings apart. *)
Lemma fmap_keeps_unique (g : N → N) (nodes : list N) :
  (∀ n, n ∈ nodes →
        node_group (g n) = node_group n ∧ node_sortOrder (g n) = node_sortOrder n) →
  sibling_sortOrders_unique nodes → sibling_sortOrders_unique (g <$> nodes).
Proof.
  intros Hg Hkeys a' b' (a & -> & Ha)%list_elem_of_fmap (b & -> & Hb)%list_elem_of_fmap.
  destruct (Hg a Ha) as [-> ->], (Hg b Hb) as [-> ->]. intros E1 E2.
  f_equal. by apply Hkeys.
Qed.

Lemma sublist_keeps_unique (nodes nodes' : list N) :
  nodes' `sublist_of` nodes →
  sibling_sortOrders_unique nodes → sibling_sortOrders_unique nodes'.
Proof.
  intros Hsub Hkeys a b Ha Hb. apply Hkeys; by eapply elem_of_sublist.
Qed.
End FmapKeepsInvariants.

(** *** Folders *)

Lemma folder_sortOrders_unique_siblings fs :
  folder_sortOrders_unique fs ↔ sibling_sortOrders_unique fs.
Proof. done. Qed.

Lemma article_sortOrders_unique_siblings arts :
  article_sortOrders_unique arts ↔ sibling_sortOrders_unique arts.
Proof.
  split.
  - intros Hkeys a b Ha Hb [= Hp Hf] Hk. by apply Hkeys.
  - intros Hkeys a b Ha Hb Hp Hf Hk. apply Hkeys; [done..| |done].
    cbn. by rewrite Hp, Hf.
Qed.

Lemma folder_tree_ok_sublist fs fs' :
  fs' `sublist_of` fs → folder_tree_ok fs → folder_tree_ok fs'.
Proof.
  intros Hsub (Hids & Hkeys & height & Hacyclic). split_and!.
  - eapply sublist_NoDup; [exact Hids|]. by apply fmap_sublist.
  - intros a b Ha Hb. apply Hkeys; by eapply elem_of_sublist.
  - exists height. intros f p Hf. apply Hacyclic. by eapply elem_of_sublist.
Qed.

(** Nodes with the ids and the parents of the nodes of a tree, and sort
    orders of their own that keep siblings apart, form a tree. *)
Lemma folder_tree_ok_same_links fs fs' :
  folder_id <$> fs' = folder_id <$> fs →
  (∀ f', f' ∈ fs' →
         ∃ f, f ∈ fs ∧ folder_id f' = folder_id f
              ∧ folder_parentId f' = folder_parentId f) →
  folder_sortOrders_unique fs' →
  folder_tree_ok fs → folder_tree_ok fs'.
Proof.
  intros Eids Hlinks Hkeys' (Hids & _ & height & Hacyclic). split_and!.
  - by rewrite Eids.
  - done.
  - exists height. intros f' p Hf' Hp.
    destruct (Hlinks f' Hf') as (f & Hf & -> & Eparent).
    apply Hacyclic; [done|]. by rewrite <- Eparent.
Qed.

Lemma handleDeleteFolder_sublists fuel selected id prev result :
  handleDeleteFolder fuel selected id prev = Some result →
  folders (df_state result) `sublist_of` folders prev
  ∧ articles (df_state result) `sublist_of` articles prev.
Proof.
  unfold handleDeleteFolder.
  destruct (find _ (folders prev)) as [folderToDelete|]; [|by intros [= <-]].
  destruct (deleteFolder_loop _ _ _ _) as [idsToDelete|]; [|done].
  cbn [mbind option_bind]. intros [= <-]. cbn [df_state folders articles].
  split; apply sublist_filter.
Qed.

(** Under the invariants of the data model on the folders (unique ids,
    sort orders unique among siblings, no parent cycle), every folder
    handler leaves folders that satisfy them: [createFolder] for an id that
    is new when the sort orders are safe integers, [handleUpdateFolder],
    [handleReorderFolder] (which does not raise) and [handleDeleteFolder]
    whenever its loop ends.  Safe sort orders are needed: when the greatest
    sort order among the siblings of the new folder is [2^53],
    [createFolder] gives the new folder that sort order again. *)
Theorem folder_handlers_keep_tree_ok (color : string) (prev : ProjectState) :
  folder_tree_ok (folders prev) →
  (∀ newId parentId,
     fresh_folder_id newId (folders prev) → parentId ≠ Some newId →
     safe_sortOrders (folder_sortOrder <$> folders prev) →
     folder_tree_ok (folders (createFolder color newId parentId prev)))
  ∧ (∀ newId parentId,
       fresh_folder_id newId (folders prev) →
       is_max (folder_sortOrder <$>
                 filter (λ f, folder_parentId f = parentId) (folders prev))
              (JS.MAX_SAFE_INTEGER + 1) →
       ¬ folder_sortOrders_unique (folders (createFolder color newId parentId prev)))
  ∧ (∀ id newName newColor,
       folder_tree_ok (folders (handleUpdateFolder id newName newColor prev)))
  ∧ (∀ id direction,
       ∃ next, handleReorderFolder id direction prev = Some next
               ∧ folder_tree_ok (folders next))
  ∧ (∀ fuel selected id result,
       handleDeleteFolder fuel selected id prev = Some result →
       folder_tree_ok (folders (df_state result))).
Proof.
  intros Hok. split_and!.
  - intros newId parentId Hfresh Hparent Hsafe.
    destruct Hok as (Hids & Hkeys & height & Hacyclic).
    unfold createFolder. cbv zeta. cbn [with_folders folders].
    destruct (created_sortOrder folder_sortOrder
                (λ f, folder_parentId f = parentId) (folders prev)) as [Hmax _].
    cbv zeta in Hmax. specialize (Hmax Hsafe).
    set (newFolder := mkFolder newId _ color parentId _).
    assert (∀ b, b ∈ folders prev → folder_parentId b = parentId →
                 folder_sortOrder b < folder_sortOrder newFolder) as Hnew.
    { intros b Hb Hp. cbn [newFolder folder_sortOrder]. by apply Hmax. }
    split_and!.
    + rewrite fmap_app. apply NoDup_app. split_and!; [done| |apply NoDup_singleton].
      intros x (f & -> & Hf)%list_elem_of_fmap [= E]%list_elem_of_singleton.
      by destruct (Hfresh f Hf).
    + intros a b [Ha|Ha%list_elem_of_singleton]%elem_of_app
                 [Hb|Hb%list_elem_of_singleton]%elem_of_app Hp Hk.
      * by apply Hkeys.
      * subst b. specialize (Hnew a Ha Hp). lia.
      * subst a. specialize (Hnew b Hb (eq_sym Hp)). lia.
      * by subst.
    + exists (λ x, if bool_decide (x = newId) then 0%nat else S (height x)).
      intros f p [Hf|Hf%list_elem_of_singleton]%elem_of_app Hp.
      * destruct (Hfresh f Hf) as [Hid Hpid].
        rewrite !bool_decide_eq_false_2; [|congruence|done].
        specialize (Hacyclic f p Hf Hp). lia.
      * subst f. cbn [newFolder folder_id folder_parentId] in *.
        rewrite bool_decide_eq_true_2 by done.
        rewrite bool_decide_eq_false_2 by congruence. lia.
  - intros newId parentId Hfresh Htie Hkeys.
    destruct (created_sortOrder folder_sortOrder
                (λ f, folder_parentId f = parentId) (folders prev)) as [_ Hsame].
    cbv zeta in Hsame. destruct (Hsame Htie) as (b & Hb & Hp & Hk).
    unfold createFolder in Hkeys. cbv zeta in Hkeys. cbn [with_folders folders] in Hkeys.
    set (newFolder := mkFolder newId _ color parentId _) in Hkeys.
    assert (b = newFolder) as E.
    { apply Hkeys; [apply elem_of_app; by left
                   |apply elem_of_app; right; by apply list_elem_of_singleton
                   |done|done]. }
    destruct (Hfresh b Hb) as [Hid _]. apply Hid. by rewrite E.
  - intros id newName newColor. unfold handleUpdateFolder. cbn [with_folders folders].
    apply (folder_tree_ok_same_links (folders prev)); [| | |done].
    + rewrite <- list_fmap_compose. apply list_fmap_ext. intros _ f _. cbn.
      by case_bool_decide.
    + intros f' (f & -> & Hf)%list_elem_of_fmap. exists f. by case_bool_decide.
    + apply folder_sortOrders_unique_siblings, fmap_keeps_unique; [|apply Hok].
      intros f _. by case_bool_decide.
  - intros id direction. rewrite handleReorderFolder_reorder. eexists. split; [done|].
    cbn [with_folders folders].
    destruct (reorder_keeps_unique id direction (folders prev)) as [Eids Hkeys'];
      [apply Hok..|].
    apply (folder_tree_ok_same_links (folders prev)); [done| |done|done].
    intros f' Hf'. exact (reorder_elem id direction (folders prev) f' Hf').
  - intros fuel selected id result Hresult.
    apply (folder_tree_ok_sublist (folders prev)); [|done].
    by eapply handleDeleteFolder_sublists.
Qed.

Lemma reorder_project_folder_tree_ok : folder_tree_ok (folders reorder_project).
Proof.
  split_and!.
  - exact reorder_project_folder_ids.
  - exact reorder_project_folder_sortOrders.
  - exists (λ x, if bool_decide (x = "w") then 0%nat else 1%nat).
    intros f p Hf Hp. unfold reorder_project in Hf. cbn [folders] in Hf.
    list_cases Hf; cbn in Hp; simplify_eq; compute; lia.
Qed.

Lemma folder_handlers_keep_tree_ok_witness :
  folder_tree_ok (folders reorder_project)
  ∧ (∀ newId parentId,
       fresh_folder_id newId (folders reorder_project) → parentId ≠ Some newId →
       folder_tree_ok (folders (createFolder "#aaaaaa" newId parentId reorder_project)))
  ∧ (∀ id newName newColor,
       folder_tree_ok (folders (handleUpdateFolder id newName newColor reorder_project)))
  ∧ (∀ id direction,
       ∃ next, handleReorderFolder id direction reorder_project = Some next
               ∧ folder_tree_ok (folders next))
  ∧ (∀ fuel selected id result,
       handleDeleteFolder fuel selected id reorder_project = Some result →
       folder_tree_ok (folders (df_state result))).
Proof.
  split; [exact reorder_project_folder_tree_ok|].
  destruct (folder_handlers_keep_tree_ok "#aaaaaa" reorder_project
              reorder_project_folder_tree_ok) as (Hcreate & _ & Hrest).
  split; [|exact Hrest].
  intros newId parentId Hfresh Hparent. apply Hcreate; [done..|].
  intros k Hk. vm_compute in Hk. unfold JS.MAX_SAFE_INTEGER. list_cases Hk; lia.
Defined.

(** *** Articles *)

Lemma article_tree_ok_sublist arts arts' :
  arts' `sublist_of` arts → article_tree_ok arts → article_tree_ok arts'.
Proof.
  intros Hsub (Hids & Hkeys & height & Hacyclic). split_and!.
  - eapply sublist_NoDup; [exact Hids|]. by apply fmap_sublist.
  - intros a b Ha Hb. apply Hkeys; by eapply elem_of_sublist.
  - exists height. intros a p Ha. apply Hacyclic. by eapply elem_of_sublist.
Qed.

Lemma article_tree_ok_same_links arts arts' :
  article_id <$> arts' = article_id <$> arts →
  (∀ a', a' ∈ arts' →
         ∃ a, a ∈ arts ∧ article_id a' = article_id a
              ∧ article_parentId a' = article_parentId a) →
  article_sortOrders_unique arts' →
  article_tree_ok arts → article_tree_ok arts'.
Proof.
  intros Eids Hlinks Hkeys' (Hids & _ & height & Hacyclic). split_and!.
  - by rewrite Eids.
  - done.
  - exists height. intros a' p Ha' Hp.
    destruct (Hlinks a' Ha') as (a & Ha & -> & Eparent).
    apply Hacyclic; [done|]. by rewrite <- Eparent.
Qed.

(** Appending a node whose id is new and whose [sortOrder] is above that of
    every sibling it gets. *)
Lemma article_tree_ok_snoc arts newArticle :
  fresh_article_id (article_id newArticle) arts →
  article_parentId newArticle ≠ Some (article_id newArticle) →
  (∀ b, b ∈ arts → article_parentId b = article_parentId newArticle →
        article_folderId b = article_folderId newArticle →
        article_sortOrder b < article_sortOrder newArticle) →
  article_tree_ok arts → article_tree_ok (arts ++ [newArticle]).
Proof.
  intros Hfresh Hparent Hnew (Hids & Hkeys & height & Hacyclic). split_and!.
  - rewrite fmap_app. apply NoDup_app. split_and!; [done| |apply NoDup_singleton].
    intros x (a & -> & Ha)%list_elem_of_fmap [= E]%list_elem_of_singleton.
    by destruct (Hfresh a Ha).
  - intros a b [Ha|Ha%list_elem_of_singleton]%elem_of_app
               [Hb|Hb%list_elem_of_singleton]%elem_of_app Hp Hf Hk.
    + by apply Hkeys.
    + subst b. specialize (Hnew a Ha Hp Hf). lia.
    + subst a. specialize (Hnew b Hb (eq_sym Hp) (eq_sym Hf)). lia.
    + by subst.
  - exists (λ x, if bool_decide (x = article_id newArticle) then 0%nat else S (height x)).
    intros a p [Ha|Ha%list_elem_of_singleton]%elem_of_app Hp.
    + destruct (Hfresh a Ha) as [Hid Hpid].
      rewrite !bool_decide_eq_false_2; [|congruence|done].
      specialize (Hacyclic a p Ha Hp). lia.
    + subst a. rewrite bool_decide_eq_true_2 by done.
      rewrite bool_decide_eq_false_2 by congruence. lia.
Qed.

Lemma handleDeleteArticle_sublist fuel selected id prev result :
  handleDeleteArticle fuel selected id prev = Some result →
  articles (da_state result) `sublist_of` articles prev.
Proof.
  unfold handleDeleteArticle. cbv zeta.
  destruct (deleteArticle_loop _ _ _ _ _) as [[idsToDelete articlesToDelete]|]; [|done].
  cbn [mbind option_bind]. intros [= <-]. cbn [da_state].
  destruct prev as [fs arts efs eas]. cbn [with_articles articles]. apply sublist_filter.
Qed.

(** Under the invariants of the data model on the articles (unique ids,
    sort orders unique among siblings, no parent cycle), every handler
    leaves articles that satisfy them: the two creations for an id that is
    new when the sort orders are safe integers, the rename, the reorder, the
    save of an article that kept its place in the tree, and the two
    cascading deletes whenever their loops end.  Safe sort orders are
    needed: when the greatest sort order among the siblings of the new
    article is [2^53], either creation gives the new article that sort order
    again. *)
Theorem article_handlers_keep_tree_ok (prev : ProjectState) :
  article_tree_ok (articles prev) →
  (∀ newId selectedFolderId,
     fresh_article_id newId (articles prev) →
     safe_sortOrders (article_sortOrder <$> articles prev) →
     article_tree_ok (articles (handleCreateArticle newId selectedFolderId prev)))
  ∧ (∀ newId parentId,
       fresh_article_id newId (articles prev) →
       safe_sortOrders (article_sortOrder <$> articles prev) →
       article_tree_ok (articles (handleCreateSubArticle newId parentId prev)))
  ∧ (∀ newId folderId,
       JS.truthy folderId = true →
       fresh_article_id newId (articles prev) →
       is_max (article_sortOrder <$>
                 filter (λ a, article_folderId a = folderId ∧ article_parentId a = None)
                        (articles prev))
              (JS.MAX_SAFE_INTEGER + 1) →
       ¬ article_sortOrders_unique
           (articles (handleCreateArticle newId (Some folderId) prev)))
  ∧ (∀ newId parentId parentArticle,
       find (λ a, article_id a = parentId) (articles prev) = Some parentArticle →
       (∀ a, a ∈ articles prev → article_parentId a = Some parentId →
             article_folderId a = article_folderId parentArticle) →
       fresh_article_id newId (articles prev) →
       is_max (article_sortOrder <$>
                 filter (λ a, article_parentId a = Some parentId) (articles prev))
              (JS.MAX_SAFE_INTEGER + 1) →
       ¬ article_sortOrders_unique
           (articles (handleCreateSubArticle newId parentId prev)))
  ∧ (∀ id newTitle,
       article_tree_ok (articles (handleUpdateArticleTitle id newTitle prev)))
  ∧ (∀ id direction,
       article_tree_ok (articles (handleReorderArticle id direction prev)))
  ∧ (∀ updated,
       keeps_place updated (articles prev) →
       article_tree_ok (articles (handleSaveArticle updated prev)))
  ∧ (∀ fuel selected id result,
       handleDeleteArticle fuel selected id prev = Some result →
       article_tree_ok (articles (da_state result)))
  ∧ (∀ fuel selected id result,
       handleDeleteFolder fuel selected id prev = Some result →
       article_tree_ok (articles (df_state result))).
Proof.
  intros Hok. split_and!.
  - intros newId [sel|] Hfresh Hsafe; [|done]. unfold handleCreateArticle.
    destruct (JS.truthy sel); [|done]. cbv zeta. cbn [with_articles articles].
    destruct (created_sortOrder (λ a, JS.or_zero (article_sortOrder a))
                (λ a, article_folderId a = sel ∧ article_parentId a = None)
                (articles prev)) as [Hmax _].
    cbv zeta in Hmax. apply article_tree_ok_snoc; [done|done| |done].
    intros b Hb Hp Hf. cbn [article_sortOrder].
    rewrite <- (or_zero_id (article_sortOrder b)). apply Hmax; [|done|done].
    intros k (a & -> & Ha)%list_elem_of_fmap. rewrite or_zero_id.
    by apply Hsafe, list_elem_of_fmap_2.
  - intros newId parentId Hfresh Hsafe. unfold handleCreateSubArticle.
    destruct (find _ (articles prev)) as [parentArticle|] eqn:Hfind; [|done].
    cbv zeta. cbn [articles].
    apply find_Some_elem in Hfind as [Hparent Hid].
    destruct (created_sortOrder article_sortOrder
                (λ a, article_parentId a = Some parentId) (articles prev)) as [Hmax _].
    cbv zeta in Hmax. apply article_tree_ok_snoc; [done| | |done].
    + cbn [article_parentId article_id]. intros [= ->].
      by destruct (Hfresh parentArticle Hparent).
    + intros b Hb Hp Hf. cbn [article_sortOrder]. by apply Hmax.
  - intros newId folderId Hsel Hfresh Htie Hkeys.
    unfold handleCreateArticle in Hkeys. rewrite Hsel in Hkeys.
    cbv zeta in Hkeys. cbn [with_articles articles] in Hkeys.
    destruct (created_sortOrder (λ a, JS.or_zero (article_sortOrder a))
                (λ a, article_folderId a = folderId ∧ article_parentId a = None)
                (articles prev)) as [_ Hsame].
    cbv zeta in Hsame. destruct Hsame as (b & Hb & [Hf Hp] & Hk).
    { erewrite list_fmap_ext; [exact Htie|]. intros _ a _. apply or_zero_id. }
    rewrite or_zero_id in Hk.
    set (newArticle := mkArticle newId _ folderId _ [] [] None) in Hkeys.
    assert (b = newArticle) as E.
    { apply Hkeys; [apply elem_of_app; by left
                   |apply elem_of_app; right; by apply list_elem_of_singleton
                   |done|done|done]. }
    destruct (Hfresh b Hb) as [Hid _]. apply Hid. by rewrite E.
  - intros newId parentId parentArticle Hfind Hfolder Hfresh Htie Hkeys.
    unfold handleCreateSubArticle in Hkeys. rewrite Hfind in Hkeys.
    cbv zeta in Hkeys. cbn [articles] in Hkeys.
    destruct (created_sortOrder article_sortOrder
                (λ a, article_parentId a = Some parentId) (articles prev)) as [_ Hsame].
    cbv zeta in Hsame. destruct (Hsame Htie) as (b & Hb & Hp & Hk).
    set (newArticle := mkArticle newId _ _ _ [] [] (Some parentId)) in Hkeys.
    assert (b = newArticle) as E.
    { apply Hkeys; [apply elem_of_app; by left
                   |apply elem_of_app; right; by apply list_elem_of_singleton
                   |done|by apply Hfolder|done]. }
    destruct (Hfresh b Hb) as [Hid _]. apply Hid. by rewrite E.
  - intros id newTitle. unfold handleUpdateArticleTitle. cbn [with_articles articles].
    apply (article_tree_ok_same_links (articles prev)); [| | |done].
    + rewrite <- list_fmap_compose. apply list_fmap_ext. intros _ a _. cbn.
      by case_bool_decide.
    + intros a' (a & -> & Ha)%list_elem_of_fmap. exists a. by case_bool_decide.
    + apply article_sortOrders_unique_siblings, fmap_keeps_unique.
      * intros a _. by case_bool_decide.
      * apply article_sortOrders_unique_siblings, Hok.
  - intros id direction. rewrite handleReorderArticle_reorder.
    cbn [with_articles articles].
    destruct (reorder_keeps_unique id direction (articles prev)) as [Eids Hkeys'];
      [apply Hok|apply article_sortOrders_unique_siblings, Hok|].
    apply (article_tree_ok_same_links (articles prev));
      [done| |by apply article_sortOrders_unique_siblings|done].
    intros a' Ha'.
    destruct (reorder_elem id direction (articles prev) a' Ha') as (a & Ha & Eid & Eg).
    exists a. split_and!; [done..|]. by injection Eg.
  - intros updated Hplace. unfold handleSaveArticle. cbn [with_articles articles].
    apply (article_tree_ok_same_links (articles prev)); [| | |done].
    + rewrite <- list_fmap_compose. apply list_fmap_ext. intros _ a _. cbn.
      by case_bool_decide.
    + intros a' (a & -> & Ha)%list_elem_of_fmap. exists a. split; [done|].
      case_bool_decide as E; [|done]. by destruct (Hplace a Ha E) as (-> & _).
    + apply article_sortOrders_unique_siblings, fmap_keeps_unique.
      * intros a Ha. case_bool_decide as E; [|done].
        destruct (Hplace a Ha E) as (Hp & Hf & Hk). cbn. by rewrite Hp, Hf, Hk.
      * apply article_sortOrders_unique_siblings, Hok.
  - intros fuel selected id result Hresult.
    apply (article_tree_ok_sublist (articles prev)); [|done].
    by eapply handleDeleteArticle_sublist.
  - intros fuel selected id result Hresult.
    apply (article_tree_ok_sublist (articles prev)); [|done].
    by eapply handleDeleteFolder_sublists.
Qed.

Lemma reorder_project_article_tree_ok : article_tree_ok (articles reorder_project).
Proof.
  split_and!.
  - exact reorder_project_article_ids.
  - exact reorder_project_article_sortOrders.
  - exists (λ x, if bool_decide (x = "a") then 1%nat else 0%nat).
    intros a p Ha Hp. unfold reorder_project in Ha. cbn [articles] in Ha.
    list_cases Ha; cbn in Hp; simplify_eq; compute; lia.
Qed.

Lemma article_handlers_keep_tree_ok_witness :
  article_tree_ok (articles reorder_project)
  ∧ (∀ newId selectedFolderId,
       fresh_article_id newId (articles reorder_project) →
       article_tree_ok
         (articles (handleCreateArticle newId selectedFolderId reorder_project)))
  ∧ (∀ newId parentId,
       fresh_article_id newId (articles reorder_project) →
       article_tree_ok (articles (handleCreateSubArticle newId parentId reorder_project)))
  ∧ (∀ id newTitle,
       article_tree_ok (articles (handleUpdateArticleTitle id newTitle reorder_project)))
  ∧ (∀ id direction,
       article_tree_ok (articles (handleReorderArticle id direction reorder_project)))
  ∧ (∀ updated,
       keeps_place updated (articles reorder_project) →
       article_tree_ok (articles (handleSaveArticle updated reorder_project)))
  ∧ (∀ fuel selected id result,
       handleDeleteArticle fuel selected id reorder_project = Some result →
       article_tree_ok (articles (da_state result)))
  ∧ (∀ fuel selected id result,
       handleDeleteFolder fuel selected id reorder_project = Some result →
       article_tree_ok (articles (df_state result))).
Proof.
  split; [exact reorder_project_article_tree_ok|].
  destruct (article_handlers_keep_tree_ok reorder_project
              reorder_project_article_tree_ok)
    as (Hcreate & Hsub & _ & _ & Hrest).
  assert (safe_sortOrders (article_sortOrder <$> articles reorder_project)) as Hsafe.
  { intros k Hk. vm_compute in Hk. unfold JS.MAX_SAFE_INTEGER. list_cases Hk; lia. }
  split; [|split; [|exact Hrest]].
  - intros newId selectedFolderId Hfresh. by apply Hcreate.
  - intros newId parentId Hfresh. by apply Hsub.
Defined.


(** ** The editor of an article *)

Section Moved.
Context {A : Type} (P : A → Prop) `{∀ x, Decision (P x)}.

Lemma findIndex_first (l1 l2 : list A) x :
  (∀ y, y ∈ l1 → ¬ P y) → P x → findIndex P (l1 ++ x :: l2) = Z.of_nat (length l1).
Proof.
  intros Hl1 Hx. unfold findIndex.
  assert (list_find P (l1 ++ x :: l2) = Some (length l1, x)) as ->; [|done].
  apply list_find_Some. split_and!; [by rewrite list_lookup_middle|done|].
  intros j y Hj Hlt. apply Hl1.
  rewrite lookup_app_l in Hj by done. by eapply list_elem_of_lookup_2.
Qed.

Lemma findIndex_absent (l : list A) : (∀ y, y ∈ l → ¬ P y) → findIndex P l = -1.
Proof.
  intros Hl. unfold findIndex.
  assert (list_find P l = None) as ->; [|done].
  by apply list_find_None, Forall_forall.
Qed.

(** Either no element satisfies [P], or the list splits at the first one
    that does. *)
Lemma first_split (l : list A) :
  (∀ y, y ∈ l → ¬ P y)
  ∨ ∃ l1 x l2, l = l1 ++ x :: l2 ∧ P x ∧ ∀ y, y ∈ l1 → ¬ P y.
Proof.
  induction l as [|a l [IH|(l1 & x & l2 & -> & Hx & Hl1)]].
  - left. by intros y ?%elem_of_nil.
  - destruct (decide (P a)) as [Ha|Ha].
    + right. exists [], a, l. split_and!; [done..|]. by intros y ?%elem_of_nil.
    + left. intros y [->|Hy]%elem_of_cons; [done|by apply IH].
  - right. destruct (decide (P a)) as [Ha|Ha].
    + exists [], a, (l1 ++ x :: l2). split_and!; [done..|]. by intros y ?%elem_of_nil.
    + exists (a :: l1), x, l2. split_and!; [done..|].
      intros y [->|Hy]%elem_of_cons; [done|by apply Hl1].
Qed.

Lemma splice_move_up (l1 l2 : list A) t x :
  splice_move (S (length l1)) (length l1) (l1 ++ t :: x :: l2) = l1 ++ x :: t :: l2.
Proof.
  unfold splice_move. rewrite (cons_middle t), app_assoc.
  replace (S (length l1)) with (length (l1 ++ [t])) by (rewrite length_app; cbn; lia).
  rewrite list_lookup_middle by done. cbv zeta.
  rewrite delete_middle, <- app_assoc, take_app_length, drop_app_length. done.
Qed.

Lemma splice_move_down (l1 l2 : list A) t x :
  splice_move (length l1) (S (length l1)) (l1 ++ x :: t :: l2) = l1 ++ t :: x :: l2.
Proof.
  unfold splice_move. rewrite list_lookup_middle by done. cbv zeta.
  rewrite delete_middle, (cons_middle t), app_assoc.
  replace (S (length l1)) with (length (l1 ++ [t])) by (rewrite length_app; cbn; lia).
  rewrite take_app_length, drop_app_length, <- app_assoc. done.
Qed.

Lemma moved_absent direction (l : list A) :
  (∀ y, y ∈ l → ¬ P y) → moved P direction l = l.
Proof.
  intros Hl. unfold moved. rewrite findIndex_absent by done.
  by rewrite bool_decide_eq_true_2.
Qed.

Lemma moved_up_first (l2 : list A) x : P x → moved P Up (x :: l2) = x :: l2.
Proof.
  intros Hx. unfold moved.
  assert (findIndex P (x :: l2) = 0) as ->.
  { apply (findIndex_first [] l2 x); [|done]. by intros y ?%elem_of_nil. } rewrite bool_decide_eq_false_2 by lia. cbv zeta.
  rewrite (bool_decide_eq_true_2 (Up = Up)) by done.
  by rewrite (bool_decide_eq_true_2 (_ < 0)) by lia.
Qed.

Lemma moved_up (l1 l2 : list A) t x :
  (∀ y, y ∈ l1 → ¬ P y) → ¬ P t → P x →
  moved P Up (l1 ++ t :: x :: l2) = l1 ++ x :: t :: l2.
Proof.
  intros Hl1 Ht Hx. unfold moved.
  assert (findIndex P (l1 ++ t :: x :: l2) = Z.of_nat (S (length l1))) as ->.
  { rewrite (cons_middle t), app_assoc. rewrite findIndex_first.
    - rewrite length_app. cbn. lia.
    - intros y [Hy|Hy%list_elem_of_singleton]%elem_of_app; [by apply Hl1|by subst y].
    - done. }
  rewrite bool_decide_eq_false_2 by lia. cbv zeta.
  rewrite (bool_decide_eq_true_2 (Up = Up)) by done.
  rewrite (bool_decide_eq_false_2 (_ < 0)) by lia.
  rewrite (bool_decide_eq_false_2 (_ ≤ _)) by (rewrite length_app; cbn; lia).
  cbn [orb]. rewrite Nat2Z.id.
  replace (Z.to_nat (Z.of_nat (S (length l1)) - 1)) with (length l1) by lia.
  apply splice_move_up.
Qed.

Lemma moved_down_last (l1 : list A) x :
  (∀ y, y ∈ l1 → ¬ P y) → P x → moved P Down (l1 ++ [x]) = l1 ++ [x].
Proof.
  intros Hl1 Hx. unfold moved. rewrite findIndex_first by done.
  rewrite bool_decide_eq_false_2 by lia. cbv zeta.
  rewrite (bool_decide_eq_false_2 (Down = Up)) by done.
  rewrite (bool_decide_eq_true_2 (_ ≤ _)) by (rewrite length_app; cbn; lia).
  by rewrite orb_true_r.
Qed.

Lemma moved_down (l1 l2 : list A) t x :
  (∀ y, y ∈ l1 → ¬ P y) → P x →
  moved P Down (l1 ++ x :: t :: l2) = l1 ++ t :: x :: l2.
Proof.
  intros Hl1 Hx. unfold moved. rewrite findIndex_first by done.
  rewrite bool_decide_eq_false_2 by lia. cbv zeta.
  rewrite (bool_decide_eq_false_2 (Down = Up)) by done.
  rewrite (bool_decide_eq_false_2 (_ < 0)) by lia.
  rewrite (bool_decide_eq_false_2 (_ ≤ _)) by (rewrite length_app; cbn; lia).
  cbn [orb]. rewrite Nat2Z.id.
  replace (Z.to_nat (Z.of_nat (length l1) + 1)) with (S (length l1)) by lia.
  apply splice_move_down.
Qed.

(** A move loses no element and adds none. *)
Lemma moved_Permutation direction (l : list A) : moved P direction l ≡ₚ l.
Proof.
  destruct (first_split l) as [Hl|(l1 & x & l2 & -> & Hx & Hl1)].
  { by rewrite moved_absent. }
  destruct direction.
  - destruct l1 as [|t l1 _] using rev_ind; [cbn [app]; by rewrite moved_up_first|].
    rewrite <- app_assoc. cbn [app]. rewrite moved_up.
    + apply Permutation_app_head, Permutation_swap.
    + intros y Hy. apply Hl1, elem_of_app. by left.
    + apply Hl1, elem_of_app. right. by left.
    + done.
  - destruct l2 as [|t l2]; [by rewrite moved_down_last|].
    rewrite moved_down by done. apply Permutation_app_head, Permutation_swap.
Qed.

(** Up then down brings the list back, unless the element was first. *)
Lemma moved_up_down (l1 l2 : list A) t x :
  (∀ y, y ∈ l1 → ¬ P y) → ¬ P t → P x →
  moved P Down (moved P Up (l1 ++ t :: x :: l2)) = l1 ++ t :: x :: l2.
Proof. intros Hl1 Ht Hx. rewrite moved_up by done. by apply moved_down. Qed.

(** Down then up brings the list back when the element passed is not
    another one that satisfies [P]. *)
Lemma moved_down_up (l1 l2 : list A) t x :
  (∀ y, y ∈ l1 → ¬ P y) → ¬ P t → P x →
  moved P Up (moved P Down (l1 ++ x :: t :: l2)) = l1 ++ x :: t :: l2.
Proof. intros Hl1 Ht Hx. rewrite moved_down by done. by apply moved_up. Qed.
End Moved.

Lemma article_with_sections_same a : article_with_sections a (article_sections a) = a.
Proof. by destruct a. Qed.

Lemma handleReorderSection_moved sectionId direction article :
  handleReorderSection sectionId direction article
  = article_with_sections article
      (moved (λ s, section_id s = sectionId) direction (article_sections article)).
Proof.
  unfold handleReorderSection, moved. cbv zeta.
  repeat (case_bool_decide; cbn [orb]); by rewrite ?article_with_sections_same.
Qed.

Lemma handleReorderField_moved sectionId fieldId direction article :
  handleReorderField sectionId fieldId direction article
  = article_with_sections article
      ((λ s, match s with
             | FieldsSection id title fields =>
                 if bool_decide (id = sectionId)
                 then FieldsSection id title
                        (moved (λ f, field_id f = fieldId) direction fields)
                 else s
             | ImagesSection _ _ _ => s
             end) <$> article_sections article).
Proof.
  unfold handleReorderField, moved. f_equal. apply list_fmap_ext.
  intros _ [id title fields|id title images] _; [|done]. cbv zeta.
  by repeat (case_bool_decide; cbn [orb]).
Qed.

(** *** Moving a section, moving a field *)

(** [handleReorderSection] moves the first section with the id one place:
    up past the section before it, down past the section after it, and
    nowhere from the first place up or from the last place down.  Up then
    down gives the draft back, and so does down then up unless the section
    passed has the same id. *)
Theorem reorderSection_moves_one_place (article : Article) (sectionId : string)
    (l1 l2 : list Section) (x : Section) :
  article_sections article = l1 ++ x :: l2 →
  section_id x = sectionId →
  (∀ s, s ∈ l1 → section_id s ≠ sectionId) →
  (l1 = [] → handleReorderSection sectionId Up article = article)
  ∧ (∀ l0 t, l1 = l0 ++ [t] →
       handleReorderSection sectionId Up article
       = article_with_sections article (l0 ++ x :: t :: l2)
       ∧ handleReorderSection sectionId Down
           (handleReorderSection sectionId Up article) = article)
  ∧ (l2 = [] → handleReorderSection sectionId Down article = article)
  ∧ (∀ t l3, l2 = t :: l3 →
       handleReorderSection sectionId Down article
       = article_with_sections article (l1 ++ t :: x :: l3)
       ∧ (section_id t ≠ sectionId →
          handleReorderSection sectionId Up
            (handleReorderSection sectionId Down article) = article)).
Proof.
  intros Hsections Hx Hl1. rewrite !handleReorderSection_moved.
  destruct article as [id title fid so ss rel pid]. cbn in Hsections. subst ss.
  unfold article_with_sections. cbn [article_sections article_id article_title
    article_folderId article_sortOrder article_relatedArticleIds article_parentId].
  split_and!.
  - intros ->. cbn [app]. by rewrite moved_up_first.
  - intros l0 t ->. rewrite <- !app_assoc. cbn [app].
    assert (∀ s, s ∈ l0 → section_id s ≠ sectionId) as Hl0
      by (intros s Hs; apply Hl1, elem_of_app; by left).
    assert (section_id t ≠ sectionId) as Ht
      by (apply Hl1, elem_of_app; right; by left).
    rewrite moved_up by done. split; [done|]. by rewrite moved_down.
  - intros ->. by rewrite moved_down_last.
  - intros t l3 ->. rewrite moved_down by done. split; [done|].
    intros Ht. by rewrite moved_up.
Qed.

Lemma reorderSection_moves_one_place_witness :
  handleReorderSection "s2" Down (handleReorderSection "s2" Up draft_article)
  = draft_article
  ∧ article_sections (handleReorderSection "s2" Up draft_article)
    = [ImagesSection "s2" "Galeria" [mkImageField "i1" "capa" None;
                                     mkImageField "i2" "mapa" None];
       FieldsSection "s1" "Notas"
         [mkField "k1" "Idade" "12"; mkField "k2" "Cidade" "Lisboa";
          mkField "k3" "Medo" "escuro"];
       ImagesSection "s3" "Esbocos" [mkImageField "i3" "rosto" None]].
Proof.
  destruct (reorderSection_moves_one_place draft_article "s2"
              [FieldsSection "s1" "Notas"
                 [mkField "k1" "Idade" "12"; mkField "k2" "Cidade" "Lisboa";
                  mkField "k3" "Medo" "escuro"]]
              [ImagesSection "s3" "Esbocos" [mkImageField "i3" "rosto" None]]
              (ImagesSection "s2" "Galeria" [mkImageField "i1" "capa" None;
                                             mkImageField "i2" "mapa" None]))
    as (_ & Hup & _).
  - reflexivity.
  - reflexivity.
  - intros s Hs%list_elem_of_singleton. by subst s.
  - destruct (Hup [] (FieldsSection "s1" "Notas"
                        [mkField "k1" "Idade" "12"; mkField "k2" "Cidade" "Lisboa";
                         mkField "k3" "Medo" "escuro"]) eq_refl) as [E1 E2].
    split; [exact E2|]. by rewrite E1.
Defined.

(** [handleReorderField] moves the first field with the id one place inside
    the fields section with the section id, at the place the section has in
    the draft; when no other section has that id, up then down gives the
    draft back. *)
Theorem reorderField_moves_one_place (article : Article) (sectionId fieldId : string)
    (i : nat) (title : string) (f1 f2 : list Field) (x : Field) :
  article_sections article !! i = Some (FieldsSection sectionId title (f1 ++ x :: f2)) →
  field_id x = fieldId →
  (∀ f, f ∈ f1 → field_id f ≠ fieldId) →
  (f1 = [] →
   article_sections (handleReorderField sectionId fieldId Up article) !! i
   = Some (FieldsSection sectionId title (x :: f2)))
  ∧ (∀ f0 t, f1 = f0 ++ [t] →
       article_sections (handleReorderField sectionId fieldId Up article) !! i
       = Some (FieldsSection sectionId title (f0 ++ x :: t :: f2))
       ∧ ((∀ j s, article_sections article !! j = Some s →
                  section_id s = sectionId → j = i) →
          handleReorderField sectionId fieldId Down
            (handleReorderField sectionId fieldId Up article) = article))
  ∧ (f2 = [] →
     article_sections (handleReorderField sectionId fieldId Down article) !! i
     = Some (FieldsSection sectionId title (f1 ++ [x])))
  ∧ (∀ t f3, f2 = t :: f3 →
       article_sections (handleReorderField sectionId fieldId Down article) !! i
       = Some (FieldsSection sectionId title (f1 ++ t :: x :: f3))).
Proof.
  intros Hi Hx Hf1. rewrite !handleReorderField_moved.
  destruct article as [id atitle fid so ss rel pid]. cbn in Hi.
  unfold article_with_sections. cbn [article_sections article_id article_title
    article_folderId article_sortOrder article_relatedArticleIds article_parentId].
  rewrite !list_lookup_fmap, Hi. cbn [fmap option_fmap option_map].
  rewrite !bool_decide_eq_true_2 by done.
  split_and!.
  - intros ->. cbn [app]. by rewrite moved_up_first.
  - intros f0 t ->. rewrite <- !app_assoc. cbn [app].
    assert (∀ f, f ∈ f0 → field_id f ≠ fieldId) as Hf0
      by (intros f Hf; apply Hf1, elem_of_app; by left).
    assert (field_id t ≠ fieldId) as Ht
      by (apply Hf1, elem_of_app; right; by left).
    rewrite moved_up by done. split; [done|]. intros Honly. f_equal.
    rewrite <- list_fmap_compose. apply list_eq. intros j.
    rewrite list_lookup_fmap.
    destruct (ss !! j) as [s|] eqn:Hj; [|done]. cbn [fmap option_fmap option_map]. f_equal.
    destruct s as [sid stitle fields|sid stitle images]; [|done]. cbn.
    case_bool_decide as Hsid; [|by rewrite bool_decide_eq_false_2].
    rewrite bool_decide_eq_true_2 by done.
    assert (j = i) as -> by (by apply (Honly j (FieldsSection sid stitle fields))).
    rewrite Hi in Hj. injection Hj as <- <- <-.
    rewrite <- !app_assoc. cbn [app].
    rewrite moved_up by done. by rewrite moved_down.
  - intros ->. by rewrite moved_down_last.
  - intros t f3 ->. by rewrite moved_down.
Qed.

Lemma reorderField_moves_one_place_witness :
  article_sections (handleReorderField "s1" "k2" Up draft_article) !! 0%nat
  = Some (FieldsSection "s1" "Notas"
            [mkField "k2" "Cidade" "Lisboa"; mkField "k1" "Idade" "12";
             mkField "k3" "Medo" "escuro"])
  ∧ article_sections (handleReorderField "s1" "k2" Down draft_article) !! 0%nat
    = Some (FieldsSection "s1" "Notas"
              [mkField "k1" "Idade" "12"; mkField "k3" "Medo" "escuro";
               mkField "k2" "Cidade" "Lisboa"]).
Proof.
  destruct (reorderField_moves_one_place draft_article "s1" "k2" 0 "Notas"
              [mkField "k1" "Idade" "12"] [mkField "k3" "Medo" "escuro"]
              (mkField "k2" "Cidade" "Lisboa"))
    as (_ & Hup & _ & Hdown).
  - reflexivity.
  - reflexivity.
  - intros f Hf%list_elem_of_singleton. by subst f.
  - split.
    + exact (proj1 (Hup [] (mkField "k1" "Idade" "12") eq_refl)).
    + exact (Hdown (mkField "k3" "Medo" "escuro") [] eq_refl).
Defined.

(** Moving a section or a field loses nothing and adds nothing: the
    sections of the draft are the same up to their order, the fields of
    each section are the same up to their order, and a move for an id that
    no section (no field of the section) has changes nothing. *)
Theorem editor_moves_permute (article : Article) (sectionId fieldId : string)
    (direction : Direction) :
  article_sections (handleReorderSection sectionId direction article)
  ≡ₚ article_sections article
  ∧ ((∀ s, s ∈ article_sections article → section_id s ≠ sectionId) →
     handleReorderSection sectionId direction article = article)
  ∧ Forall2 (λ s' s,
       match s', s with
       | FieldsSection id' title' fields', FieldsSection id title fields =>
           id' = id ∧ title' = title ∧ fields' ≡ₚ fields
           ∧ ((id ≠ sectionId ∨ ∀ f, f ∈ fields → field_id f ≠ fieldId) →
              fields' = fields)
       | ImagesSection _ _ _, ImagesSection _ _ _ => s' = s
       | _, _ => False
       end)
      (article_sections (handleReorderField sectionId fieldId direction article))
      (article_sections article).
Proof.
  rewrite handleReorderSection_moved, handleReorderField_moved.
  destruct article as [id title fid so ss rel pid].
  unfold article_with_sections. cbn [article_sections article_id article_title
    article_folderId article_sortOrder article_relatedArticleIds article_parentId].
  split_and!.
  - apply moved_Permutation.
  - intros Habsent. by rewrite moved_absent.
  - apply Forall2_fmap_l, Forall_Forall2_diag, Forall_forall.
    intros [sid stitle fields|sid stitle images] _; [|done].
    unfold compose. cbv beta iota.
    case_bool_decide as Hsid.
    + split_and!; [done..|apply moved_Permutation|].
      intros [?|Habsent]; [done|]. by apply moved_absent.
    + by split_and!.
Qed.

(** *** Deleting a section *)

(** [handleDeleteSection] drops every section with the id and keeps the
    others in their order.  It deletes from the store only pictures of a
    gallery with that id; when section ids are unique it deletes every
    picture of the gallery it drops. *)
Theorem deleteSection_drops_sections (article : Article) (sectionId : string) :
  (∀ s, s ∈ article_sections (handleDeleteSection sectionId article).1 ↔
        s ∈ article_sections article ∧ section_id s ≠ sectionId)
  ∧ article_sections (handleDeleteSection sectionId article).1
    `sublist_of` article_sections article
  ∧ (∀ op, op ∈ (handleDeleteSection sectionId article).2 →
       ∃ title images image,
         ImagesSection sectionId title images ∈ article_sections article
         ∧ image ∈ images ∧ op = Db.DeleteImage (image_id image))
  ∧ (NoDup (section_id <$> article_sections article) →
     ∀ title images image,
       ImagesSection sectionId title images ∈ article_sections article →
       image ∈ images →
       Db.DeleteImage (image_id image) ∈ (handleDeleteSection sectionId article).2).
Proof.
  unfold handleDeleteSection. cbv zeta. cbn [fst snd].
  destruct article as [id title fid so ss rel pid]. cbn [article_with_sections article_sections].
  split_and!.
  - intros s. by rewrite list_elem_of_filter, (comm and).
  - apply sublist_filter.
  - intros op Hop. destruct (find _ ss) as [[sid stitle fields|sid stitle images]|] eqn:Hfind;
      [by apply elem_of_nil in Hop| |by apply elem_of_nil in Hop].
    apply find_Some_elem in Hfind as [Hin Hsid]. cbn in Hsid. subst sid.
    apply list_elem_of_fmap in Hop as (image & -> & Himage).
    by exists stitle, images, image.
  - intros Hids stitle images image Hin Himage.
    destruct (find_is_Some (λ s, section_id s = sectionId) ss _ Hin eq_refl) as [s Hfind].
    rewrite Hfind. apply find_Some_elem in Hfind as [Hs Hsid].
    assert (s = ImagesSection sectionId stitle images) as ->
      by (by apply (NoDup_fmap_inj_on section_id ss)).
    apply list_elem_of_fmap. by exists image.
Qed.

(** With two galleries under one id, both leave the draft and the pictures
    of the second stay in the store. *)
Example deleteSection_shared_id :
  handleDeleteSection "g"
    (mkArticle "a" "Ana" "f1" 0
       [ImagesSection "g" "Capa" [mkImageField "i1" "" None];
        ImagesSection "g" "Mapas" [mkImageField "i2" "" None]] [] None)
  = (mkArticle "a" "Ana" "f1" 0 [] [] None, [Db.DeleteImage "i1"]).
Proof. reflexivity. Qed.

(** *** Related articles *)

(** [handleToggleRelatedArticle] turns the membership of the id around,
    keeps that of every other id, and touches nothing else of the draft;
    toggled twice from a list that lacked the id, the draft is back. *)
Theorem toggleRelatedArticle_inverts (relatedId : string) (article : Article) :
  (relatedId ∈ article_relatedArticleIds (handleToggleRelatedArticle relatedId article)
   ↔ relatedId ∉ article_relatedArticleIds article)
  ∧ (∀ x, x ≠ relatedId →
       x ∈ article_relatedArticleIds (handleToggleRelatedArticle relatedId article)
       ↔ x ∈ article_relatedArticleIds article)
  ∧ article_with_relatedArticleIds
      (handleToggleRelatedArticle relatedId article) (article_relatedArticleIds article)
    = article
  ∧ (relatedId ∉ article_relatedArticleIds article →
     handleToggleRelatedArticle relatedId (handleToggleRelatedArticle relatedId article)
     = article).
Proof.
  destruct article as [id title fid so ss rel pid].
  unfold handleToggleRelatedArticle, article_with_relatedArticleIds. cbv zeta.
  cbn [article_relatedArticleIds article_id article_title article_folderId
       article_sortOrder article_sections article_parentId].
  split_and!.
  - case_bool_decide as Hin.
    + rewrite list_elem_of_filter. tauto.
    + rewrite elem_of_app, list_elem_of_singleton. tauto.
  - intros x Hx. case_bool_decide as Hin.
    + rewrite list_elem_of_filter. tauto.
    + rewrite elem_of_app, list_elem_of_singleton. tauto.
  - done.
  - intros Hin. rewrite (bool_decide_eq_false_2 (relatedId ∈ rel)) by done.
    rewrite bool_decide_eq_true_2
      by (rewrite elem_of_app, list_elem_of_singleton; by right).
    f_equal. rewrite filter_app, filter_cons_False, filter_nil, app_nil_r by (by intros []).
    apply filter_all_id. by intros x Hx ->.
Qed.

(** *** An editing session *)

Lemma images_backed_ids store article :
  images_backed store article ↔ ∀ id, id ∈ image_ids article → is_Some (store !! id).
Proof.
  unfold images_backed, image_ids. split.
  - intros Hbacked id (s & Hid & Hs)%list_elem_of_bind.
    destruct s as [sid title fields|sid title images]; [by apply elem_of_nil in Hid|].
    apply list_elem_of_fmap in Hid as (image & -> & Himage). by eapply Hbacked.
  - intros Hids sid title images image Hs Himage. apply Hids.
    apply list_elem_of_bind. eexists. split; [|exact Hs].
    by apply list_elem_of_fmap_2.
Qed.

(** The draft is sound when its lists of section ids and of picture ids
    are. *)
Lemma draft_ok_lists store article :
  draft_ok store article ↔
  NoDup (section_id <$> article_sections article)
  ∧ NoDup (article_sections article ≫= section_image_ids)
  ∧ ∀ id, id ∈ article_sections article ≫= section_image_ids → is_Some (store !! id).
Proof. unfold draft_ok. by rewrite images_backed_ids. Qed.

Lemma bind_fmap_ext {A B} (g : A → list B) (h : A → A) (l : list A) :
  (∀ x, x ∈ l → g (h x) = g x) → (h <$> l) ≫= g = l ≫= g.
Proof.
  induction l as [|x l IH]; intros Hg; [done|].
  rewrite fmap_cons, !bind_cons, Hg, IH; [done| |by left].
  intros y Hy. apply Hg. by right.
Qed.

Lemma bind_fmap_sublist {A B} (g : A → list B) (h : A → A) (l : list A) :
  (∀ x, x ∈ l → g (h x) `sublist_of` g x) → (h <$> l) ≫= g `sublist_of` l ≫= g.
Proof.
  induction l as [|x l IH]; intros Hg; [done|].
  rewrite fmap_cons, !bind_cons. apply sublist_app; [apply Hg; by left|].
  apply IH. intros y Hy. apply Hg. by right.
Qed.

Lemma bind_sublist {A B} (g : A → list B) (l l' : list A) :
  l' `sublist_of` l → l' ≫= g `sublist_of` l ≫= g.
Proof.
  induction 1 as [|x l1 l2 _ IH|x l1 l2 _ IH]; [done| |].
  - rewrite !bind_cons. by apply sublist_app.
  - rewrite bind_cons. by apply sublist_inserts_l.
Qed.

(** In a list without duplicates that was put together from the lists of
    the elements, an item names the element it came from. *)
Lemma NoDup_bind_same {A B} (g : A → list B) (l : list A) a b y :
  NoDup (l ≫= g) → a ∈ l → b ∈ l → y ∈ g a → y ∈ g b → a = b.
Proof.
  induction l as [|x l IH]; intros Hnd Ha Hb Hya Hyb; [by apply elem_of_nil in Ha|].
  rewrite bind_cons in Hnd. apply NoDup_app in Hnd as (_ & Hdisjoint & Hnd).
  apply elem_of_cons in Ha as [->|Ha]; apply elem_of_cons in Hb as [->|Hb].
  - done.
  - destruct (Hdisjoint y Hya). apply list_elem_of_bind. by exists b.
  - destruct (Hdisjoint y Hyb). apply list_elem_of_bind. by exists a.
  - by apply IH.
Qed.

Lemma run_deletes_keeps (store : gmap string string) (ids : list string) id :
  id ∉ ids → is_Some (store !! id) →
  is_Some (Db.run (Db.DeleteImage <$> ids) store !! id).
Proof.
  unfold Db.run. revert store. induction ids as [|x ids IH]; intros st Hid Hin; [done|].
  cbn [fmap list_fmap foldl Db.run_op]. apply not_elem_of_cons in Hid as [Hne Hid].
  apply IH; [done|]. by rewrite lookup_delete_ne.
Qed.

Section DraftSteps.
Context (store : gmap string string) (a : Article).
Context (Hok : draft_ok store a).

Lemma draft_ok_same_lists ss :
  section_id <$> ss = section_id <$> article_sections a →
  ss ≫= section_image_ids = article_sections a ≫= section_image_ids →
  draft_ok store (article_with_sections a ss).
Proof.
  intros Eids Eimages. apply draft_ok_lists. cbn [article_with_sections article_sections].
  rewrite Eids, Eimages. by apply draft_ok_lists.
Qed.

Lemma draft_ok_map (h : Section → Section) :
  (∀ s, section_id (h s) = section_id s
        ∧ section_image_ids (h s) = section_image_ids s) →
  draft_ok store (article_with_sections a (h <$> article_sections a)).
Proof.
  intros Hh. apply draft_ok_same_lists.
  - rewrite <- list_fmap_compose. apply list_fmap_ext. intros _ s _. apply Hh.
  - apply bind_fmap_ext. intros s _. apply Hh.
Qed.

Lemma draft_ok_Permutation ss :
  ss ≡ₚ article_sections a → draft_ok store (article_with_sections a ss).
Proof.
  intros Hperm. apply draft_ok_lists in Hok as (Hids & Himages & Hbacked).
  apply draft_ok_lists. cbn [article_with_sections article_sections].
  split_and!; [by rewrite Hperm..|].
  intros id Hid. apply Hbacked. by rewrite <- Hperm.
Qed.

Lemma draft_ok_snoc s :
  section_id s ∉ section_id <$> article_sections a → section_image_ids s = [] →
  draft_ok store (article_with_sections a (article_sections a ++ [s])).
Proof.
  intros Hfresh Hempty. apply draft_ok_lists in Hok as (Hids & Himages & Hbacked).
  apply draft_ok_lists. cbn [article_with_sections article_sections].
  rewrite fmap_app, bind_app. cbn [fmap list_fmap mbind list_bind].
  rewrite Hempty, !app_nil_r. split_and!; [|done..].
  apply NoDup_app. split_and!; [done| |apply NoDup_singleton].
  intros x Hx ->%list_elem_of_singleton. done.
Qed.

Lemma deleteSection_keeps_draft_ok sectionId :
  draft_ok (Db.run (handleDeleteSection sectionId a).2 store)
           (handleDeleteSection sectionId a).1.
Proof.
  apply draft_ok_lists in Hok as (Hids & Himages & Hbacked).
  apply draft_ok_lists. unfold handleDeleteSection. cbv zeta. cbn [fst snd].
  cbn [article_with_sections article_sections].
  pose proof (sublist_filter (λ s, section_id s ≠ sectionId) (article_sections a)) as Hsub.
  split_and!.
  - eapply sublist_NoDup; [exact Hids|]. by apply fmap_sublist.
  - eapply sublist_NoDup; [exact Himages|]. by apply bind_sublist.
  - intros id (s & Hid & [Hsid Hs]%list_elem_of_filter)%list_elem_of_bind.
    assert (id ∈ article_sections a ≫= section_image_ids) as Hin
      by (apply list_elem_of_bind; by exists s).
    destruct (find _ (article_sections a)) as [[xid xtitle fields|xid xtitle images]|]
      eqn:Hfind; [by apply Hbacked| |by apply Hbacked].
    apply find_Some_elem in Hfind as [Hx Hxid]. cbn in Hxid.
    replace ((λ image, Db.DeleteImage (image_id image)) <$> images)
      with (Db.DeleteImage <$> (image_id <$> images))
      by (by rewrite <- list_fmap_compose).
    apply run_deletes_keeps; [|by apply Hbacked].
    intros Hdeleted.
    assert (s = ImagesSection xid xtitle images) as ->
      by (by apply (NoDup_bind_same section_image_ids (article_sections a) _ _ id)).
    done.
Qed.

Lemma cropSave_keeps_draft_ok newId dataUrl sectionId :
  newId ∉ image_ids a →
  draft_ok (Db.run (handleCropSave newId dataUrl sectionId a).2 store)
           (handleCropSave newId dataUrl sectionId a).1.
Proof.
  intros Hfresh. apply draft_ok_lists in Hok as (Hids & Himages & Hbacked).
  apply draft_ok_lists. unfold handleCropSave. cbn [fst snd].
  cbn [article_with_sections article_sections]. unfold image_ids in Hfresh.
  set (h := λ s, match s with
                 | ImagesSection id title images =>
                     if bool_decide (id = sectionId)
                     then ImagesSection id title (images ++ [mkImageField newId "" None])
                     else s
                 | FieldsSection _ _ _ => s
                 end).
  assert (∀ s, section_id (h s) = section_id s) as Hh_id.
  { intros [id title fields|id title images]; [done|]. cbn. by case_bool_decide. }
  assert (∀ s, section_image_ids (h s) = section_image_ids s
               ∨ (section_id s = sectionId
                  ∧ section_image_ids (h s) = section_image_ids s ++ [newId])) as Hh.
  { intros [id title fields|id title images]; [by left|]. cbn.
    case_bool_decide; [right|by left]. split; [done|]. cbn. by rewrite fmap_app. }
  assert (∀ id, id ∈ (h <$> article_sections a) ≫= section_image_ids →
                id = newId ∨ id ∈ article_sections a ≫= section_image_ids) as Hin.
  { intros id (s' & Hid & (s & -> & Hs)%list_elem_of_fmap)%list_elem_of_bind.
    destruct (Hh s) as [E|[_ E]]; rewrite E in Hid.
    - right. apply list_elem_of_bind. by exists s.
    - apply elem_of_app in Hid as [Hid|Hid%list_elem_of_singleton]; [|by left].
      right. apply list_elem_of_bind. by exists s. }
  split_and!.
  - rewrite <- list_fmap_compose.
    assert (section_id ∘ h <$> article_sections a = section_id <$> article_sections a)
      as -> by (apply list_fmap_ext; intros _ s _; apply Hh_id).
    done.
  - clear Hbacked Hin. revert Hids Himages Hfresh.
    induction (article_sections a) as [|s ss IH]; intros Hids Himages Hfresh; [done|].
    rewrite fmap_cons in Hids. apply NoDup_cons in Hids as [Hs Hids].
    rewrite bind_cons in Himages, Hfresh.
    apply NoDup_app in Himages as (Hs_images & Hdisjoint & Himages).
    apply not_elem_of_app in Hfresh as [Hfresh_s Hfresh_ss].
    rewrite fmap_cons, bind_cons.
    destruct (Hh s) as [E|[Hsid E]]; rewrite E.
    + apply NoDup_app. split_and!; [done| |by apply IH].
      intros id Hid (s' & Hid' & (s0 & -> & Hs0)%list_elem_of_fmap)%list_elem_of_bind.
      destruct (Hh s0) as [E0|[_ E0]]; rewrite E0 in Hid'.
      * apply (Hdisjoint id Hid). apply list_elem_of_bind. by exists s0.
      * apply elem_of_app in Hid' as [Hid'|Hid'%list_elem_of_singleton].
        -- apply (Hdisjoint id Hid). apply list_elem_of_bind. by exists s0.
        -- by subst id.
    + assert (h <$> ss = ss) as ->.
      { apply fmap_fixed. intros [id title fields|id title images] Hin; [done|]. cbn.
        rewrite bool_decide_eq_false_2; [done|]. intros ->.
        apply Hs. rewrite Hsid. by apply (list_elem_of_fmap_2 section_id _ _ Hin). }
      rewrite <- app_assoc. apply NoDup_app. split_and!; [done| |].
      * intros id Hid [->%list_elem_of_singleton|Hid']%elem_of_app; [done|].
        by apply (Hdisjoint id).
      * cbn [app]. by apply NoDup_cons.
  - intros id Hid. unfold Db.run. cbn [foldl Db.run_op].
    apply lookup_insert_is_Some'.
    destruct (Hin id Hid) as [->|Hold]; [by left|]. right. by apply Hbacked.
Qed.

Lemma deleteImage_keeps_draft_ok sectionId title images image :
  ImagesSection sectionId title images ∈ article_sections a → image ∈ images →
  draft_ok (Db.run (handleDeleteImage sectionId (image_id image) a).2 store)
           (handleDeleteImage sectionId (image_id image) a).1.
Proof.
  intros Hsection Himage. apply draft_ok_lists in Hok as (Hids & Himages & Hbacked).
  apply draft_ok_lists. unfold handleDeleteImage. cbn [fst snd].
  cbn [article_with_sections article_sections].
  set (h := λ s, match s with
                 | ImagesSection id title images =>
                     if bool_decide (id = sectionId)
                     then ImagesSection id title
                            (filter (λ img, image_id img ≠ image_id image) images)
                     else s
                 | FieldsSection _ _ _ => s
                 end).
  assert (∀ s, section_id (h s) = section_id s) as Hh_id.
  { intros [id t fields|id t imgs]; [done|]. cbn. by case_bool_decide. }
  assert (∀ s, section_image_ids (h s) `sublist_of` section_image_ids s) as Hh.
  { intros [id t fields|id t imgs]; [done|]. cbn.
    case_bool_decide; [|done]. cbn. apply fmap_sublist, sublist_filter. }
  assert ((h <$> article_sections a) ≫= section_image_ids
          `sublist_of` article_sections a ≫= section_image_ids) as Hsub
    by (apply bind_fmap_sublist; intros s _; apply Hh).
  split_and!.
  - rewrite <- list_fmap_compose.
    assert (section_id ∘ h <$> article_sections a = section_id <$> article_sections a)
      as -> by (apply list_fmap_ext; intros _ s _; apply Hh_id).
    done.
  - by eapply sublist_NoDup.
  - intros id Hid. unfold Db.run. cbn [foldl Db.run_op].
    assert (id ≠ image_id image) as Hne.
    { intros ->.
      apply list_elem_of_bind in Hid as (s' & Hid & (s & -> & Hs)%list_elem_of_fmap).
      assert (image_id image ∈ section_image_ids s) as Hin
        by (eapply elem_of_sublist; [exact Hid|apply Hh]).
      assert (s = ImagesSection sectionId title images) as ->.
      { apply (NoDup_bind_same section_image_ids (article_sections a) _ _ (image_id image));
          [done..|]. cbn. by apply list_elem_of_fmap_2. }
      cbn in Hid. rewrite bool_decide_eq_true_2 in Hid by done. cbn in Hid.
      apply list_elem_of_fmap in Hid as (img & Eid & [Hne _]%list_elem_of_filter).
      by destruct Hne. }
    rewrite lookup_delete_ne by done. apply Hbacked.
    by eapply elem_of_sublist.
Qed.
End DraftSteps.

Lemma edit_step_same_place a ops a' : edit_step a ops a' → same_place a a'.
Proof.
  destruct 1; rewrite ?handleReorderSection_moved; destruct a; by split_and!.
Qed.

Lemma edit_step_keeps_draft_ok store a ops a' :
  edit_step a ops a' → draft_ok store a → draft_ok (Db.run ops store) a'.
Proof.
  intros Hstep Hok.
  destruct Hstep as [newTitle a|sectionId value a|sectionId fieldId key value a
    |newId a Hfresh|newId a Hfresh|sectionId a|sectionId direction a
    |newId sectionId a|sectionId fieldId a|sectionId fieldId direction a
    |newId dataUrl sectionId a Hfresh|sectionId title images image a Hsection Himage
    |sectionId imageId newCaption a|relatedId a]; cbn [Db.run foldl].
  - by destruct a.
  - apply draft_ok_map; [done|].
    intros [id title fields|id title images]; by case_bool_decide.
  - apply draft_ok_map; [done|].
    intros [id title fields|id title images]; [|done]. by case_bool_decide.
  - by apply draft_ok_snoc.
  - by apply draft_ok_snoc.
  - by apply deleteSection_keeps_draft_ok.
  - rewrite handleReorderSection_moved. apply draft_ok_Permutation; [done|].
    apply moved_Permutation.
  - apply draft_ok_map; [done|].
    intros [id title fields|id title images]; [|done]. by case_bool_decide.
  - apply draft_ok_map; [done|].
    intros [id title fields|id title images]; [|done]. by case_bool_decide.
  - rewrite handleReorderField_moved. apply draft_ok_map; [done|].
    intros [id title fields|id title images]; [|done]. by case_bool_decide.
  - by apply cropSave_keeps_draft_ok.
  - by eapply deleteImage_keeps_draft_ok.
  - apply draft_ok_map; [done|].
    intros [id title fields|id title images]; [done|]. case_bool_decide; [|done].
    split; [done|]. cbn. rewrite <- list_fmap_compose. apply list_fmap_ext.
    intros _ img _. cbn. by case_bool_decide.
  - by destruct a.
Qed.

(** Through an editing session the draft stays sound: when section ids and
    picture ids are unique in the draft and every picture it shows has its
    payload in the image store, the same holds of the draft after any
    sequence of editing steps and the store after the operations they
    issued, in their order. *)
Theorem editing_session_keeps_draft_ok
    (store : gmap string string) (article draft : Article) (ops : list Db.Op) :
  edits article ops draft →
  draft_ok store article →
  draft_ok (Db.run ops store) draft.
Proof.
  intros Hedits. revert store.
  induction Hedits as [a|a ops a' ops' a'' Hstep _ IH]; intros store Hok; [done|].
  unfold Db.run. rewrite foldl_app. apply IH. by eapply edit_step_keeps_draft_ok.
Qed.

Lemma draft_article_ok : draft_ok draft_store draft_article.
Proof.
  apply draft_ok_lists. split_and!.
  - apply (bool_decide_unpack _). vm_compute. exact I.
  - apply (bool_decide_unpack _). vm_compute. exact I.
  - intros id Hid. cbn in Hid. list_cases Hid; vm_compute; eauto.
Qed.

(** A session on [draft_article]: a picture is added to the first gallery,
    the cover is removed from it, and the second gallery is deleted. *)
Lemma draft_article_session :
  edits draft_article
    [Db.PutImage "i4" "data:4"; Db.DeleteImage "i1"; Db.DeleteImage "i3"]
    (mkArticle "a" "Ana" "f1" 0
       [FieldsSection "s1" "Notas"
          [mkField "k1" "Idade" "12"; mkField "k2" "Cidade" "Lisboa";
           mkField "k3" "Medo" "escuro"];
        ImagesSection "s2" "Galeria" [mkImageField "i2" "mapa" None;
                                      mkImageField "i4" "" None]]
       ["b"] None).
Proof.
  apply (edits_step _ [Db.PutImage "i4" "data:4"]
           (handleCropSave "i4" "data:4" "s2" draft_article).1
           [Db.DeleteImage "i1"; Db.DeleteImage "i3"]).
  { apply step_cropSave. apply (bool_decide_unpack _). vm_compute. exact I. }
  apply (edits_step _ [Db.DeleteImage "i1"]
           (handleDeleteImage "s2" "i1"
              (handleCropSave "i4" "data:4" "s2" draft_article).1).1
           [Db.DeleteImage "i3"]).
  { apply (step_deleteImage "s2" "Galeria"
             [mkImageField "i1" "capa" None; mkImageField "i2" "mapa" None;
              mkImageField "i4" "" None]
             (mkImageField "i1" "capa" None)).
    - apply (bool_decide_unpack _). vm_compute. exact I.
    - by left. }
  eapply (edits_step _ [Db.DeleteImage "i3"] _ []).
  - apply (step_deleteSection "s3").
  - apply edits_done.
Qed.

Lemma editing_session_keeps_draft_ok_witness :
  draft_ok
    (Db.run [Db.PutImage "i4" "data:4"; Db.DeleteImage "i1"; Db.DeleteImage "i3"]
            draft_store)
    (mkArticle "a" "Ana" "f1" 0
       [FieldsSection "s1" "Notas"
          [mkField "k1" "Idade" "12"; mkField "k2" "Cidade" "Lisboa";
           mkField "k3" "Medo" "escuro"];
        ImagesSection "s2" "Galeria" [mkImageField "i2" "mapa" None;
                                      mkImageField "i4" "" None]]
       ["b"] None).
Proof.
  apply (editing_session_keeps_draft_ok draft_store draft_article).
  - exact draft_article_session.
  - exact draft_article_ok.
Defined.

(** [handleCropSave] writes to the store before it looks for the gallery:
    with no gallery under the id the draft is as it was and the payload
    stays in the store. *)
Example cropSave_without_gallery :
  handleCropSave "i4" "data:4" "s1" draft_article
  = (draft_article, [Db.PutImage "i4" "data:4"]).
Proof. reflexivity. Qed.

(** *** Saving the draft *)

Lemma edits_same_place a ops a' : edits a ops a' → same_place a a'.
Proof.
  induction 1 as [a|a ops a' ops' a'' Hstep _ IH]; [done|].
  apply edit_step_same_place in Hstep.
  destruct Hstep as (? & ? & ? & ?), IH as (? & ? & ? & ?).
  split_and!; congruence.
Qed.

Lemma handleSaveArticle_keeps_tree_ok updated prev :
  keeps_place updated (articles prev) → article_tree_ok (articles prev) →
  article_tree_ok (articles (handleSaveArticle updated prev)).
Proof.
  intros Hplace Hok. unfold handleSaveArticle. cbn [with_articles articles].
  apply (article_tree_ok_same_links (articles prev)); [| | |done].
  - rewrite <- list_fmap_compose. apply list_fmap_ext. intros _ a _. cbn.
    by case_bool_decide.
  - intros a' (a & -> & Ha)%list_elem_of_fmap. exists a. split; [done|].
    case_bool_decide as E; [|done]. by destruct (Hplace a Ha E) as (-> & _).
  - apply article_sortOrders_unique_siblings, fmap_keeps_unique.
    + intros a Ha. case_bool_decide as E; [|done].
      destruct (Hplace a Ha E) as (Hp & Hf & Hk). cbn. by rewrite Hp, Hf, Hk.
    + apply article_sortOrders_unique_siblings, Hok.
Qed.

(** The editor and [handleSaveArticle] together: the draft an editing
    session leaves of an article of the project, saved, takes the place of
    that article in the array; every other article and the rest of the
    state are as they were; and the invariants of the data model on the
    articles still hold. *)
Theorem saved_draft_takes_the_place
    (prev : ProjectState) (article draft : Article) (ops : list Db.Op) :
  article_tree_ok (articles prev) →
  article ∈ articles prev →
  edits article ops draft →
  article_tree_ok (articles (handleSaveArticle draft prev))
  ∧ (∀ i a, articles prev !! i = Some a →
       articles (handleSaveArticle draft prev) !! i
       = Some (if bool_decide (a = article) then draft else a))
  ∧ with_articles (handleSaveArticle draft prev) (articles prev) = prev.
Proof.
  intros Hok Harticle Hedits.
  apply edits_same_place in Hedits as (Eid & Eparent & Efolder & Ekey).
  assert (∀ a, a ∈ articles prev → article_id a = article_id draft → a = article) as Hsame.
  { intros a Ha E. apply (NoDup_fmap_inj_on article_id (articles prev)); [apply Hok|done..|].
    congruence. }
  split_and!.
  - apply handleSaveArticle_keeps_tree_ok; [|done].
    intros a Ha E. by rewrite (Hsame a Ha E).
  - intros i a Hi. unfold handleSaveArticle. cbn [with_articles articles].
    rewrite list_lookup_fmap, Hi. cbn [fmap option_fmap option_map]. f_equal.
    pose proof (list_elem_of_lookup_2 _ _ _ Hi) as Ha.
    case_bool_decide as E1; case_bool_decide as E2; try done.
    + by destruct E2, (Hsame a Ha E1).
    + destruct E1. by rewrite E2.
  - by destruct prev.
Qed.

Lemma saved_draft_takes_the_place_witness :
  article_tree_ok
    (articles (handleSaveArticle (handleAddSection "s9" article_b) reorder_project))
  ∧ (∀ i a, articles reorder_project !! i = Some a →
       articles (handleSaveArticle (handleAddSection "s9" article_b) reorder_project) !! i
       = Some (if bool_decide (a = article_b)
               then handleAddSection "s9" article_b else a))
  ∧ with_articles (handleSaveArticle (handleAddSection "s9" article_b) reorder_project)
                  (articles reorder_project)
    = reorder_project.
Proof.
  apply (saved_draft_takes_the_place reorder_project article_b
           (handleAddSection "s9" article_b) ([] ++ [])).
  - exact reorder_project_article_tree_ok.
  - apply (bool_decide_unpack _). vm_compute. exact I.
  - eapply edits_step; [|apply edits_done]. apply step_addSection.
    apply (bool_decide_unpack _). vm_compute. exact I.
Defined.

(** *** Articles offered as related *)

Section PotentialRelated.
Context (fs : list Folder) (height : string → nat).
Context (Hacyclic : parents_above height fs).

(** The climb ends, at the top of the tree of the folder it started from. *)
Lemma rootFolder_loop_climbs fuel f :
  f ∈ fs →
  (max_list (height ∘ folder_id <$> fs) - height (folder_id f) ≤ fuel)%nat →
  ∃ root, rootFolder_loop fuel fs f = Some root
          ∧ root ∈ fs ∧ top_folder fs root
          ∧ in_subtree fs (folder_id root) (folder_id f).
Proof.
  revert f. induction fuel as [|fuel IH]; intros f Hf Hfuel.
  all: cbn [rootFolder_loop]; unfold top_folder.
  all: destruct (folder_parentId f) as [pid|] eqn:Hpid;
    [|exists f; rewrite Hpid; split_and!; [done..|constructor]].
  all: unfold JS.truthy; case_bool_decide as Htruthy;
    [|exists f; rewrite Hpid; split_and!;
      [done|done|left; by destruct (decide (pid = ""))|constructor]].
  all: destruct (find (λ f, folder_id f = pid) fs) as [parent|] eqn:Hfind;
    [|exists f; rewrite Hpid; split_and!;
      [done|done|right; intros g Hg Eg;
                 rewrite find_None_all in Hfind; by apply (Hfind g)|constructor]].
  all: apply find_Some_elem in Hfind as [Hparent Eparent].
  all: pose proof (Hacyclic f pid Hf Hpid) as Hheight.
  all: assert (height pid ≤ max_list (height ∘ folder_id <$> fs))%nat as Hmax
    by (apply max_list_elem_of_le, list_elem_of_fmap; exists parent;
        split; [by rewrite <- Eparent|done]).
  - lia.
  - destruct (IH parent Hparent) as (root & Hloop & Hroot & Htop & Hsub);
      [rewrite Eparent; lia|].
    exists root. split_and!; [done..|].
    apply (in_subtree_child fs _ f pid); [done..|]. by rewrite <- Eparent.
Qed.
End PotentialRelated.

(** With no cycle among the folders, [potentialRelatedArticles] ends (for
    every bound on its loops from some bound on).  It offers nothing when
    the article has no folder or a folder that is not among the folders.
    Otherwise it offers, in the order of the array, the articles other than
    the one edited that are filed in the tree of the article's folder:
    under the folder at the top of that tree or under one of its
    descendants. *)
Theorem potentialRelatedArticles_same_tree
    (height : string → nat) (initialArticle : Article)
    (allFolders : list Folder) (allArticles : list Article) :
  parents_above height allFolders →
  ∃ fuel0, ∀ fuel, (fuel0 ≤ fuel)%nat →
    ∃ related,
      potentialRelatedArticles fuel initialArticle allFolders allArticles = Some related
      ∧ related `sublist_of` allArticles
      ∧ ((article_folderId initialArticle = ""
          ∨ ∀ f, f ∈ allFolders → folder_id f ≠ article_folderId initialArticle) →
         related = [])
      ∧ (∀ currentFolder,
           article_folderId initialArticle ≠ "" →
           currentFolder ∈ allFolders →
           folder_id currentFolder = article_folderId initialArticle →
           ∃ root, root ∈ allFolders ∧ top_folder allFolders root
             ∧ in_subtree allFolders (folder_id root) (folder_id currentFolder)
             ∧ ∀ a, a ∈ related ↔
                    a ∈ allArticles
                    ∧ in_subtree allFolders (folder_id root) (article_folderId a)
                    ∧ article_id a ≠ article_id initialArticle).
Proof.
  intros Hacyclic.
  exists (max_list (height ∘ folder_id <$> allFolders)
          + iterations_of allFolders height (folder_id <$> allFolders))%nat.
  intros fuel Hfuel. unfold potentialRelatedArticles, JS.truthy.
  case_bool_decide as Hfolder.
  2: { exists []. split_and!; [done|apply sublist_nil_l|done|done]. }
  destruct (find _ allFolders) as [currentFolder|] eqn:Hfind.
  2: { exists []. split_and!; [done|apply sublist_nil_l|done|].
       intros f _ Hf Ef. rewrite find_None_all in Hfind. by destruct (Hfind f Hf). }
  pose proof Hfind as [Hcurrent Ecurrent]%find_Some_elem.
  destruct (rootFolder_loop_climbs allFolders height Hacyclic fuel currentFolder)
    as (root & -> & Hroot & Htop & Hsub); [done|lia|].
  cbn [mbind option_bind].
  change (JSSet.add (folder_id root) (JSSet.of_array []))
    with (JSSet.of_array [folder_id root]).
  destruct (deleteFolder_loop_terminates allFolders height Hacyclic fuel
              [folder_id root] (JSSet.of_array [folder_id root])) as [ids Hloop].
  { unfold iterations_of at 1. cbn [sum_list_with].
    pose proof (sum_list_with_in (folder_id root)
                  (λ x, iterations allFolders (height x) x) (folder_id <$> allFolders)
                  (list_elem_of_fmap_2 folder_id _ _ Hroot)) as Hle.
    unfold iterations_of in Hfuel. lia. }
  rewrite Hloop. cbn [mbind option_bind].
  pose proof (deleteFolder_loop_collects_subtree _ _ _ _ Hloop) as Hids.
  eexists. split_and!; [done|apply sublist_filter| |].
  - intros [?|Habsent]; [done|]. by destruct (Habsent currentFolder).
  - intros current' _ Hcurrent' Ecurrent'. exists root. split_and!; [done..| |].
    + by rewrite Ecurrent', <- Ecurrent.
    + intros a. rewrite list_elem_of_filter, Is_true_has, Hids. tauto.
Qed.

Lemma potentialRelatedArticles_same_tree_witness :
  ∃ fuel0, ∀ fuel, (fuel0 ≤ fuel)%nat →
    ∃ related,
      potentialRelatedArticles fuel article_c (folders reorder_project)
                               (articles reorder_project) = Some related
      ∧ related `sublist_of` articles reorder_project
      ∧ ((article_folderId article_c = ""
          ∨ ∀ f, f ∈ folders reorder_project → folder_id f ≠ article_folderId article_c) →
         related = [])
      ∧ (∀ currentFolder,
           article_folderId article_c ≠ "" →
           currentFolder ∈ folders reorder_project →
           folder_id currentFolder = article_folderId article_c →
           ∃ root, root ∈ folders reorder_project
             ∧ top_folder (folders reorder_project) root
             ∧ in_subtree (folders reorder_project) (folder_id root)
                          (folder_id currentFolder)
             ∧ ∀ a, a ∈ related ↔
                    a ∈ articles reorder_project
                    ∧ in_subtree (folders reorder_project) (folder_id root)
                                 (article_folderId a)
                    ∧ article_id a ≠ article_id article_c).
Proof.
  apply (potentialRelatedArticles_same_tree
           (λ x, if bool_decide (x = "w") then 0%nat else 1%nat)).
  intros f p Hf Hp. unfold reorder_project in Hf. cbn [folders] in Hf.
  list_cases Hf; cbn in Hp; simplify_eq; compute; lia.
Defined.

Example potentialRelatedArticles_reorder_project :
  potentialRelatedArticles 5 article_c (folders reorder_project)
                           (articles reorder_project)
  = Some [article_a; article_b].
Proof. vm_compute. reflexivity. Qed.


(** ** Continuing the saved project *)

Lemma repaired_stored_project project :
  mkProjectState (folders project)
    (repairArticle <$> (stored_article <$> articles project))
    (expandedFolderIds project) (expandedArticleIds project)
  = project.
Proof.
  destruct project as [fs arts efs eas]. cbn. f_equal.
  rewrite <- list_fmap_compose. apply fmap_fixed. intros a _. apply repairArticle_stored.
Qed.

(** What the automatic saving effect stored of an open project,
    [handleContinueProject] opens again: the project that was saved, run
    through the migration, beside the selection, the image store (plus the
    payloads the migration moves) and the alerts of the moment; when no
    image of the project carried an inline payload the project is exactly
    the one saved and the image store is untouched. *)
Theorem continue_restores_saved_project
    (app app' : AppState) (saved : SavedProject) (project : ProjectState) :
  projectState app = Some project →
  handleContinueProject (autoSave app saved) app'
  = Some (mkAppState (Some (migrateProjectState project).1)
                     (selectedFolderId app') (selectedArticleId app')
                     (Db.run (migrateProjectState project).2 (imageStore app'))
                     (alerts app'))
  ∧ (no_inline_payload project →
     handleContinueProject (autoSave app saved) app'
     = Some (mkAppState (Some project) (selectedFolderId app') (selectedArticleId app')
                        (imageStore app') (alerts app'))).
Proof.
  intros Hproject. unfold autoSave. rewrite Hproject.
  assert (handleContinueProject (Parsed (stored_project project)) app'
          = Some (mkAppState (Some (migrateProjectState project).1)
                    (selectedFolderId app') (selectedArticleId app')
                    (Db.run (migrateProjectState project).2 (imageStore app'))
                    (alerts app'))) as Hcontinue.
  { unfold handleContinueProject, stored_project.
    cbn [loaded_folders loaded_articles loaded_expandedFolderIds
         loaded_expandedArticleIds default]. cbv zeta.
    change (Datatypes.id ?x) with x.
    rewrite repaired_stored_project. by destruct (migrateProjectState project). }
  split; [done|]. intros Hclean. rewrite Hcontinue.
  by rewrite (migrate_no_inline_payload project Hclean).
Qed.

Lemma continue_restores_saved_project_witness :
  handleContinueProject (autoSave app_with_gallery Unparsable) app_elsewhere
  = Some (mkAppState
            (Some (migrateProjectState
                     (default (mkProjectState [] [] [] [])
                              (projectState app_with_gallery))).1)
            (selectedFolderId app_elsewhere) (selectedArticleId app_elsewhere)
            (Db.run (migrateProjectState
                       (default (mkProjectState [] [] [] [])
                                (projectState app_with_gallery))).2
                    (imageStore app_elsewhere))
            (alerts app_elsewhere))
  ∧ (no_inline_payload (default (mkProjectState [] [] [] [])
                                (projectState app_with_gallery)) →
     handleContinueProject (autoSave app_with_gallery Unparsable) app_elsewhere
     = Some (mkAppState (projectState app_with_gallery)
                        (selectedFolderId app_elsewhere) (selectedArticleId app_elsewhere)
                        (imageStore app_elsewhere) (alerts app_elsewhere))).
Proof.
  apply (continue_restores_saved_project app_with_gallery app_elsewhere Unparsable).
  reflexivity.
Defined.

(** [handleContinueProject] on what it may find: nothing stored changes
    nothing; text that does not parse opens the empty project with both
    selections cleared; a document opens only if it has the [folders] key,
    and then missing [articles] and expansion lists count as empty, the
    selections are kept, and the image store only gains entries. *)
Theorem continue_project_cases (app : AppState) :
  handleContinueProject NoSavedProject app = Some app
  ∧ handleContinueProject Unparsable app
    = Some (mkAppState (Some (mkProjectState [] [] [] [])) None None
                       (imageStore app) (alerts app))
  ∧ ∀ doc,
      (loaded_folders doc = None → handleContinueProject (Parsed doc) app = None)
      ∧ (∀ fs, loaded_folders doc = Some fs →
           ∃ next project,
             handleContinueProject (Parsed doc) app = Some next
             ∧ projectState next = Some project
             ∧ folders project = fs
             ∧ (loaded_articles doc = None → articles project = [])
             ∧ expandedFolderIds project = default [] (loaded_expandedFolderIds doc)
             ∧ expandedArticleIds project = default [] (loaded_expandedArticleIds doc)
             ∧ selectedFolderId next = selectedFolderId app
             ∧ selectedArticleId next = selectedArticleId app
             ∧ alerts next = alerts app
             ∧ ∀ id, is_Some (imageStore app !! id) → is_Some (imageStore next !! id)).
Proof.
  split_and!; [done..|]. intros doc. split.
  - intros E. unfold handleContinueProject. by rewrite E.
  - intros fs E. unfold handleContinueProject. rewrite E. cbv zeta.
    set (project := mkProjectState fs _ _ _).
    pose proof (migrateProjectState_eq project) as Hmigrate.
    pose proof (migration_writes_are_puts project) as Hputs.
    destruct (migrateProjectState project) as [migrated puts].
    injection Hmigrate as -> Eputs. cbn [snd] in Hputs.
    eexists _, _. split_and!; [done..| |done|done|done|done|done|].
    + intros Earticles. cbn. by rewrite Earticles.
    + intros id Hid. cbn [imageStore]. by apply run_puts_keeps_key.
Qed.

(** ** Expansion of the parent of a new node *)

Lemma of_array_NoDup_same l : NoDup l → JSSet.of_array l = l.
Proof.
  unfold JSSet.of_array.
  enough (∀ s, NoDup (s ++ l) → foldl (λ s x, JSSet.add x s) s l = s ++ l) as H
    by (intros Hl; by apply (H [])).
  induction l as [|x l IH]; intros s Hnd; [by rewrite app_nil_r|].
  cbn [foldl]. rewrite (cons_middle x), app_assoc in Hnd |- *.
  assert (JSSet.add x s = s ++ [x]) as ->.
  { unfold JSSet.add.
    assert (JSSet.has x s = false) as ->; [|done].
    apply has_false. apply NoDup_app in Hnd as ((_ & Hx & _)%NoDup_app & _).
    intros Hin. apply (Hx x Hin). by left. }
  by apply IH.
Qed.

(** Toggling the expansion of a node twice leaves the same ids expanded,
    without duplicates; the list itself is back when it had no duplicate and
    the node was collapsed, and otherwise the node has moved to its end. *)
Theorem toggle_twice (id : string) (prev : ProjectState) :
  (∀ x, x ∈ expandedFolderIds
              (handleToggleFolderExpansion id (handleToggleFolderExpansion id prev))
        ↔ x ∈ expandedFolderIds prev)
  ∧ NoDup (expandedFolderIds
             (handleToggleFolderExpansion id (handleToggleFolderExpansion id prev)))
  ∧ (NoDup (expandedFolderIds prev) → id ∉ expandedFolderIds prev →
     handleToggleFolderExpansion id (handleToggleFolderExpansion id prev) = prev)
  ∧ (id ∈ expandedFolderIds prev →
     expandedFolderIds
       (handleToggleFolderExpansion id (handleToggleFolderExpansion id prev))
     = filter (λ x, x ≠ id) (JSSet.of_array (expandedFolderIds prev)) ++ [id])
  ∧ (∀ x, x ∈ expandedArticleIds
                (handleToggleArticleExpansion id (handleToggleArticleExpansion id prev))
          ↔ x ∈ expandedArticleIds prev)
  ∧ NoDup (expandedArticleIds
             (handleToggleArticleExpansion id (handleToggleArticleExpansion id prev)))
  ∧ (NoDup (expandedArticleIds prev) → id ∉ expandedArticleIds prev →
     handleToggleArticleExpansion id (handleToggleArticleExpansion id prev) = prev)
  ∧ (id ∈ expandedArticleIds prev →
     expandedArticleIds
       (handleToggleArticleExpansion id (handleToggleArticleExpansion id prev))
     = filter (λ x, x ≠ id) (JSSet.of_array (expandedArticleIds prev)) ++ [id]).
Proof.
  assert (∀ ids,
    (∀ x, x ∈ toggle id (toggle id ids) ↔ x ∈ ids)
    ∧ NoDup (toggle id (toggle id ids))
    ∧ (NoDup ids → id ∉ ids → toggle id (toggle id ids) = ids)
    ∧ (id ∈ ids →
       toggle id (toggle id ids) = filter (λ x, x ≠ id) (JSSet.of_array ids) ++ [id]))
    as Htwice.
  { intros ids.
    destruct (toggle_toggled id ids) as (Hnd1 & Hid1 & Hother1 & Happended & Hremoved).
    destruct (toggle_toggled id (toggle id ids)) as (Hnd2 & Hid2 & Hother2 & _ & _).
    split_and!.
    - intros x. destruct (decide (x = id)) as [->|Hx].
      + rewrite Hid2, Hid1. destruct (decide (id ∈ ids)); tauto.
      + by rewrite Hother2, Hother1.
    - done.
    - intros Hnd Hid. unfold toggle at 2, JSSet.to_array. cbv zeta.
      rewrite (of_array_NoDup_same ids Hnd).
      assert (JSSet.has id ids = false) as -> by (by apply has_false).
      assert (JSSet.add id ids = ids ++ [id]) as ->
        by (unfold JSSet.add; by rewrite (proj2 (has_false id ids) Hid)).
      unfold toggle, JSSet.to_array. cbv zeta.
      assert (NoDup (ids ++ [id])) as Hnd'.
      { apply NoDup_app. split_and!; [done| |apply NoDup_singleton].
        by intros x Hx ->%list_elem_of_singleton. }
      rewrite (of_array_NoDup_same _ Hnd').
      assert (JSSet.has id (ids ++ [id]) = true) as ->
        by (apply has_true, elem_of_app; right; by left).
      unfold JSSet.delete. rewrite filter_app, filter_cons_False, filter_nil, app_nil_r
        by (by intros []).
      apply filter_all_id. by intros x Hx ->.
    - intros Hid. unfold toggle at 2, JSSet.to_array. cbv zeta.
      assert (JSSet.has id (JSSet.of_array ids) = true) as ->
        by (by apply has_true, elem_of_of_array).
      set (rest := JSSet.delete id (JSSet.of_array ids)).
      assert (NoDup rest) as Hrest by apply NoDup_delete, NoDup_of_array.
      assert (id ∉ rest) as Hout by (unfold rest; rewrite elem_of_delete; tauto).
      unfold toggle, JSSet.to_array. cbv zeta.
      rewrite (of_array_NoDup_same rest Hrest).
      assert (JSSet.has id rest = false) as -> by (by apply has_false).
      unfold JSSet.add. by rewrite (proj2 (has_false id rest) Hout). }
  destruct (Htwice (expandedFolderIds prev)) as (F1 & F2 & F3 & F4).
  destruct (Htwice (expandedArticleIds prev)) as (A1 & A2 & A3 & A4).
  destruct prev as [fs arts efs eas].
  unfold handleToggleFolderExpansion, handleToggleArticleExpansion,
    with_expandedFolderIds, with_expandedArticleIds in *.
  cbn [expandedFolderIds expandedArticleIds folders articles] in *.
  split_and!; [done|done| |done|done|done| |done].
  - intros Hnd Hid. by rewrite F3.
  - intros Hnd Hid. by rewrite A3.
Qed.

(** A new sub-folder (sub-article) is listed under a parent that is
    expanded: after [createFolder] for a parent and the update it schedules,
    the new folder is the last of the folders and the parent is among the
    expanded ids, which gained no duplicate and are unchanged when the
    parent was expanded already; likewise after [handleCreateSubArticle]
    for a parent that is among the articles. *)
Theorem new_child_has_expanded_parent
    (color newId parentId : string) (prev : ProjectState) :
  parentId ≠ "" →
  (let next :=
     createFolder_expandParent (Some parentId) prev
       (createFolder color newId (Some parentId) prev) in
   (∃ newFolder,
      folders next = folders prev ++ [newFolder]
      ∧ folder_id newFolder = newId ∧ folder_parentId newFolder = Some parentId)
   ∧ parentId ∈ expandedFolderIds next
   ∧ (∀ x, x ∈ expandedFolderIds next ↔ x = parentId ∨ x ∈ expandedFolderIds prev)
   ∧ (NoDup (expandedFolderIds prev) → NoDup (expandedFolderIds next))
   ∧ (parentId ∈ expandedFolderIds prev →
      expandedFolderIds next = expandedFolderIds prev))
  ∧ ((∃ parent, parent ∈ articles prev ∧ article_id parent = parentId) →
     let next := handleCreateSubArticle newId parentId prev in
     (∃ newArticle,
        articles next = articles prev ++ [newArticle]
        ∧ article_id newArticle = newId ∧ article_parentId newArticle = Some parentId)
     ∧ parentId ∈ expandedArticleIds next
     ∧ (∀ x, x ∈ expandedArticleIds next ↔ x = parentId ∨ x ∈ expandedArticleIds prev)
     ∧ (NoDup (expandedArticleIds prev) → NoDup (expandedArticleIds next))
     ∧ (parentId ∈ expandedArticleIds prev →
        expandedArticleIds next = expandedArticleIds prev)).
Proof.
  intros Hparent.
  assert (∀ ids : list string,
    let next := if bool_decide (parentId ∈ ids) then ids else ids ++ [parentId] in
    parentId ∈ next
    ∧ (∀ x, x ∈ next ↔ x = parentId ∨ x ∈ ids)
    ∧ (NoDup ids → NoDup next)
    ∧ (parentId ∈ ids → next = ids)) as Hexpand.
  { intros ids. cbv zeta. case_bool_decide as Hin.
    - split_and!; [done| |done|done]. intros x. split; [by right|by intros [->|?]].
    - split_and!.
      + apply elem_of_app. right. by left.
      + intros x. rewrite elem_of_app, list_elem_of_singleton. tauto.
      + intros Hnd. apply NoDup_app. split_and!; [done| |apply NoDup_singleton].
        by intros x Hx ->%list_elem_of_singleton.
      + done. }
  split.
  - cbv zeta. unfold createFolder_expandParent, createFolder, JS.truthy.
    rewrite bool_decide_eq_true_2 by done. cbv zeta.
    destruct prev as [fs arts efs eas].
    cbn [with_folders with_expandedFolderIds folders articles expandedFolderIds
         expandedArticleIds andb].
    specialize (Hexpand efs). cbv zeta in Hexpand.
    destruct (bool_decide (parentId ∈ efs)); cbn [negb]; cbv iota;
      cbn [with_folders with_expandedFolderIds folders expandedFolderIds];
      (split; [by eexists|exact Hexpand]).
  - intros (parent & Hin & Hid). cbv zeta. unfold handleCreateSubArticle.
    destruct (find_is_Some (λ a, article_id a = parentId) _ parent Hin Hid)
      as [parentArticle ->].
    cbv zeta. cbn [articles expandedArticleIds]. split; [by eexists|].
    apply Hexpand.
Qed.

Lemma new_child_has_expanded_parent_witness :
  "x" ∈ expandedFolderIds
          (createFolder_expandParent (Some "x") reorder_project
             (createFolder "#aaaaaa" "n" (Some "x") reorder_project))
  ∧ "a" ∈ expandedArticleIds (handleCreateSubArticle "n" "a" reorder_project).
Proof.
  assert ("x" ≠ "") as Hx by done. assert ("a" ≠ "") as Ha by done.
  destruct (new_child_has_expanded_parent "#aaaaaa" "n" "x" reorder_project Hx)
    as [Hfolder _].
  destruct (new_child_has_expanded_parent "#aaaaaa" "n" "a" reorder_project Ha)
    as [_ Harticle].
  cbv zeta in Hfolder, Harticle. split; [exact (proj1 (proj2 Hfolder))|].
  refine (proj1 (proj2 (Harticle _))). exists article_a. split; [|reflexivity].
  apply (bool_decide_unpack _). vm_compute. exact I.
Defined.


(** ** The rows of a panel and the reorder handlers *)

Section TreeViewFacts.
Context {N G : Type} `{TreeNode N G} (parentId : N → option string).

Lemma map_values_NoDup (nodes : list N) :
  NoDup (node_id <$> nodes) → map_values nodes = nodes.
Proof.
  unfold map_values.
  enough (∀ m, NoDup (node_id <$> m ++ nodes) → foldl map_set m nodes = m ++ nodes) as Hm
    by (intros Hnd; by apply (Hm [])).
  induction nodes as [|n nodes IH]; intros m Hnd; [by rewrite app_nil_r|].
  cbn [foldl]. rewrite (cons_middle n), app_assoc in Hnd |- *.
  assert (map_set m n = m ++ [n]) as ->; [|by apply IH].
  unfold map_set. rewrite bool_decide_eq_false_2; [done|].
  rewrite fmap_app in Hnd. apply NoDup_app in Hnd as (Hnd & _ & _).
  rewrite fmap_app in Hnd. apply NoDup_app in Hnd as (_ & Hdisjoint & _).
  intros Hin. apply (Hdisjoint _ Hin). by left.
Qed.

Lemma elem_of_tree_children values x c :
  c ∈ tree_children parentId values x ↔
  c ∈ values ∧ parentId c = Some (node_id x) ∧ node_id x ≠ "".
Proof. unfold tree_children. by rewrite elem_of_sort_by, list_elem_of_filter, (comm and). Qed.

Section Rendered.
Context (values : list N) (expanded : list string).

(** What a row says of its node: the list it is in, and where. *)
Definition row_placed (top : list N) (row : Row N) : Prop :=
  ∃ siblings i,
    (siblings = top ∨ ∃ p, p ∈ values ∧ siblings = tree_children parentId values p)
    ∧ siblings !! i = Some (row_node row)
    ∧ row_isFirst row = bool_decide (i = 0%nat)
    ∧ row_isLast row = bool_decide (Z.of_nat i = Z.of_nat (length siblings) - 1).

Lemma renderTree_rows_placed fuel top level rows :
  (∀ x, x ∈ top → x ∈ values) →
  renderTree parentId fuel values expanded top level = Some rows →
  ∀ row, row ∈ rows → row_placed top row.
Proof.
  revert top level rows. induction fuel as [|fuel IH]; intros top level rows Htop Hrows.
  { destruct top; [|done]. injection Hrows as <-. by intros row ?%elem_of_nil. }
  cbn [renderTree] in Hrows. apply fmap_Some in Hrows as (groups & Hgroups & ->).
  apply mapM_Some_1 in Hgroups.
  intros row (group & Hrow & Hgroup)%list_elem_of_join.
  apply list_elem_of_lookup_1 in Hgroup as [i Hi].
  destruct (Forall2_lookup_r _ _ _ _ _ Hgroups Hi) as ([index x] & Hentry & Hx).
  apply list_lookup_imap_Some in Hentry as (x' & Hlookup & [= -> ->]).
  cbn [fst snd] in Hx. cbv zeta in Hx.
  destruct (JSSet.has (node_id x') expanded && _); cbn [mbind option_bind] in Hx.
  - destruct (renderTree parentId fuel values expanded _ _) as [below|] eqn:Hbelow; [|done].
    injection Hx as <-. apply elem_of_cons in Hrow as [->|Hrow].
    + exists top, i. split_and!; [by left|done..].
    + assert (x' ∈ values) as Hx' by (eapply Htop, list_elem_of_lookup_2, Hlookup).
      destruct (IH _ _ _ (λ c Hc, proj1 (proj1 (elem_of_tree_children _ _ _) Hc))
                  Hbelow row Hrow) as (siblings & j & Hsiblings & Hj & Hfirst & Hlast).
      exists siblings, j. split_and!; [|done..].
      right. destruct Hsiblings as [->|Hp]; [by exists x'|done].
  - injection Hx as <-. apply list_elem_of_singleton in Hrow as ->.
    exists top, i. split_and!; [by left|done..].
Qed.

(** The recursion ends within the height of the tree. *)
Lemma renderTree_terminates (height : string → nat) fuel top level :
  (∀ c p, c ∈ values → parentId c = Some p → (height (node_id c) < height p)%nat) →
  (∀ x, x ∈ top → (height (node_id x) < fuel)%nat) →
  is_Some (renderTree parentId fuel values expanded top level).
Proof.
  intros Hacyclic. revert top level.
  induction fuel as [|fuel IH]; intros top level Htop.
  { destruct top as [|x top]; [by eexists|]. specialize (Htop x (ltac:(by left))). lia. }
  cbn [renderTree]. apply fmap_is_Some, mapM_is_Some, Forall_forall.
  intros [index x] (i & Hi)%list_elem_of_lookup_1.
  apply list_lookup_imap_Some in Hi as (x' & Hlookup & [= -> ->]).
  cbn [compose fst snd]. cbv zeta.
  destruct (JSSet.has (node_id x') expanded && _); [|by eexists].
  destruct (IH (tree_children parentId values x') (S level)) as [below ->]; [|by eexists].
  intros c (Hc & Hparent & _)%elem_of_tree_children.
  specialize (Hacyclic c _ Hc Hparent).
  specialize (Htop x' (list_elem_of_lookup_2 _ _ _ Hlookup)). lia.
Qed.
End Rendered.

Lemma swap_moves (all : list N) (x t : N) :
  x ∈ all → node_sortOrder t ≠ node_sortOrder x → swap_sortOrder x t all ≠ all.
Proof.
  intros (k & Hk)%list_elem_of_lookup_1 Hne Heq.
  assert (swap_sortOrder x t all !! k
          = Some (node_with_sortOrder x (node_sortOrder t))) as Hswapped.
  { unfold swap_sortOrder. rewrite list_lookup_fmap, Hk. cbn.
    by rewrite bool_decide_eq_true_2. }
  rewrite Heq, Hk in Hswapped. injection Hswapped as Hx.
  apply Hne. apply (f_equal node_sortOrder) in Hx.
  by rewrite node_sortOrder_with in Hx.
Qed.

(** A node is moved up (down) by the reorder exactly when it is not the
    first (last) in the list of its sorted siblings. *)
Lemma placed_first_or_last (all : list N) (x : N) (i : nat) :
  NoDup (node_id <$> all) → sibling_sortOrders_unique all → x ∈ all →
  sorted_siblings x all !! i = Some x →
  (i = 0%nat ↔ reorder (node_id x) Up all = all)
  ∧ (Z.of_nat i = Z.of_nat (length (sorted_siblings x all)) - 1 ↔
     reorder (node_id x) Down all = all).
Proof.
  intros Hids Hkeys Hx Hi. unfold reorder.
  rewrite !(reorder_target_at all Hids x i _ Hx Hi). split; split.
  - by intros ->.
  - destruct i as [|j]; [done|]. cbn [adjacent_sibling].
    destruct (lookup_lt_is_Some_2 (sorted_siblings x all) j) as [t Hj];
      [apply lookup_lt_Some in Hi; lia|].
    rewrite Hj. cbn [fmap option_fmap option_map]. intros Heq. exfalso.
    pose proof (target_below all Hids Hkeys x t _ _ Hx
                  (lookup_pair_split _ _ _ _ Hj Hi)) as Hbelow.
    apply (swap_moves all x t Hx); [lia|done].
  - intros Hlast. cbn [adjacent_sibling].
    rewrite (lookup_ge_None_2 _ (S i)) by lia. done.
  - cbn [adjacent_sibling].
    destruct (sorted_siblings x all !! S i) as [t|] eqn:Hj.
    2: { intros _. apply lookup_ge_None_1 in Hj. apply lookup_lt_Some in Hi. lia. }
    cbn [fmap option_fmap option_map]. intros Heq. exfalso.
    pose proof (list_elem_of_lookup_2 _ _ _ Hj) as [Ht Hg]%elem_of_sorted_siblings.
    assert (sorted_siblings t all = sorted_siblings x all) as Esame
      by (unfold sorted_siblings; by rewrite Hg).
    pose proof (target_below all Hids Hkeys t x _ _ Ht
                  (eq_trans Esame (lookup_pair_split _ _ _ _ Hi Hj))) as Hbelow.
    apply (swap_moves all x t Hx); [lia|done].
Qed.

(** Where the lists of a panel are the lists of sorted siblings the reorder
    handlers work on, the rows flagged first (last) are the nodes the
    handler does not move up (down). *)
Lemma rows_match_reorder (all values top : list N) expanded fuel level rows :
  NoDup (node_id <$> all) → sibling_sortOrders_unique all →
  (∀ x, x ∈ values → x ∈ all) →
  (∀ x, x ∈ top → x ∈ values ∧ top = sorted_siblings x all) →
  (∀ p x, p ∈ values → x ∈ tree_children parentId values p →
          tree_children parentId values p = sorted_siblings x all) →
  renderTree parentId fuel values expanded top level = Some rows →
  ∀ row, row ∈ rows →
    row_node row ∈ values
    ∧ (row_isFirst row = true ↔ reorder (node_id (row_node row)) Up all = all)
    ∧ (row_isLast row = true ↔ reorder (node_id (row_node row)) Down all = all).
Proof.
  intros Hids Hkeys Hvalues Htop Hchildren Hrows row Hrow.
  destruct (renderTree_rows_placed values expanded fuel top level rows
              (λ x Hx, proj1 (Htop x Hx)) Hrows row Hrow)
    as (siblings & i & Hsiblings & Hi & Hfirst & Hlast).
  pose proof (list_elem_of_lookup_2 _ _ _ Hi) as Hin.
  assert (row_node row ∈ values ∧ siblings = sorted_siblings (row_node row) all)
    as [Hnode Esiblings].
  { destruct Hsiblings as [->|(p & Hp & ->)]; [by apply Htop|].
    split; [by apply elem_of_tree_children in Hin as [? _]|by apply Hchildren]. }
  rewrite Esiblings in Hi, Hlast.
  destruct (placed_first_or_last all (row_node row) i Hids Hkeys (Hvalues _ Hnode) Hi)
    as [Hup Hdown].
  split_and!; [done| |].
  - by rewrite Hfirst, bool_decide_eq_true.
  - by rewrite Hlast, bool_decide_eq_true.
Qed.
End TreeViewFacts.

Lemma filter_ext_in {A} (P Q : A → Prop) `{∀ x, Decision (P x)} `{∀ x, Decision (Q x)}
    (l : list A) :
  (∀ x, x ∈ l → P x ↔ Q x) → filter P l = filter Q l.
Proof.
  induction l as [|x l IH]; intros Hl; [done|].
  rewrite !filter_cons, IH by (intros y Hy; apply Hl; by right).
  destruct (decide (P x)) as [HP|HP], (decide (Q x)) as [HQ|HQ]; try done.
  - destruct HQ. by apply (Hl x (ltac:(by left))).
  - destruct HP. by apply (Hl x (ltac:(by left))).
Qed.

(** The rows of the sidebar are flagged first (last) exactly for the
    folders that [handleReorderFolder] would not move up (down): when the
    folders satisfy the invariants of the data model and every [parentId] is
    [null] or the id of a folder, the rendering ends, every row shows a
    folder of the project, and a row is flagged first (last) exactly when
    [handleReorderFolder] up (down) on its folder returns the state as it
    is. *)
Theorem sidebar_rows_match_reorder (prev : ProjectState) :
  folder_tree_ok (folders prev) →
  folder_parents_exist (folders prev) →
  ∃ fuel0, ∀ fuel, (fuel0 ≤ fuel)%nat →
    ∃ rows,
      sidebarRows fuel prev = Some rows
      ∧ ∀ row, row ∈ rows →
          row_node row ∈ folders prev
          ∧ (row_isFirst row = true ↔
             handleReorderFolder (folder_id (row_node row)) Up prev = Some prev)
          ∧ (row_isLast row = true ↔
             handleReorderFolder (folder_id (row_node row)) Down prev = Some prev).
Proof.
  intros (Hids & Hkeys & height & Hacyclic) Hparents.
  exists (S (max_list (height ∘ folder_id <$> folders prev))). intros fuel Hfuel.
  unfold sidebarRows. cbv zeta.
  assert (NoDup (node_id <$> folders prev)) as Hids' by exact Hids.
  rewrite (map_values_NoDup (folders prev) Hids').
  set (fs := folders prev) in *.
  assert (∀ x, x ∈ tree_roots folder_parentId fs →
               x ∈ fs ∧ folder_parentId x = None) as Hroot.
  { intros x [Hno Hx]%elem_of_sort_by%list_elem_of_filter. split; [done|].
    destruct (folder_parentId x) as [p|] eqn:Hp; [|done]. destruct Hno.
    destruct (Hparents x p Hx Hp) as (Hne & g & Hg & Eg).
    unfold has_parent_in, JS.truthy. rewrite Hp.
    rewrite !bool_decide_eq_true_2; [done| |done].
    rewrite <- Eg. by apply (list_elem_of_fmap_2 folder_id). }
  destruct (renderTree_terminates folder_parentId fs
              (JSSet.of_array (expandedFolderIds prev)) height fuel
              (tree_roots folder_parentId fs) 0) as [rows Hrows].
  { intros c p. apply Hacyclic. }
  { intros x [Hx _]%Hroot.
    pose proof (max_list_elem_of_le (height (folder_id x))
                  (height ∘ folder_id <$> fs)) as Hle.
    assert (height (folder_id x) ∈ height ∘ folder_id <$> fs) as Hin
      by (apply list_elem_of_fmap; by exists x).
    specialize (Hle Hin). cbn [node_id Folder_TreeNode]. lia. }
  exists rows. split; [done|]. intros row Hrow.
  destruct (rows_match_reorder folder_parentId fs fs (tree_roots folder_parentId fs)
              (JSSet.of_array (expandedFolderIds prev)) fuel 0%nat rows)
    with (row := row) as (Hnode & Hup & Hdown); [done|done|done| | |done|done|].
  - intros x Hx. destruct (Hroot x Hx) as [Hin Hnone]. split; [done|].
    unfold tree_roots, sorted_siblings. f_equal. apply filter_ext_in.
    intros n Hn. cbn [node_group Folder_TreeNode]. rewrite Hnone. split.
    + intros Hno. destruct (folder_parentId n) as [p|] eqn:Hp; [|done]. destruct Hno.
      destruct (Hparents n p Hn Hp) as (Hne & g & Hg & Eg).
      unfold has_parent_in, JS.truthy. rewrite Hp.
      rewrite !bool_decide_eq_true_2; [done| |done].
      rewrite <- Eg. by apply (list_elem_of_fmap_2 folder_id).
    + intros E Hhas. unfold has_parent_in in Hhas. by rewrite E in Hhas.
  - intros p x Hp (Hx & Hparent & Hne)%elem_of_tree_children.
    unfold tree_children, sorted_siblings. f_equal. apply list_filter_iff.
    intros n. cbn [node_group node_id Folder_TreeNode]. rewrite Hparent. tauto.
  - unfold fs in *. clear fs.
    assert (∀ nodes, Some (with_folders prev nodes) = Some prev ↔ nodes = folders prev)
      as Hsame.
    { intros nodes. split; [|intros ->; by rewrite with_folders_same].
      intros [= E]. rewrite <- E. by destruct prev. }
    rewrite !handleReorderFolder_reorder, !Hsame. by split_and!.
Qed.

Lemma reorder_project_folder_parents : folder_parents_exist (folders reorder_project).
Proof.
  intros f p Hf Hp. unfold reorder_project in Hf. cbn [folders] in Hf.
  list_cases Hf; cbn in Hp; simplify_eq. split; [done|].
  exists folder_x. split; [|done]. apply (bool_decide_unpack _). vm_compute. exact I.
Qed.

Lemma sidebar_rows_match_reorder_witness :
  ∃ fuel0, ∀ fuel, (fuel0 ≤ fuel)%nat →
    ∃ rows,
      sidebarRows fuel reorder_project = Some rows
      ∧ ∀ row, row ∈ rows →
          row_node row ∈ folders reorder_project
          ∧ (row_isFirst row = true ↔
             handleReorderFolder (folder_id (row_node row)) Up reorder_project
             = Some reorder_project)
          ∧ (row_isLast row = true ↔
             handleReorderFolder (folder_id (row_node row)) Down reorder_project
             = Some reorder_project).
Proof.
  apply (sidebar_rows_match_reorder reorder_project).
  - exact reorder_project_folder_tree_ok.
  - exact reorder_project_folder_parents.
Defined.

Example sidebarRows_reorder_project :
  sidebarRows 2 (with_expandedFolderIds reorder_project ["x"])
  = Some [mkRow folder_x 0 true true true false;
          mkRow folder_w 1 false false true true;
          mkRow folder_y 0 false false false false;
          mkRow folder_z 0 false false false true].
Proof. vm_compute. reflexivity. Qed.

(** The rows of the article panel are flagged first (last) exactly for the
    articles that [handleReorderArticle] would not move up (down): when the
    articles satisfy the invariants of the data model and every [parentId]
    is [null] or the id of an article of the same folder, the rendering
    ends, every row shows an article of the selected folder, and a row is
    flagged first (last) exactly when [handleReorderArticle] up (down) on
    its article returns the state as it is. *)
Theorem articlePanel_rows_match_reorder (selectedFolderId : string) (prev : ProjectState) :
  article_tree_ok (articles prev) →
  article_parents_exist (articles prev) →
  ∃ fuel0, ∀ fuel, (fuel0 ≤ fuel)%nat →
    ∃ rows,
      articlePanelRows fuel selectedFolderId prev = Some rows
      ∧ ∀ row, row ∈ rows →
          row_node row ∈ articles prev
          ∧ article_folderId (row_node row) = selectedFolderId
          ∧ (row_isFirst row = true ↔
             handleReorderArticle (article_id (row_node row)) Up prev = prev)
          ∧ (row_isLast row = true ↔
             handleReorderArticle (article_id (row_node row)) Down prev = prev).
Proof.
  intros (Hids & Hkeys & height & Hacyclic) Hparents.
  exists (S (max_list (height ∘ article_id <$> articles prev))). intros fuel Hfuel.
  unfold articlePanelRows. cbv zeta.
  set (shown := filter (λ a, article_folderId a = selectedFolderId) (articles prev)).
  case_bool_decide as Hshown; [|exists []; split; [done|by intros row ?%elem_of_nil]].
  assert (∀ a, a ∈ shown ↔ a ∈ articles prev ∧ article_folderId a = selectedFolderId)
    as Hin_shown by (intros a; unfold shown; rewrite list_elem_of_filter; tauto).
  assert (NoDup (node_id <$> shown)) as Hids_shown.
  { eapply sublist_NoDup; [exact Hids|]. apply fmap_sublist, sublist_filter. }
  rewrite (map_values_NoDup shown Hids_shown).
  assert (∀ n, n ∈ shown → ¬ has_parent_in article_parentId shown n →
               article_parentId n = None) as Hno_parent.
  { intros n Hn Hno. destruct (article_parentId n) as [p|] eqn:Hp; [|done]. destruct Hno.
    apply Hin_shown in Hn as [Hn Hfolder].
    destruct (Hparents n p Hn Hp) as (Hne & b & Hb & Eb & Efolder).
    unfold has_parent_in, JS.truthy. rewrite Hp.
    rewrite !bool_decide_eq_true_2; [done| |done].
    rewrite <- Eb. apply (list_elem_of_fmap_2 article_id), Hin_shown.
    split; [done|congruence]. }
  assert (∀ x, x ∈ tree_roots article_parentId shown →
               x ∈ shown ∧ article_parentId x = None) as Hroot.
  { intros x [Hno Hx]%elem_of_sort_by%list_elem_of_filter. split; [done|].
    by apply Hno_parent. }
  destruct (renderTree_terminates article_parentId shown
              (JSSet.of_array (expandedArticleIds prev)) height fuel
              (tree_roots article_parentId shown) 0) as [rows Hrows].
  { intros c p [Hc _]%Hin_shown. by apply Hacyclic. }
  { intros x [[Hx _]%Hin_shown _]%Hroot.
    pose proof (max_list_elem_of_le (height (article_id x))
                  (height ∘ article_id <$> articles prev)) as Hle.
    assert (height (article_id x) ∈ height ∘ article_id <$> articles prev) as Hin
      by (apply list_elem_of_fmap; by exists x).
    specialize (Hle Hin). cbn [node_id Article_TreeNode]. lia. }
  exists rows. split; [done|]. intros row Hrow.
  assert (NoDup (node_id <$> articles prev)) as Hids' by exact Hids.
  apply article_sortOrders_unique_siblings in Hkeys.
  destruct (rows_match_reorder article_parentId (articles prev) shown
              (tree_roots article_parentId shown)
              (JSSet.of_array (expandedArticleIds prev)) fuel 0%nat rows)
    with (row := row) as (Hnode & Hup & Hdown); [done|done| | | |done|done|].
  - intros x Hx. by apply Hin_shown.
  - intros x Hx. destruct (Hroot x Hx) as [Hin Hnone]. split; [done|].
    apply Hin_shown in Hin as [Hin Hfolder].
    unfold tree_roots, sorted_siblings, shown. f_equal.
    rewrite list_filter_filter. apply filter_ext_in.
    intros n Hn. cbn [node_group Article_TreeNode]. rewrite Hnone, Hfolder. split.
    + intros [Hno Hf]. rewrite Hf. f_equal. apply Hno_parent; [|done].
      by apply Hin_shown.
    + intros [= Hp Hf]. split; [|done]. intros Hhas.
      unfold has_parent_in in Hhas. by rewrite Hp in Hhas.
  - intros p x Hp (Hx & Hparent & Hne)%elem_of_tree_children.
    apply Hin_shown in Hx as [Hx Hfolder].
    unfold tree_children, sorted_siblings, shown. f_equal.
    rewrite list_filter_filter. apply list_filter_iff.
    intros n. cbn [node_group node_id Article_TreeNode]. rewrite Hparent, Hfolder.
    split.
    + intros [[-> _] ->]. done.
    + intros [= -> ->]. done.
  - assert (∀ nodes, with_articles prev nodes = prev ↔ nodes = articles prev) as Hsame.
    { intros nodes. split; [|intros ->; by rewrite with_articles_same].
      intros E. rewrite <- E. by destruct prev. }
    rewrite !handleReorderArticle_reorder, !Hsame.
    apply Hin_shown in Hnode as [Hnode Hfolder]. by split_and!.
Qed.

Lemma reorder_project_article_parents : article_parents_exist (articles reorder_project).
Proof.
  intros a p Ha Hp. unfold reorder_project in Ha. cbn [articles] in Ha.
  list_cases Ha; cbn in Hp; simplify_eq. split; [done|].
  exists article_a. split_and!; [|done..]. apply (bool_decide_unpack _). vm_compute. exact I.
Qed.

Lemma articlePanel_rows_match_reorder_witness :
  ∃ fuel0, ∀ fuel, (fuel0 ≤ fuel)%nat →
    ∃ rows,
      articlePanelRows fuel "x" reorder_project = Some rows
      ∧ ∀ row, row ∈ rows →
          row_node row ∈ articles reorder_project
          ∧ article_folderId (row_node row) = "x"
          ∧ (row_isFirst row = true ↔
             handleReorderArticle (article_id (row_node row)) Up reorder_project
             = reorder_project)
          ∧ (row_isLast row = true ↔
             handleReorderArticle (article_id (row_node row)) Down reorder_project
             = reorder_project).
Proof.
  apply (articlePanel_rows_match_reorder "x" reorder_project).
  - exact reorder_project_article_tree_ok.
  - exact reorder_project_article_parents.
Defined.

Example articlePanelRows_reorder_project :
  articlePanelRows 2 "x" (with_expandedArticleIds reorder_project ["a"])
  = Some [mkRow article_a 0 true true true false;
          mkRow article_c 1 false false true true;
          mkRow article_b 0 false false false true].
Proof. vm_compute. reflexivity. Qed.


(** ** The outline of the PDF *)

Section PdfTreeFacts.
Context {N G : Type} `{TreeNode N G} (parentId : N → option string) (all : list N).
Context (emit : N → nat → option (list PdfEntry)).

Lemma pdfTree_children_nil fuel level :
  pdfTree parentId all fuel emit [] level = Some [].
Proof. by destruct fuel. Qed.

(** The walk ends within the height of the tree when [emit] answers. *)
Lemma pdfTree_terminates (height : string → nat) fuel nodes level :
  (∀ c p, c ∈ all → parentId c = Some p → (height (node_id c) < height p)%nat) →
  (∀ x lvl, is_Some (emit x lvl)) →
  (∀ x, x ∈ nodes → (height (node_id x) < fuel)%nat) →
  is_Some (pdfTree parentId all fuel emit nodes level).
Proof.
  intros Hacyclic Hemit. revert nodes level.
  induction fuel as [|fuel IH]; intros nodes level Hnodes.
  { destruct nodes as [|x nodes]; [by eexists|].
    specialize (Hnodes x (ltac:(by left))). lia. }
  cbn [pdfTree]. apply fmap_is_Some, mapM_is_Some, Forall_forall.
  intros x Hx. cbn [compose]. destruct (Hemit x level) as [own ->].
  cbn [mbind option_bind]. cbv zeta.
  case_bool_decide; [|by eexists].
  destruct (IH (tree_children parentId all x) (S level)) as [rows ->]; [|by eexists].
  intros c (Hc & Hparent & _)%elem_of_tree_children.
  specialize (Hacyclic c _ Hc Hparent). specialize (Hnodes x Hx). lia.
Qed.

(** One step of the walk, for a node of the list walked. *)
Lemma pdfTree_step fuel nodes level out x :
  pdfTree parentId all (S fuel) emit nodes level = Some out → x ∈ nodes →
  ∃ own rows,
    emit x level = Some own
    ∧ pdfTree parentId all fuel emit (tree_children parentId all x) (S level) = Some rows
    ∧ ∀ e, e ∈ own ++ rows → e ∈ out.
Proof.
  cbn [pdfTree]. intros (groups & Hgroups & ->)%fmap_Some Hx.
  apply mapM_Some_1 in Hgroups.
  apply list_elem_of_lookup_1 in Hx as [i Hi].
  destruct (Forall2_lookup_l _ _ _ _ _ Hgroups Hi) as (group & Hgroup & Hx).
  destruct (emit x level) as [own|]; [|done]. cbn [mbind option_bind] in Hx. cbv zeta in Hx.
  exists own.
  assert (∃ rows,
    pdfTree parentId all fuel emit (tree_children parentId all x) (S level) = Some rows
    ∧ group = own ++ rows) as (rows & Hrows & ->).
  { case_bool_decide as Hchildren.
    - destruct (pdfTree _ _ _ _ _ _) as [rows|]; [|done]. injection Hx as <-. by exists rows.
    - injection Hx as <-. exists []. split; [|done].
      destruct (tree_children parentId all x); [apply pdfTree_children_nil|cbn in *; lia]. }
  exists rows. split_and!; [done..|].
  intros e He. apply list_elem_of_join. exists (own ++ rows). split; [done|].
  by eapply list_elem_of_lookup_2.
Qed.

(** Everything written was written for a node below one of the nodes the
    walk started from. *)
Lemma pdfTree_written fuel nodes level out e :
  pdfTree parentId all fuel emit nodes level = Some out → e ∈ out →
  ∃ r x lvl own, r ∈ nodes ∧ below parentId all r x
                 ∧ emit x lvl = Some own ∧ e ∈ own.
Proof.
  revert nodes level out. induction fuel as [|fuel IH]; intros nodes level out Hout He.
  { destruct nodes; [|done]. injection Hout as <-. by apply elem_of_nil in He. }
  pose proof Hout as Hout'. cbn [pdfTree] in Hout'.
  apply fmap_Some in Hout' as (groups & Hgroups & ->).
  apply list_elem_of_join in He as (group & He & Hgroup).
  apply mapM_Some_1 in Hgroups.
  apply list_elem_of_lookup_1 in Hgroup as [i Hi].
  destruct (Forall2_lookup_r _ _ _ _ _ Hgroups Hi) as (x & Hx & Hgroup).
  apply list_elem_of_lookup_2 in Hx.
  destruct (pdfTree_step fuel nodes level _ x Hout Hx) as (own & rows & Hown & Hrows & _).
  rewrite Hown in Hgroup. cbn [mbind option_bind] in Hgroup. cbv zeta in Hgroup.
  assert (group = own ++ rows) as ->.
  { case_bool_decide as Hchildren.
    - rewrite Hrows in Hgroup. by injection Hgroup as <-.
    - injection Hgroup as <-.
      destruct (tree_children parentId all x); [|cbn in *; lia].
      rewrite pdfTree_children_nil in Hrows. by injection Hrows as <-. }
  apply elem_of_app in He as [He|He].
  - exists x, x, level, own. split_and!; [done|constructor|done..].
  - destruct (IH _ _ _ Hrows He) as (c & y & lvl & own' & Hc & Hbelow & Hemit & Hin).
    apply elem_of_tree_children in Hc as (Hc & Hparent & Hne).
    exists x, y, lvl, own'. split_and!; [done| |done..].
    by apply (below_child parentId all x c y).
Qed.

(** Every node below one of the nodes the walk started from is written. *)
Lemma pdfTree_writes fuel nodes level out r x :
  pdfTree parentId all fuel emit nodes level = Some out →
  r ∈ nodes → below parentId all r x →
  ∃ lvl own, emit x lvl = Some own ∧ ∀ e, e ∈ own → e ∈ out.
Proof.
  intros Hout Hr Hbelow. revert fuel nodes level out Hout Hr.
  induction Hbelow as [x|r c x Hc Hparent Hne Hbelow IH]; intros fuel nodes level out Hout Hr.
  all: destruct fuel as [|fuel]; [by destruct nodes; [apply elem_of_nil in Hr|]|].
  all: destruct (pdfTree_step fuel nodes level out _ Hout Hr)
         as (own & rows & Hown & Hrows & Hin).
  - exists level, own. split; [done|]. intros e He. apply Hin, elem_of_app. by left.
  - destruct (IH fuel _ _ _ Hrows) as (lvl & own' & Hemit & Hin').
    { by apply elem_of_tree_children. }
    exists lvl, own'. split; [done|]. intros e He. apply Hin, elem_of_app. right.
    by apply Hin'.
Qed.
End PdfTreeFacts.

Lemma below_in {N G : Type} `{TreeNode N G} (parentId : N → option string)
    (all : list N) r x :
  below parentId all r x → r ∈ all → x ∈ all.
Proof. induction 1; auto. Qed.

Lemma filter_same_key {A B} `{EqDecision B} (g : A → B) (l : list A) x :
  NoDup (g <$> l) → x ∈ l → filter (λ y, g y = g x) l = [x].
Proof.
  induction l as [|y l IH]; intros Hnd Hx; [by apply elem_of_nil in Hx|].
  rewrite fmap_cons in Hnd. apply NoDup_cons in Hnd as [Hy Hnd].
  rewrite filter_cons. apply elem_of_cons in Hx as [->|Hx].
  - rewrite decide_True by done. f_equal. apply filter_none_nil.
    intros z Hz E. apply Hy. rewrite <- E. by apply list_elem_of_fmap_2.
  - rewrite decide_False; [by apply IH|].
    intros E. apply Hy. rewrite E. by apply list_elem_of_fmap_2.
Qed.

Lemma foldersById_get_unique fs f :
  NoDup (folder_id <$> fs) → f ∈ fs → foldersById_get fs (folder_id f) = Some f.
Proof. intros Hnd Hf. unfold foldersById_get. by rewrite filter_same_key. Qed.

Section PdfOutline.
Context (project : ProjectState) (selected : list string).
Context (folderHeight articleHeight : string → nat).
Context (Hids : NoDup (folder_id <$> folders project)).
Context (Hfolders : parents_above folderHeight (folders project)).
Context (Harticles : article_parents_above articleHeight (articles project)).

Local Abbreviation articleRoots folderId :=
  (sort_by article_sortOrder
     (filter (λ a, article_folderId a = folderId ∧ ¬ JS.truthy_opt (article_parentId a))
             (articles project))).

Local Abbreviation articleWalk fuel folderId :=
  (pdfTree article_parentId (articles project) fuel
           (λ article level, Some [PdfArticle article level])
           (articleRoots folderId) 0).

Lemma articleWalk_terminates fuel folderId :
  (max_list (articleHeight ∘ article_id <$> articles project) < fuel)%nat →
  is_Some (articleWalk fuel folderId).
Proof.
  intros Hfuel. apply (pdfTree_terminates _ _ _ articleHeight).
  - intros c p. apply Harticles.
  - by eexists.
  - intros x [_ Hx]%elem_of_sort_by%list_elem_of_filter.
    pose proof (max_list_elem_of_le (articleHeight (article_id x))
                  (articleHeight ∘ article_id <$> articles project)) as Hle.
    assert (articleHeight (article_id x)
            ∈ articleHeight ∘ article_id <$> articles project) as Hin
      by (apply list_elem_of_fmap; by exists x).
    specialize (Hle Hin). cbn [node_id Article_TreeNode]. lia.
Qed.

(** What the walk of the articles of a folder writes. *)
Lemma articleWalk_entries fuel folderId rows :
  articleWalk fuel folderId = Some rows →
  (∀ e, e ∈ rows →
        ∃ root a level,
          e = PdfArticle a level ∧ root ∈ articles project
          ∧ article_folderId root = folderId
          ∧ ¬ JS.truthy_opt (article_parentId root)
          ∧ below article_parentId (articles project) root a)
  ∧ (∀ root a,
       root ∈ articles project → article_folderId root = folderId →
       ¬ JS.truthy_opt (article_parentId root) →
       below article_parentId (articles project) root a →
       ∃ level, PdfArticle a level ∈ rows).
Proof.
  intros Hrows. split.
  - intros e He.
    destruct (pdfTree_written _ _ _ _ _ _ _ e Hrows He)
      as (root & a & level & own & Hroot & Hbelow & [= <-] & ->%list_elem_of_singleton).
    apply elem_of_sort_by, list_elem_of_filter in Hroot as [[Hfolder Hparent] Hroot].
    by exists root, a, level.
  - intros root a Hroot Hfolder Hparent Hbelow.
    destruct (pdfTree_writes _ _ _ _ _ _ _ root a Hrows) as (level & own & [= <-] & Hin);
      [|done|].
    + apply elem_of_sort_by, list_elem_of_filter. by split.
    + exists level. apply Hin. by left.
Qed.

Lemma renderFolder_folder fuel f :
  (max_list (articleHeight ∘ article_id <$> articles project) < fuel)%nat →
  f ∈ folders project →
  ∃ rows, renderFolder fuel project (folder_id f) = Some (PdfFolder f :: rows)
          ∧ articleWalk fuel (folder_id f) = Some rows.
Proof.
  intros Hfuel Hf. unfold renderFolder. rewrite (foldersById_get_unique _ f Hids Hf).
  cbv zeta. destruct (articleWalk_terminates fuel (folder_id f) Hfuel) as [rows Hrows].
  rewrite Hrows. by exists rows.
Qed.

Lemma renderFolder_terminates fuel folderId :
  (max_list (articleHeight ∘ article_id <$> articles project) < fuel)%nat →
  is_Some (renderFolder fuel project folderId).
Proof.
  intros Hfuel. unfold renderFolder.
  destruct (foldersById_get _ _); [|by eexists]. cbv zeta.
  destruct (articleWalk_terminates fuel folderId Hfuel) as [rows ->]. by eexists.
Qed.

Local Abbreviation folderRoots :=
  (sort_by folder_sortOrder
     (filter (λ f, folder_id f ∈ selected ∧ ¬ JS.truthy_opt (folder_parentId f))
             (folders project))).

Lemma elem_of_folderRoots r :
  r ∈ folderRoots ↔
  r ∈ folders project ∧ folder_id r ∈ selected ∧ ¬ JS.truthy_opt (folder_parentId r).
Proof. rewrite elem_of_sort_by, list_elem_of_filter. tauto. Qed.

Lemma pdfOutline_terminates fuel :
  (max_list (folderHeight ∘ folder_id <$> folders project) < fuel)%nat →
  (max_list (articleHeight ∘ article_id <$> articles project) < fuel)%nat →
  is_Some (pdfOutline fuel project selected).
Proof.
  intros Hfuel_folders Hfuel_articles. unfold pdfOutline. cbv zeta.
  apply (pdfTree_terminates _ _ _ folderHeight).
  - intros c p. apply Hfolders.
  - intros x lvl. cbv beta. case_bool_decide; [|by eexists].
    by apply renderFolder_terminates.
  - intros x [Hx _]%elem_of_folderRoots.
    pose proof (max_list_elem_of_le (folderHeight (folder_id x))
                  (folderHeight ∘ folder_id <$> folders project)) as Hle.
    assert (folderHeight (folder_id x)
            ∈ folderHeight ∘ folder_id <$> folders project) as Hin
      by (apply list_elem_of_fmap; by exists x).
    specialize (Hle Hin). cbn [node_id Folder_TreeNode]. lia.
Qed.

Context (fuel : nat) (outline : list PdfEntry).
Context (Hfuel : (max_list (articleHeight ∘ article_id <$> articles project) < fuel)%nat).
Context (Houtline : pdfOutline fuel project selected = Some outline).

(** What is written was written for a selected folder the walk reached. *)
Lemma pdfOutline_written e :
  e ∈ outline →
  ∃ root f rows,
    root ∈ folderRoots ∧ below folder_parentId (folders project) root f
    ∧ f ∈ folders project ∧ folder_id f ∈ selected
    ∧ articleWalk fuel (folder_id f) = Some rows
    ∧ e ∈ PdfFolder f :: rows.
Proof.
  intros He. unfold pdfOutline in Houtline. cbv zeta in Houtline.
  destruct (pdfTree_written _ _ _ _ _ _ _ e Houtline He)
    as (root & f & lvl & own & Hroot & Hbelow & Hemit & Hin).
  assert (f ∈ folders project) as Hf
    by (eapply below_in; [exact Hbelow|by apply elem_of_folderRoots]).
  cbv beta in Hemit. case_bool_decide as Hselected.
  2: { injection Hemit as <-. by apply elem_of_nil in Hin. }
  destruct (renderFolder_folder fuel f Hfuel Hf) as (rows & Hrender & Hrows).
  rewrite Hrender in Hemit. injection Hemit as <-.
  by exists root, f, rows.
Qed.

(** A selected folder the walk reaches is written, with its articles. *)
Lemma pdfOutline_writes root f :
  root ∈ folderRoots → below folder_parentId (folders project) root f →
  folder_id f ∈ selected →
  ∃ rows, articleWalk fuel (folder_id f) = Some rows
          ∧ ∀ e, e ∈ PdfFolder f :: rows → e ∈ outline.
Proof.
  intros Hroot Hbelow Hselected. unfold pdfOutline in Houtline. cbv zeta in Houtline.
  assert (f ∈ folders project) as Hf
    by (eapply below_in; [exact Hbelow|by apply elem_of_folderRoots]).
  destruct (pdfTree_writes _ _ _ _ _ _ _ root f Houtline Hroot Hbelow)
    as (lvl & own & Hemit & Hin).
  cbv beta in Hemit. rewrite bool_decide_eq_true_2 in Hemit by done.
  destruct (renderFolder_folder fuel f Hfuel Hf) as (rows & Hrender & Hrows).
  rewrite Hrender in Hemit. injection Hemit as <-. by exists rows.
Qed.

Lemma pdfOutline_folder f :
  PdfFolder f ∈ outline ↔
  folder_id f ∈ selected
  ∧ ∃ root, root ∈ folders project ∧ folder_id root ∈ selected
            ∧ ¬ JS.truthy_opt (folder_parentId root)
            ∧ below folder_parentId (folders project) root f.
Proof.
  split.
  - intros He.
    destruct (pdfOutline_written _ He)
      as (root & f' & rows & Hroot & Hbelow & Hf' & Hsel & Hrows & Hin).
    apply elem_of_cons in Hin as [[= ->]|Hin].
    + split; [done|]. exists root.
      apply elem_of_folderRoots in Hroot as (? & ? & ?). by split_and!.
    + destruct (proj1 (articleWalk_entries fuel _ rows Hrows) _ Hin)
        as (? & ? & ? & [=] & _).
  - intros (Hselected & root & Hroot & Hroot_selected & Hroot_top & Hbelow).
    destruct (pdfOutline_writes root f) as (rows & _ & Hin);
      [by apply elem_of_folderRoots|done..|].
    apply Hin. by left.
Qed.
End PdfOutline.

(** What the PDF holds.  When folder ids are unique and neither the folders
    nor the articles have a parent cycle, [buildHtmlForPdf] ends (for every
    bound on the depth of its walks from some bound on), and: a folder is
    written exactly when it is selected and lies in the tree of a selected
    root folder (a selected folder under a root that is not selected is left
    out); every article written comes under a folder written, below an
    article of that folder that has no parent; and every article below an
    article without parent of a folder written is written. *)
Theorem pdfOutline_contents
    (folderHeight articleHeight : string → nat)
    (project : ProjectState) (selectedFolderIds : list string) :
  NoDup (folder_id <$> folders project) →
  parents_above folderHeight (folders project) →
  article_parents_above articleHeight (articles project) →
  ∃ fuel0, ∀ fuel, (fuel0 ≤ fuel)%nat →
    ∃ outline,
      pdfOutline fuel project selectedFolderIds = Some outline
      ∧ (∀ f, PdfFolder f ∈ outline ↔
              folder_id f ∈ selectedFolderIds
              ∧ ∃ root, root ∈ folders project
                        ∧ folder_id root ∈ selectedFolderIds
                        ∧ ¬ JS.truthy_opt (folder_parentId root)
                        ∧ below folder_parentId (folders project) root f)
      ∧ (∀ a level, PdfArticle a level ∈ outline →
           ∃ f root, PdfFolder f ∈ outline ∧ root ∈ articles project
                     ∧ article_folderId root = folder_id f
                     ∧ ¬ JS.truthy_opt (article_parentId root)
                     ∧ below article_parentId (articles project) root a)
      ∧ (∀ f root a,
           PdfFolder f ∈ outline → root ∈ articles project →
           article_folderId root = folder_id f →
           ¬ JS.truthy_opt (article_parentId root) →
           below article_parentId (articles project) root a →
           ∃ level, PdfArticle a level ∈ outline).
Proof.
  intros Hids Hfolders Harticles.
  exists (S (max_list (folderHeight ∘ folder_id <$> folders project)
             `max` max_list (articleHeight ∘ article_id <$> articles project))).
  intros fuel Hfuel.
  assert (max_list (articleHeight ∘ article_id <$> articles project) < fuel)%nat
    as Hfuel_articles by lia.
  destruct (pdfOutline_terminates project selectedFolderIds folderHeight articleHeight
              Hfolders Harticles fuel) as [outline Houtline]; [lia|done|].
  exists outline. split; [done|].
  pose proof (pdfOutline_folder project selectedFolderIds articleHeight Hids Harticles
                fuel outline Hfuel_articles Houtline) as Hfolder.
  split_and!; [done| |].
  - intros a level He.
    destruct (pdfOutline_written project selectedFolderIds articleHeight Hids Harticles
                fuel outline Hfuel_articles Houtline _ He)
      as (root & f & rows & Hroot & Hbelow & Hf & Hsel & Hrows & Hin).
    apply elem_of_cons in Hin as [[=]|Hin].
    destruct (proj1 (articleWalk_entries project fuel _ rows Hrows) _ Hin)
      as (aroot & a' & level' & [= -> ->] & Haroot & Hfolder_a & Htop & Hbelow_a).
    exists f, aroot. split_and!; [|done..].
    apply Hfolder. split; [done|]. exists root.
    apply elem_of_folderRoots in Hroot as (? & ? & ?). by split_and!.
  - intros f aroot a [Hselected (root & Hroot & Hroot_sel & Hroot_top & Hbelow)]%Hfolder
           Haroot Hfolder_a Htop Hbelow_a.
    destruct (pdfOutline_writes project selectedFolderIds articleHeight Hids Harticles
                fuel outline Hfuel_articles Houtline root f)
      as (rows & Hrows & Hin); [by apply elem_of_folderRoots|done..|].
    destruct (proj2 (articleWalk_entries project fuel _ rows Hrows) aroot a)
      as (level & Hlevel); [done..|].
    exists level. apply Hin. by right.
Qed.

Lemma pdfOutline_contents_witness :
  ∃ fuel0, ∀ fuel, (fuel0 ≤ fuel)%nat →
    ∃ outline,
      pdfOutline fuel reorder_project ["w"] = Some outline
      ∧ (∀ f, PdfFolder f ∈ outline ↔
              folder_id f ∈ ["w"]
              ∧ ∃ root, root ∈ folders reorder_project
                        ∧ folder_id root ∈ ["w"]
                        ∧ ¬ JS.truthy_opt (folder_parentId root)
                        ∧ below folder_parentId (folders reorder_project) root f)
      ∧ (∀ a level, PdfArticle a level ∈ outline →
           ∃ f root, PdfFolder f ∈ outline ∧ root ∈ articles reorder_project
                     ∧ article_folderId root = folder_id f
                     ∧ ¬ JS.truthy_opt (article_parentId root)
                     ∧ below article_parentId (articles reorder_project) root a)
      ∧ (∀ f root a,
           PdfFolder f ∈ outline → root ∈ articles reorder_project →
           article_folderId root = folder_id f →
           ¬ JS.truthy_opt (article_parentId root) →
           below article_parentId (articles reorder_project) root a →
           ∃ level, PdfArticle a level ∈ outline).
Proof.
  destruct reorder_project_folder_tree_ok as (Hids & _ & folderHeight & Hfolders).
  destruct reorder_project_article_tree_ok as (_ & _ & articleHeight & Harticles).
  exact (pdfOutline_contents folderHeight articleHeight reorder_project ["w"]
           Hids Hfolders Harticles).
Defined.

(** With only the sub-folder [w] of [x] selected nothing is written; with
    [x] and [w] selected both are, [x] with its articles. *)
Example pdfOutline_reorder_project :
  pdfOutline 3 reorder_project ["w"] = Some []
  ∧ pdfOutline 3 reorder_project ["w"; "x"]
    = Some [PdfFolder folder_x; PdfArticle article_a 0; PdfArticle article_c 1;
            PdfArticle article_b 0; PdfFolder folder_w].
Proof. split; vm_compute; reflexivity. Qed.


(** ** The selection of the export dialog and the document *)

Lemma below_snoc {N G : Type} `{TreeNode N G} (parentId : N → option string)
    (all : list N) r p c :
  below parentId all r p → c ∈ all → parentId c = Some (node_id p) → node_id p ≠ "" →
  below parentId all r c.
Proof.
  induction 1 as [p|r d p Hd Hparent Hne _ IH]; intros Hc Hp Hid.
  - apply (below_child parentId all p c c); [done..|constructor].
  - apply (below_child parentId all r d c); [done..|]. by apply IH.
Qed.

(** Without a parent cycle and with every parent among the folders, every
    folder lies in the tree of a folder that has no parent. *)
Lemma folder_below_root (height : string → nat) (fs : list Folder) f :
  parents_above height fs → folder_parents_exist fs → f ∈ fs →
  ∃ root, root ∈ fs ∧ folder_parentId root = None
          ∧ below folder_parentId fs root f.
Proof.
  intros Hacyclic Hparents.
  remember (max_list (height ∘ folder_id <$> fs) - height (folder_id f))%nat as n eqn:En.
  revert f En. induction (lt_wf n) as [n _ IH]. intros f -> Hf.
  destruct (folder_parentId f) as [p|] eqn:Hp; [|exists f; split_and!; [done..|constructor]].
  destruct (Hparents f p Hf Hp) as (Hne & g & Hg & Eg).
  pose proof (Hacyclic f p Hf Hp) as Hheight.
  assert (height p ≤ max_list (height ∘ folder_id <$> fs))%nat as Hmax
    by (apply max_list_elem_of_le, list_elem_of_fmap; exists g;
        split; [by rewrite <- Eg|done]).
  destruct (IH (max_list (height ∘ folder_id <$> fs) - height (folder_id g))%nat)
    with (f := g) as (root & Hroot & Htop & Hbelow); [rewrite Eg; lia|done|done|].
  exists root. split_and!; [done..|].
  apply (below_snoc folder_parentId fs root g f); [done..| |].
  - by rewrite Hp, <- Eg.
  - cbn [node_id Folder_TreeNode]. by rewrite Eg.
Qed.

(** The selection and the document.  A selection that holds no root folder
    gives an empty document, whatever else is selected (and the button that
    starts the export is enabled as soon as something is selected, unless a
    PDF is being generated).  After
    "select all", when the folders satisfy the invariants of the data model
    with every parent among the folders and the articles have no parent
    cycle, every folder of the project is written, and nothing else as a
    folder.  A click on a folder turns its membership in the selection
    around. *)
Theorem export_selection (project : ProjectState) :
  (∀ fuel selectedIds,
     (∀ f, f ∈ folders project → folder_id f ∈ selectedIds →
           JS.truthy_opt (folder_parentId f)) →
     pdfOutline fuel project selectedIds = Some []
     ∧ (selectedIds ≠ [] →
        ∀ isGenerating, generateDisabled selectedIds isGenerating = isGenerating))
  ∧ (folder_tree_ok (folders project) → folder_parents_exist (folders project) →
     (∃ height, article_parents_above height (articles project)) →
     ∃ fuel0, ∀ fuel, (fuel0 ≤ fuel)%nat →
       ∃ outline,
         pdfOutline fuel project (handleSelectAll (folders project)) = Some outline
         ∧ ∀ f, PdfFolder f ∈ outline ↔ f ∈ folders project)
  ∧ (∀ folderId selectedIds,
       toggled folderId selectedIds (handleToggleSelection folderId selectedIds))
  ∧ (∀ isGenerating, generateDisabled handleClearSelection isGenerating = true).
Proof.
  split_and!.
  - intros fuel selectedIds Hno_root. split.
    + unfold pdfOutline. cbv zeta. rewrite filter_none_nil; [apply pdfTree_children_nil|].
      intros f Hf [Hselected Hroot]. by apply Hroot, Hno_root.
    + intros Hne isGenerating. unfold generateDisabled.
      rewrite bool_decide_eq_false_2; [done|]. by destruct selectedIds.
  - intros (Hids & _ & folderHeight & Hfolders) Hparents (articleHeight & Harticles).
    exists (S (max_list (folderHeight ∘ folder_id <$> folders project)
               `max` max_list (articleHeight ∘ article_id <$> articles project))).
    intros fuel Hfuel.
    destruct (pdfOutline_terminates project (handleSelectAll (folders project))
                folderHeight articleHeight Hfolders Harticles fuel)
      as [outline Houtline]; [lia..|].
    exists outline. split; [done|]. intros f.
    rewrite (pdfOutline_folder project _ articleHeight Hids Harticles fuel outline)
      by (lia || done).
    assert (∀ g, g ∈ folders project → folder_id g ∈ handleSelectAll (folders project))
      as Hall.
    { intros g Hg. unfold handleSelectAll. apply elem_of_of_array.
      by apply list_elem_of_fmap_2. }
    split.
    + intros (_ & root & Hroot & _ & _ & Hbelow). by eapply below_in.
    + intros Hf. split; [by apply Hall|].
      destruct (folder_below_root folderHeight (folders project) f Hfolders Hparents Hf)
        as (root & Hroot & Htop & Hbelow).
      exists root. split_and!; [done|by apply Hall| |done].
      rewrite Htop. by intros [].
  - intros folderId selectedIds. apply toggle_toggled.
  - done.
Qed.
